(** * calm-copilot: perception-to-narration pipeline (src/app6.py)

    A shallow embedding of the tracker, the mental map, the priority ranker,
    the situation analyser, the narration generator and the producer side of
    the speech engine, with the properties the specification states of them.

    Modelling conventions.
    - Python floats are read as real numbers ([R]): rounding and NaN are
      outside the model, and so are infinities, except in
      [compute_3d_position], where the sum of two coordinates can overflow
      to an infinity on which [int] raises.  Python ints are [Z].
    - A Python [dict] is an insertion-ordered association list ([PyDict]):
      iteration order is observable in the source (tie-breaks of the IoU
      match, the stable sort of the ranker, the order of the buckets).
    - Methods that mutate [self] take the object and return the new one.
    - [time.time()] is an argument: the clock reading the call obtained. *)

From Stdlib Require Import Reals Lra Lia ZArith List String Bool.
From Stdlib Require Import Permutation Sorted.
Import ListNotations.

Set Implicit Arguments.

Open Scope string_scope.
Open Scope list_scope.
Open Scope Z_scope.
Open Scope R_scope.

(* ================================================================== *)
(** ** Python dictionaries with integer keys *)

Module PyDict.

Section Dict.
Variable V : Type.

Definition t := list (Z * V).

Definition empty : t := [].

(** [d.get(k)] *)
Fixpoint get (k : Z) (d : t) : option V :=
  match d with
  | [] => None
  | (k', v) :: r => if Z.eqb k k' then Some v else get k r
  end.

(** [d[k] = v]: an existing key keeps its place, a new one goes last. *)
Fixpoint set (k : Z) (v : V) (d : t) : t :=
  match d with
  | [] => [(k, v)]
  | (k', v') :: r =>
      if Z.eqb k k' then (k, v) :: r else (k', v') :: set k v r
  end.

(** [d.keys()] *)
Definition keys (d : t) : list Z := map fst d.

(** [k in d] *)
Definition contains (k : Z) (d : t) : bool :=
  match get k d with Some _ => true | None => false end.

(** [{k: v for k, v in items}]: successive insertions. *)
Definition of_items (items : list (Z * V)) : t :=
  fold_left (fun d kv => set (fst kv) (snd kv) d) items empty.

End Dict.

End PyDict.

(* ================================================================== *)
(** ** Geometry: boxes, vectors, overlap *)

(** [bbox = [x1, y1, x2, y2]] *)
Record Box := mkBox { bx1 : R; by1 : R; bx2 : R; by2 : R }.

(** A 3-vector: a position or a velocity. *)
Record Vec3 := mkVec3 { vx : R; vy : R; vz : R }.

Definition vzero : Vec3 := mkVec3 0 0 0.

(** [np.array(a) - np.array(b)] *)
Definition vsub (a b : Vec3) : Vec3 :=
  mkVec3 (vx a - vx b) (vy a - vy b) (vz a - vz b).

(** [v / dt] *)
Definition vdiv (a : Vec3) (dt : R) : Vec3 :=
  mkVec3 (vx a / dt) (vy a / dt) (vz a / dt).

(** [np.linalg.norm(v)] *)
Definition norm (v : Vec3) : R := sqrt (vx v * vx v + vy v * vy v + vz v * vz v).

(** [SimpleTracker.iou] *)
Definition iou (boxA boxB : Box) : R :=
  let xA := Rmax (bx1 boxA) (bx1 boxB) in
  let yA := Rmax (by1 boxA) (by1 boxB) in
  let xB := Rmin (bx2 boxA) (bx2 boxB) in
  let yB := Rmin (by2 boxA) (by2 boxB) in
  let interArea := Rmax 0 (xB - xA) * Rmax 0 (yB - yA) in
  let boxAArea := Rmax 0 (bx2 boxA - bx1 boxA) * Rmax 0 (by2 boxA - by1 boxA) in
  let boxBArea := Rmax 0 (bx2 boxB - bx1 boxB) * Rmax 0 (by2 boxB - by1 boxB) in
  let unionArea := boxAArea + boxBArea - interArea in
  if Rle_dec unionArea 0 then 0
  else interArea / (unionArea + 1e-6).

(** Vocabulary of the specification, for stating the properties of [iou]. *)
Definition box_area (b : Box) : R :=
  Rmax 0 (bx2 b - bx1 b) * Rmax 0 (by2 b - by1 b).

Definition inter_area (a b : Box) : R :=
  Rmax 0 (Rmin (bx2 a) (bx2 b) - Rmax (bx1 a) (bx1 b))
  * Rmax 0 (Rmin (by2 a) (by2 b) - Rmax (by1 a) (by1 b)).

Definition union_area (a b : Box) : R :=
  box_area a + box_area b - inter_area a b.

(** Two boxes do not overlap when an axis separates them. *)
Definition non_overlapping (a b : Box) : Prop :=
  bx2 a <= bx1 b \/ bx2 b <= bx1 a \/ by2 a <= by1 b \/ by2 b <= by1 a.

(** Comparisons of floats as booleans. *)
Definition Rltb (x y : R) : bool := if Rlt_dec x y then true else false.
Definition Rleb (x y : R) : bool := if Rle_dec x y then true else false.
Definition Rgtb (x y : R) : bool := if Rgt_dec x y then true else false.

(* ================================================================== *)
(** ** Tracker *)

(** A detection as the detector and the projection step hand it over:
    [{"bbox": ..., "class": ..., "3D_position": ...}]. *)
Record Detection := mkDetection {
  d_bbox : Box;
  d_class : string;
  d_position : Vec3
}.

(** The same dictionary after [det["velocity"] = velocity]. *)
Record TrackedDetection := mkTracked {
  t_det : Detection;
  t_velocity : Vec3
}.

(** [class SimpleTracker] *)
Record SimpleTracker := mkTracker {
  next_id : Z;
  boxes_2d : PyDict.t Box;
  positions_3d : PyDict.t Vec3;
  timestamps : PyDict.t Z;
  ages : PyDict.t Z;
  iou_threshold : R;
  max_age : Z
}.

(** [SimpleTracker.__init__] *)
Definition new_tracker (iou_threshold : R) (max_age : Z) : SimpleTracker :=
  mkTracker 0 [] [] [] [] iou_threshold max_age.

Definition default_tracker : SimpleTracker := new_tracker 0.3 30.

(** [used_ids]: a set of ids, observed through [in] only. *)
Definition mem (k : Z) (s : list Z) : bool := existsb (Z.eqb k) s.

(** Body of the inner loop of [assign_ids], on the pair
    [(matched_id, best_iou)]. *)
Definition match_step (thr : R) (used_ids : list Z) (det_bbox : Box)
    (acc : option Z * R) (item : Z * Box) : option Z * R :=
  let obj_id := fst item in
  let prev_box := snd item in
  if mem obj_id used_ids then acc
  else
    let iou_score := iou det_bbox prev_box in
    if Rgtb iou_score thr && Rgtb iou_score (snd acc)
    then (Some obj_id, iou_score)
    else acc.

(** The inner loop: [for obj_id, prev_box in self.boxes_2d.items()]. *)
Definition find_match (thr : R) (used_ids : list Z) (det_bbox : Box)
    (boxes : PyDict.t Box) : option Z * R :=
  fold_left (match_step thr used_ids det_bbox) boxes (None, 0).

(** State of the outer loop: the tracker, [used_ids] and [assigned]. *)
Definition LoopState : Type :=
  (SimpleTracker * list Z * list (Z * TrackedDetection))%type.

(** Body of the outer loop: [for det in detections]. *)
Definition assign_one (current_frame : Z) (st : LoopState) (det : Detection)
    : LoopState :=
  let '(self, used_ids, assigned) := st in
  let det_bbox := d_bbox det in
  let det_pos3d := d_position det in
  let matched := fst (find_match (iou_threshold self) used_ids det_bbox (boxes_2d self)) in
  let matched_id := match matched with Some i => i | None => next_id self end in
  let next_id' := match matched with Some _ => next_id self | None => (next_id self + 1)%Z end in
  let used_ids' := matched_id :: used_ids in
  let prev_pos3d := PyDict.get matched_id (positions_3d self) in
  let prev_time :=
    match PyDict.get matched_id (timestamps self) with
    | Some t => t
    | None => current_frame
    end in
  let dt := Z.max (current_frame - prev_time) 1 in
  let velocity :=
    match prev_pos3d with
    | Some p => if (0 <? dt)%Z then vdiv (vsub det_pos3d p) (IZR dt) else vzero
    | None => vzero
    end in
  (mkTracker next_id'
     (PyDict.set matched_id det_bbox (boxes_2d self))
     (PyDict.set matched_id det_pos3d (positions_3d self))
     (PyDict.set matched_id current_frame (timestamps self))
     (PyDict.set matched_id 0%Z (ages self))
     (iou_threshold self) (max_age self),
   used_ids',
   assigned ++ [(matched_id, mkTracked det velocity)]).

(** [for obj_id in list(self.ages.keys()): if obj_id not in used_ids:
    self.ages[obj_id] += 1] *)
Definition age_unclaimed (used_ids : list Z) (a : PyDict.t Z) : PyDict.t Z :=
  fold_left
    (fun acc obj_id =>
       if mem obj_id used_ids then acc
       else match PyDict.get obj_id acc with
            | Some n => PyDict.set obj_id (n + 1)%Z acc
            | None => acc
            end)
    (PyDict.keys a) a.

(** [[oid for oid, age in self.ages.items() if age <= self.max_age]] *)
Definition active_ids (max_age : Z) (a : PyDict.t Z) : list Z :=
  map fst (filter (fun kv => (snd kv <=? max_age)%Z) a).

(** The item a comprehension over [active_ids] yields for [oid], if any:
    [oid: d[oid]] under the filter [if oid in d]. *)
Definition pick (V : Type) (d : PyDict.t V) (oid : Z) : list (Z * V) :=
  match PyDict.get oid d with
  | Some v => [(oid, v)]
  | None => []
  end.

(** [{oid: d[oid] for oid in active_ids if oid in d}].  The comprehension
    of [self.ages] has no filter; its ids come from [self.ages] itself. *)
Definition restrict (V : Type) (active : list Z) (d : PyDict.t V) : PyDict.t V :=
  PyDict.of_items (flat_map (pick d) active).

(** [SimpleTracker.assign_ids]: the new tracker and the list [assigned]. *)
Definition assign_ids (self : SimpleTracker) (detections : list Detection)
    (current_frame : Z) : SimpleTracker * list (Z * TrackedDetection) :=
  let '(self1, used_ids, assigned) :=
    fold_left (assign_one current_frame) detections (self, [], []) in
  let ages1 := age_unclaimed used_ids (ages self1) in
  let active := active_ids (max_age self1) ages1 in
  (mkTracker (next_id self1)
     (restrict active (boxes_2d self1))
     (restrict active (positions_3d self1))
     (restrict active (timestamps self1))
     (restrict active ages1)
     (iou_threshold self1) (max_age self1),
   assigned).

(** The ids a tracker holds in any of its four dictionaries. *)
Definition tracked (self : SimpleTracker) (i : Z) : Prop :=
  In i (PyDict.keys (boxes_2d self)) \/ In i (PyDict.keys (positions_3d self))
  \/ In i (PyDict.keys (timestamps self)) \/ In i (PyDict.keys (ages self)).

(** What [__init__] establishes and every [assign_ids] keeps: the four
    dictionaries hold the same ids in the same order, each once, all below
    the counter. *)
Record tracker_ok (self : SimpleTracker) : Prop := mkOk {
  ok_nodup : NoDup (PyDict.keys (boxes_2d self));
  ok_pos : PyDict.keys (positions_3d self) = PyDict.keys (boxes_2d self);
  ok_ts : PyDict.keys (timestamps self) = PyDict.keys (boxes_2d self);
  ok_ages : PyDict.keys (ages self) = PyDict.keys (boxes_2d self);
  ok_below : forall i, In i (PyDict.keys (boxes_2d self)) -> (i < next_id self)%Z
}.

(** Successive calls of [assign_ids], one per frame. *)
Fixpoint run_frames (self : SimpleTracker) (frames : list (list Detection * Z))
    : SimpleTracker :=
  match frames with
  | [] => self
  | (dets, f) :: rest => run_frames (fst (assign_ids self dets f)) rest
  end.

(** The ids [assign_ids] hands out over successive calls. *)
Fixpoint run_outputs (self : SimpleTracker) (frames : list (list Detection * Z))
    : list (list Z) :=
  match frames with
  | [] => []
  | (dets, f) :: rest =>
      map fst (snd (assign_ids self dets f))
      :: run_outputs (fst (assign_ids self dets f)) rest
  end.

(* ================================================================== *)
(** ** Mental map *)

(** One value of [MentalMap3D.map]. *)
Record MapEntry := mkEntry {
  e_class : string;
  e_position : Vec3;
  e_velocity : Vec3;
  e_last_seen : R
}.

(** [class MentalMap3D] *)
Record MentalMap3D := mkMentalMap {
  mm_map : PyDict.t MapEntry;
  keep_seconds : R
}.

Definition new_mental_map (keep_seconds : R) : MentalMap3D :=
  mkMentalMap [] keep_seconds.

Definition default_mental_map : MentalMap3D := new_mental_map 5.0.

(** The entry [update] stores for a tracked detection. *)
Definition entry_of (det : TrackedDetection) (current_time : R) : MapEntry :=
  mkEntry (d_class (t_det det)) (d_position (t_det det)) (t_velocity det)
          current_time.

(** The first loop of [update]. *)
Definition upsert_all (tracked_objects : list (Z * TrackedDetection))
    (current_time : R) (m : PyDict.t MapEntry) : PyDict.t MapEntry :=
  fold_left
    (fun m' od => PyDict.set (fst od) (entry_of (snd od) current_time) m')
    tracked_objects m.

(** [MentalMap3D.update]; [current_time] is what [time.time()] returned. *)
Definition update (self : MentalMap3D)
    (tracked_objects : list (Z * TrackedDetection)) (current_time : R)
    : MentalMap3D :=
  let m := upsert_all tracked_objects current_time (mm_map self) in
  mkMentalMap
    (PyDict.of_items
       (filter (fun kv => Rleb (current_time - e_last_seen (snd kv))
                               (keep_seconds self)) m))
    (keep_seconds self).

(* ================================================================== *)
(** ** Priority ranker *)

(** The class table of [prioritize_objects]. *)
Definition type_table : list (string * Z) :=
  [ ("person", 5); ("car", 6); ("truck", 6); ("bus", 6);
    ("bicycle", 4); ("motorcycle", 5); ("traffic light", 3);
    ("stop sign", 4); ("bench", 2); ("chair", 2);
    ("dog", 4); ("cat", 3) ]%Z%string.

(** [table.get(key, default)] on a table of string keys. *)
Fixpoint table_get (key : string) (table : list (string * Z)) (default : Z) : Z :=
  match table with
  | [] => default
  | (k, v) :: r => if String.eqb key k then v else table_get key r default
  end.

(** [np.arctan2(y, x)] on finite arguments. *)
Definition arctan2 (y x : R) : R :=
  if Rlt_dec 0 x then atan (y / x)
  else if Rlt_dec x 0 then
    (if Rle_dec 0 y then atan (y / x) + PI else atan (y / x) - PI)
  else if Rlt_dec 0 y then PI / 2
  else if Rlt_dec y 0 then - (PI / 2)
  else 0.

(** The score [prioritize_objects] gives one entry. *)
Definition score (info : MapEntry) : R :=
  let pos := e_position info in
  let vel := e_velocity info in
  let distance := norm pos in
  let type_score := table_get (e_class info) type_table 2 in
  let velocity_magnitude := norm vel in
  let velocity_score :=
    if Rgtb velocity_magnitude 0.01 then Rmax 0 (- vz vel) else 0 in
  let fov_angle := arctan2 (Rabs (vx pos)) (Rmax (vz pos) 0.1) in
  let fov_factor := if Rltb fov_angle (PI / 4) then 1.0 else 0.5 in
  let urgency := if Rltb distance 2.0 then 1.0 else 0.5 in
  (0.3 * IZR type_score + 0.3 * (1 / (distance + 0.5))
   + 0.2 * velocity_score + 0.2 * urgency) * fov_factor.

Definition Scored : Type := (R * Z * MapEntry)%type.

Definition sc_key (x : Scored) : R := fst (fst x).

(** [list.sort(reverse=True, key=...)] is a stable sort into descending
    order: equal keys keep their relative order.  It is taken as insertion
    from the right, each element going before the first one whose key is
    not greater. *)
Fixpoint insert_desc (x : Scored) (l : list Scored) : list Scored :=
  match l with
  | [] => [x]
  | y :: r => if Rltb (sc_key x) (sc_key y) then y :: insert_desc x r else x :: l
  end.

Definition sort_desc (l : list Scored) : list Scored :=
  fold_right insert_desc [] l.

(** [l[:n]], negative [n] counting from the end. *)
Definition slice_to (A : Type) (n : Z) (l : list A) : list A :=
  if (n <? 0)%Z
  then firstn (Z.to_nat (Z.max 0 (Z.of_nat (List.length l) + n))) l
  else firstn (Z.to_nat n) l.

(** [prioritize_objects]; [user_forward] is not used by the source. *)
Definition prioritize_objects (mental_map : PyDict.t MapEntry) (top_n : Z)
    : list (Z * MapEntry) :=
  let scored_objects :=
    map (fun kv => (score (snd kv), fst kv, snd kv)) mental_map in
  map (fun x : Scored => (snd (fst x), snd x))
      (slice_to top_n (sort_desc scored_objects)).

(* ================================================================== *)
(** ** Situation analysis *)

Record Alert := mkAlert {
  a_object : string;
  a_direction : string;
  a_urgency : string;
  a_distance : R
}.

Record Moving := mkMoving {
  m_object : string;
  m_direction : string;
  m_distance : R
}.

Record Obstacle := mkObstacle {
  o_object : string;
  o_distance : R
}.

(** The dictionary [situation]. *)
Record Situation := mkSituation {
  urgent_alerts : list Alert;
  path_status : string;
  obstacles : list Obstacle;
  moving_objects : list Moving
}.

Definition direction_of (x : R) : string :=
  if Rltb x (-0.5) then "left"
  else if Rgtb x 0.5 then "right"
  else "ahead".

Definition is_moving (info : MapEntry) : bool :=
  Rgtb (norm (e_velocity info)) 0.05.

Definition is_approaching (info : MapEntry) : bool :=
  if is_moving info then Rltb (vz (e_velocity info)) (-0.02) else false.

Definition urgency_of (distance : R) : string :=
  if Rltb distance 1.5 then "very close"
  else if Rltb distance 2.5 then "approaching quickly"
  else "approaching".

(** Body of the first loop of [analyze_situation]. *)
Definition analyze_entry (situation : Situation) (info : MapEntry) : Situation :=
  let pos := e_position info in
  let cls := e_class info in
  let distance := norm pos in
  let direction := direction_of (vx pos) in
  if is_approaching info && Rltb distance 3.0 then
    mkSituation
      (urgent_alerts situation
         ++ [mkAlert cls direction (urgency_of distance) distance])
      (path_status situation) (obstacles situation) (moving_objects situation)
  else if is_moving info && Rltb distance 4.0 then
    mkSituation
      (urgent_alerts situation) (path_status situation) (obstacles situation)
      (moving_objects situation ++ [mkMoving cls direction distance])
  else if negb (is_moving info) && String.eqb direction "ahead"
          && Rltb distance 3.0 then
    mkSituation
      (urgent_alerts situation) (path_status situation)
      (obstacles situation ++ [mkObstacle cls distance])
      (moving_objects situation)
  else situation.

(** The corridor test of the second loop. *)
Definition in_corridor (info : MapEntry) : bool :=
  let pos := e_position info in
  Rltb (Rabs (vx pos)) 0.7 && Rgtb (vz pos) 0 && Rltb (norm pos) 3.0.

(** The second loop, with its [break]: the value of [ahead_clear]. *)
Fixpoint ahead_clear (items : list (Z * MapEntry)) : bool :=
  match items with
  | [] => true
  | kv :: r => if in_corridor (snd kv) then false else ahead_clear r
  end.

Definition empty_situation : Situation := mkSituation [] "clear" [] [].

(** [analyze_situation]; [prioritized_objects] is not used by the source. *)
Definition analyze_situation (mental_map : PyDict.t MapEntry) : Situation :=
  let s := fold_left (fun s kv => analyze_entry s (snd kv)) mental_map
                     empty_situation in
  mkSituation (urgent_alerts s)
    (if ahead_clear mental_map then "clear" else "blocked")
    (obstacles s) (moving_objects s).

(* ================================================================== *)
(** ** Narration *)

Definition render_alert (alert : Alert) : string :=
  if String.eqb (a_urgency alert) "very close"
  then (a_object alert ++ " " ++ a_urgency alert ++ " on your "
        ++ a_direction alert)%string
  else (a_object alert ++ " " ++ a_urgency alert ++ " from your "
        ++ a_direction alert)%string.

Definition render_moving (mov : Moving) : string :=
  (m_object mov ++ " moving on your " ++ m_direction mov)%string.

Definition render_obstacle (obs : Obstacle) : string :=
  (o_object obs ++ " in path ahead")%string.

(** The clauses of the [if]/[elif]/[elif] over the three buckets. *)
Definition hazard_parts (situation : Situation) : list string :=
  match urgent_alerts situation with
  | _ :: _ => map render_alert (firstn 2 (urgent_alerts situation))
  | [] =>
    match moving_objects situation with
    | _ :: _ => map render_moving (firstn 2 (moving_objects situation))
    | [] =>
      match obstacles situation with
      | _ :: _ => map render_obstacle (firstn 1 (obstacles situation))
      | [] => []
      end
    end
  end.

Definition path_part (situation : Situation) : string :=
  if String.eqb (path_status situation) "clear"
  then "the way ahead is clear"
  else "obstacle in path".

Definition fixed_phrase : string := "Path is clear, no immediate hazards".

(** [generate_contextual_narration]; [prioritized_objects] is not used by
    the source. *)
Definition generate_contextual_narration (situation : Situation) : string :=
  let narration_parts := hazard_parts situation ++ [path_part situation] in
  if (List.length narration_parts =? 0)%nat
     || (List.length narration_parts =? 1)%nat
  then fixed_phrase
  else if (List.length narration_parts =? 1)%nat
  then hd EmptyString narration_parts
  else String.concat "; " (firstn 2 narration_parts).

(* ================================================================== *)
(** ** Speech engine, producer side *)

(** [queue.Queue(maxsize)], as one thread sees it. *)
Record BoundedQueue := mkQueue {
  q_items : list string;
  q_maxsize : Z
}.

(** [Queue.full()] *)
Definition q_full (q : BoundedQueue) : bool :=
  (0 <? q_maxsize q)%Z && (q_maxsize q <=? Z.of_nat (List.length (q_items q)))%Z.

(** [Queue.get_nowait()]: [None] stands for [queue.Empty]. *)
Definition q_get_nowait (q : BoundedQueue) : option (string * BoundedQueue) :=
  match q_items q with
  | [] => None
  | x :: r => Some (x, mkQueue r (q_maxsize q))
  end.

(** [Queue.put_nowait(x)]: [None] stands for [queue.Full]. *)
Definition q_put_nowait (x : string) (q : BoundedQueue) : option BoundedQueue :=
  if q_full q then None else Some (mkQueue (q_items q ++ [x]) (q_maxsize q)).

(** The fields of [IntelligentTTSEngine] that [speak] reads and writes. *)
Record IntelligentTTSEngine := mkEngine {
  phrase_q : BoundedQueue;
  last_narration : string;
  last_narration_time : R
}.

(** [IntelligentTTSEngine.__init__] *)
Definition new_engine : IntelligentTTSEngine :=
  mkEngine (mkQueue [] 5) "" 0.

(** [IntelligentTTSEngine.speak].  [t_check] is the clock reading of the
    debounce test, [t_accept] the one stored on acceptance. *)
Definition speak (self : IntelligentTTSEngine) (text : string) (force : bool)
    (t_check t_accept : R) : IntelligentTTSEngine :=
  if String.eqb text "" then self
  else if negb force && String.eqb text (last_narration self)
          && Rltb (t_check - last_narration_time self) 3.0
  then self
  else
    let q := phrase_q self in
    let q1 :=
      if q_full q
      then match q_get_nowait q with
           | Some (_, q') => q'
           | None => q
           end
      else q in
    match q_put_nowait text q1 with
    | Some q2 => mkEngine q2 text t_accept
    | None => mkEngine q1 text t_accept
    end.

(** The engine after a sequence of calls [(text, force, t_check, t_accept)]. *)
Definition speak_all (self : IntelligentTTSEngine)
    (calls : list (string * bool * R * R)) : IntelligentTTSEngine :=
  fold_left
    (fun e c => speak e (fst (fst (fst c))) (snd (fst (fst c)))
                      (snd (fst c)) (snd c))
    calls self.

(* ================================================================== *)
(** ** Vocabulary of the specification *)

(** The loop state of [assign_ids] on reaching the detection that follows
    the prefix [pre]. *)
Definition loop_state (current_frame : Z) (self : SimpleTracker)
    (pre : list Detection) : LoopState :=
  fold_left (assign_one current_frame) pre (self, [], []).

(** Track [id] holds what detection [det] brought in frame [f]. *)
Definition stored (self : SimpleTracker) (id : Z) (det : Detection) (f : Z)
    : Prop :=
  PyDict.get id (boxes_2d self) = Some (d_bbox det)
  /\ PyDict.get id (positions_3d self) = Some (d_position det)
  /\ PyDict.get id (timestamps self) = Some f
  /\ PyDict.get id (ages self) = Some 0%Z.

(** Track [id] is unclaimed, overlaps [det] above the threshold, and no
    unclaimed track overlaps it more. *)
Definition selects (self : SimpleTracker) (used : list Z) (det : Detection)
    (id : Z) : Prop :=
  exists b,
    PyDict.get id (boxes_2d self) = Some b
    /\ ~ In id used
    /\ iou (d_bbox det) b > iou_threshold self
    /\ forall j bj, PyDict.get j (boxes_2d self) = Some bj -> ~ In j used ->
                    iou (d_bbox det) bj <= iou (d_bbox det) b.

(** No unclaimed track overlaps [det] above the threshold. *)
Definition none_qualifies (self : SimpleTracker) (used : list Z)
    (det : Detection) : Prop :=
  forall j bj, PyDict.get j (boxes_2d self) = Some bj -> ~ In j used ->
               ~ iou (d_bbox det) bj > iou_threshold self.

(** The four dictionaries agree on [j] in two trackers. *)
Definition same_track (s1 s2 : SimpleTracker) (j : Z) : Prop :=
  PyDict.get j (boxes_2d s1) = PyDict.get j (boxes_2d s2)
  /\ PyDict.get j (positions_3d s1) = PyDict.get j (positions_3d s2)
  /\ PyDict.get j (timestamps s1) = PyDict.get j (timestamps s2)
  /\ PyDict.get j (ages s1) = PyDict.get j (ages s2).

(** Sample boxes: a unit square, one away from it, a segment, and a square
    a thousandth of a pixel wide. *)
Definition unit_box : Box := mkBox 0 0 1 1.
Definition far_box : Box := mkBox 2 2 3 3.
Definition flat_box : Box := mkBox 0 0 0 1.
Definition tiny_box : Box := mkBox 0 0 0.001 0.001.

(** What the loop of [assign_ids] maintains, [self0] being the tracker the
    call started from and [pre] the detections processed so far. *)
Definition loop_inv (self0 : SimpleTracker) (pre : list Detection)
    (st : LoopState) : Prop :=
  let slf := fst (fst st) in
  let used := snd (fst st) in
  let assigned := snd st in
  tracker_ok slf
  /\ used = rev (map fst assigned)
  /\ map (fun x => t_det (snd x)) assigned = pre
  /\ (forall j, ~ In j used -> same_track slf self0 j)
  /\ (forall j, In j used -> PyDict.get j (ages slf) = Some 0%Z)
  /\ (forall j, In j (PyDict.keys (boxes_2d slf))
                <-> In j (PyDict.keys (boxes_2d self0)) \/ In j used)
  /\ (next_id self0 <= next_id slf)%Z
  /\ iou_threshold slf = iou_threshold self0
  /\ max_age slf = max_age self0.

(** A person detected 2 m ahead. *)
Definition sample_detection : Detection :=
  mkDetection (mkBox 10 10 50 50) "person" (mkVec3 0 0 2).

(** A tracker holding one track, id 0, seen in frame 1. *)
Definition one_track (max_age : Z) : SimpleTracker :=
  mkTracker 1
    [(0%Z, d_bbox sample_detection)]
    [(0%Z, d_position sample_detection)]
    [(0%Z, 1%Z)]
    [(0%Z, 0%Z)]
    0.3 max_age.

(** A mental map whose only entry, id 7, was last seen at time 0. *)
Definition stale_map : MentalMap3D :=
  mkMentalMap [(7%Z, mkEntry "car" (mkVec3 0 0 4) vzero 0)] 5.0.

(** The sample detection as the tracker hands it over in its first frame. *)
Definition sample_tracked : TrackedDetection :=
  mkTracked sample_detection vzero.

(** Descending order of scored entries. *)
Definition desc (a b : Scored) : Prop := sc_key a >= sc_key b.

(** The score as the specification words it: the combination of four
    components, each told by its own condition. *)
Definition score_spec (info : MapEntry) (s : R) : Prop :=
  let pos := e_position info in
  let vel := e_velocity info in
  let distance := norm pos in
  exists typeScore velocityScore fovFactor urgencyBonus : R,
    s = (0.3 * typeScore + 0.3 / (distance + 0.5)
         + 0.2 * velocityScore + 0.2 * urgencyBonus) * fovFactor
    /\ typeScore = IZR (table_get (e_class info) type_table 2)
    /\ ((forall k v, In (k, v) type_table -> k <> e_class info) ->
        typeScore = 2)
    /\ (norm vel > 0.01 -> velocityScore = Rmax 0 (- vz vel))
    /\ (~ norm vel > 0.01 -> velocityScore = 0)
    /\ (arctan2 (Rabs (vx pos)) (Rmax (vz pos) 0.1) < PI / 4 -> fovFactor = 1.0)
    /\ (~ arctan2 (Rabs (vx pos)) (Rmax (vz pos) 0.1) < PI / 4 -> fovFactor = 0.5)
    /\ (distance < 2.0 -> urgencyBonus = 1.0)
    /\ (~ distance < 2.0 -> urgencyBonus = 0.5).

(** A mental map of two entries: a car at 4 m ahead, a bench to the right. *)
Definition sample_map : PyDict.t MapEntry :=
  [ (3%Z, mkEntry "bench" (mkVec3 2 0 1) vzero 0);
    (7%Z, mkEntry "car" (mkVec3 0 0 4) vzero 0) ].

(** The corridor test in the words of the specification. *)
Definition blocks_path (info : MapEntry) : Prop :=
  Rabs (vx (e_position info)) < 0.7
  /\ vz (e_position info) > 0
  /\ norm (e_position info) < 3.0.

(** What one entry on its own adds to the three buckets. *)
Definition contribution (info : MapEntry) : Situation :=
  analyze_entry empty_situation info.

(** How many bucket items an entry adds. *)
Definition placements (info : MapEntry) : nat :=
  (List.length (urgent_alerts (contribution info))
   + List.length (moving_objects (contribution info))
   + List.length (obstacles (contribution info)))%nat.

(** An entry straight ahead at 1 m, closing in at 1 m per frame. *)
Definition closing_entry : MapEntry :=
  mkEntry "car" (mkVec3 0 0 1) (mkVec3 0 0 (-1)) 0.

(** An entry straight ahead at 1 m, drifting sideways. *)
Definition drifting_entry : MapEntry :=
  mkEntry "dog" (mkVec3 0 0 1) (mkVec3 1 0 0) 0.

(** All the clauses, before the cut to two. *)
Definition clauses (situation : Situation) : list string :=
  hazard_parts situation ++ [path_part situation].

(** The debounce test of [speak], in the words of the specification. *)
Definition debounced (self : IntelligentTTSEngine) (text : string)
    (force : bool) (t_check : R) : Prop :=
  force = false /\ text = last_narration self
  /\ t_check - last_narration_time self < 3.0.

(** The queue as [__init__] makes it and [speak] keeps it. *)
Definition engine_ok (self : IntelligentTTSEngine) : Prop :=
  q_maxsize (phrase_q self) = 5%Z
  /\ (List.length (q_items (phrase_q self)) <= 5)%nat.

(** An engine whose queue holds five phrases. *)
Definition full_engine : IntelligentTTSEngine :=
  mkEngine (mkQueue ["a"; "b"; "c"; "d"; "e"] 5) "e" 0.

(** The sample detection one frame later, slightly moved. *)
Definition moved_detection : Detection :=
  mkDetection (mkBox 12 12 52 52) "person" (mkVec3 0 0 1.5).

(** A detection away from the sample one. *)
Definition other_detection : Detection :=
  mkDetection (mkBox 100 100 150 150) "car" (mkVec3 1 0 5).


(* ================================================================== *)
(** ** Further vocabulary *)

(** The ids [n], [n + 1], ..., [n + k - 1]. *)
Definition ids_from (n : Z) (k : nat) : list Z :=
  map (fun i => (n + Z.of_nat i)%Z) (seq 0 k).


(** Every age a tracker holds lies between 0 and [max_age]. *)
Definition ages_in_range (self : SimpleTracker) : Prop :=
  forall i a, PyDict.get i (ages self) = Some a -> (0 <= a <= max_age self)%Z.


(** A tracker whose only track, id 0, has been purged. *)
Definition purged_tracker : SimpleTracker := mkTracker 1 [] [] [] [] 0.3 30.



(** The entries whose score is exactly [k]. *)
Definition with_score (k : R) (l : list (Z * MapEntry)) : list (Z * MapEntry) :=
  filter (fun e => if Req_dec_T (score (snd e)) k then true else false) l.

(** A map of two benches at the same place, hence of equal score. *)
Definition tied_map : PyDict.t MapEntry :=
  [ (9%Z, mkEntry "bench" (mkVec3 2 0 1) vzero 0);
    (4%Z, mkEntry "bench" (mkVec3 2 0 1) vzero 0) ].


(** An entry standing still at 1 m, 0.6 m to the right of the axis. *)
Definition offcentre_entry : MapEntry :=
  mkEntry "chair" (mkVec3 0.6 0 1) vzero 0.

(** The last [n] elements of a list. *)
Definition last_n (A : Type) (n : nat) (l : list A) : list A :=
  skipn (List.length l - n) l.

(** The texts a sequence of calls of [speak] gets accepted, given the last
    accepted text and its time: a log without bound, kept for comparison
    with the queue. *)
Fixpoint accepted_log (last : string) (last_time : R)
    (calls : list (string * bool * R * R)) : list string :=
  match calls with
  | [] => []
  | (text, force, t_check, t_accept) :: rest =>
      if String.eqb text "" then accepted_log last last_time rest
      else if negb force && String.eqb text last
              && Rltb (t_check - last_time) 3.0
      then accepted_log last last_time rest
      else text :: accepted_log text t_accept rest
  end.


(* ================================================================== *)
(** ** Depth and 3D position *)

(** A two-dimensional numpy array of floats: its shape [(h, w)] and its
    values, read at row and column inside the shape. *)
Record Array2 := mkArray2 {
  a_h : nat;
  a_w : nat;
  a_at : Z -> Z -> R
}.

(** Where numpy looks for index [i] on an axis of length [n]: negative
    indices count from the end; [None] stands for [IndexError]. *)
Definition np_index (n : nat) (i : Z) : option Z :=
  if (0 <=? i)%Z && (i <? Z.of_nat n)%Z then Some i
  else if (- Z.of_nat n <=? i)%Z && (i <? 0)%Z then Some (i + Z.of_nat n)%Z
  else None.

(** [a[y, x]] *)
Definition a_get (a : Array2) (y x : Z) : option R :=
  match np_index (a_h a) y, np_index (a_w a) x with
  | Some y', Some x' => Some (a_at a y' x')
  | _, _ => None
  end.

(** The largest finite value of a Python float, and of numpy's [float32],
    the type of the boxes the detector of the main program gives. *)
Definition float_max : R := (2 - / 2 ^ 52) * 2 ^ 1023.

Definition float32_max : R := (2 - / 2 ^ 23) * 2 ^ 127.

(** The float that an operation on finite floats yields, from the exact
    value of the operation, [fmax] being the largest finite value of the
    float type: beyond the finite range the operation yields an infinity,
    without raising; [None] stands for the infinity. *)
Definition float_result (fmax : R) (x : R) : option R :=
  if Rle_dec (Rabs x) fmax then Some x else None.

(** [(a + b) / 2]: the sum may be infinite, and half an infinity is an
    infinity. *)
Definition half_sum (fmax : R) (a b : R) : option R :=
  option_map (fun s => s / 2) (float_result fmax (a + b)).

(** Truncation toward zero. *)
Definition truncate (x : R) : Z :=
  if Rle_dec 0 x then Int_part x else (- Int_part (- x))%Z.

(** [int(x)] on a float: truncation toward zero; [None] stands for the
    [OverflowError] that [int] raises on an infinity. *)
Definition py_int (x : option R) : option Z := option_map truncate x.

(** [np.clip(a, lo, hi)] *)
Definition np_clip (a lo hi : Z) : Z := Z.min (Z.max a lo) hi.

(** The dictionary [intrinsics]. *)
Record Intrinsics := mkIntrinsics { fx : R; fy : R; cx : R; cy : R }.

(** [camera_intrinsics] of the main program. *)
Definition camera_intrinsics : Intrinsics := mkIntrinsics 224 224 112 112.

(** The body of [compute_3d_position] on a box of floats whose largest
    finite value is [fmax]; [None] stands for an exception: the
    [OverflowError] of either [int], raised before the depth map is looked
    at, or the [IndexError] of the depth lookup. *)
Definition compute_3d_position_in (fmax : R) (bbox : Box) (depth_map : Array2)
    (intrinsics : Intrinsics) : option Vec3 :=
  match py_int (half_sum fmax (bx1 bbox) (bx2 bbox)) with
  | None => None
  | Some x_center =>
  match py_int (half_sum fmax (by1 bbox) (by2 bbox)) with
  | None => None
  | Some y_center =>
      let h := Z.of_nat (a_h depth_map) in
      let w := Z.of_nat (a_w depth_map) in
      let x_center := np_clip x_center 0 (w - 1) in
      let y_center := np_clip y_center 0 (h - 1) in
      match a_get depth_map y_center x_center with
      | None => None
      | Some depth =>
          let X := (IZR x_center - cx intrinsics) * depth / fx intrinsics in
          let Y := (IZR y_center - cy intrinsics) * depth / fy intrinsics in
          let Z := depth in
          Some (mkVec3 X Y Z)
      end
  end
  end.

(** [compute_3d_position] on a box of Python floats. *)
Definition compute_3d_position (bbox : Box) (depth_map : Array2)
    (intrinsics : Intrinsics) : option Vec3 :=
  compute_3d_position_in float_max bbox depth_map intrinsics.

(** Neither sum of two opposite coordinates of the box is beyond the finite
    floats. *)
Definition centre_finite (fmax : R) (bbox : Box) : Prop :=
  Rabs (bx1 bbox + bx2 bbox) <= fmax /\ Rabs (by1 bbox + by2 bbox) <= fmax.

(** The values of an array, row by row. *)
Definition a_values (a : Array2) : list R :=
  flat_map (fun y => map (fun x => a_at a (Z.of_nat y) (Z.of_nat x))
                         (seq 0 (a_w a)))
           (seq 0 (a_h a)).

(** [a.min()] and [a.max()]; [None] stands for the [ValueError] on an array
    without elements. *)
Definition list_min (l : list R) : option R :=
  match l with
  | [] => None
  | x :: r => Some (fold_left Rmin r x)
  end.

Definition list_max (l : list R) : option R :=
  match l with
  | [] => None
  | x :: r => Some (fold_left Rmax r x)
  end.

(** The end of [estimate_depth], from the array the network predicted:
    [depth = (depth - depth.min()) / (depth.max() - depth.min() + 1e-6)],
    then [depth = 0.5 + depth * 9.5]. *)
Definition scale_depth (prediction : Array2) : option Array2 :=
  match list_min (a_values prediction), list_max (a_values prediction) with
  | Some mn, Some mx =>
      Some (mkArray2 (a_h prediction) (a_w prediction)
              (fun y x =>
                 0.5 + (a_at prediction y x - mn) / (mx - mn + 1e-6) * 9.5))
  | _, _ => None
  end.

(** Row [y], column [x] lies inside the array. *)
Definition in_shape (a : Array2) (y x : Z) : Prop :=
  (0 <= y < Z.of_nat (a_h a))%Z /\ (0 <= x < Z.of_nat (a_w a))%Z.

(** A depth map of the frame size of the main program, 2 m everywhere. *)
Definition flat_depth : Array2 := mkArray2 224 224 (fun _ _ => 2).

(** A prediction of two values. *)
Definition two_pixel_prediction : Array2 :=
  mkArray2 1 2 (fun _ x => if (x =? 0)%Z then 3 else 7).


(** The score before the field-of-view factor is applied. *)
Definition unweighted_score (info : MapEntry) : R :=
  0.3 * IZR (table_get (e_class info) type_table 2)
  + 0.3 * (1 / (norm (e_position info) + 0.5))
  + 0.2 * (if Rgtb (norm (e_velocity info)) 0.01
           then Rmax 0 (- vz (e_velocity info)) else 0)
  + 0.2 * (if Rltb (norm (e_position info)) 2.0 then 1.0 else 0.5).


(* ================================================================== *)
(** ** Speech engine, consumer side *)

(** The engine with the fields the worker and [stop] use: the flag
    [running], the counter [phrases_spoken], and the names of the files in
    [cache_dir]. *)
Record EngineRun := mkRun {
  r_engine : IntelligentTTSEngine;
  r_running : bool;
  r_phrases_spoken : Z;
  r_cache : list string
}.

(** The engine as [__init__] leaves it. *)
Definition new_run : EngineRun := mkRun new_engine true 0 [].

(** [_cache_path], as a file name inside [cache_dir]; [md5] is the hex
    digest of [hashlib.md5]. *)
Definition cache_path (md5 : string -> string) (text : string) : string :=
  (md5 text ++ ".mp3")%string.

(** [_ensure_audio]: the cache afterwards, and the path returned together
    with whether [gTTS(...).save] was called; [None] in their place stands
    for the exception of [save].  [synth_ok] tells whether the request that
    [save] sends succeeds; [save] has opened the file for writing by then,
    so the file is in the cache whether the request succeeds or not. *)
Definition ensure_audio (md5 : string -> string) (synth_ok : string -> bool)
    (cache : list string) (text : string)
    : list string * option (string * bool) :=
  let path := cache_path md5 text in
  if existsb (String.eqb path) cache then (cache, Some (path, false))
  else if synth_ok text then (path :: cache, Some (path, true))
  else (path :: cache, None).

(** What one pass of the loop of [_worker_loop] did: the text taken,
    whether [gTTS(...).save] was called for it, and whether it was played
    to the end. *)
Record WorkerEvent := mkEvent {
  ev_text : string;
  ev_synthesized : bool;
  ev_played : bool
}.

(** One pass of [while self.running] in [_worker_loop]; [play_ok] tells
    whether [_play_path] succeeds.  The event is [None] when the loop has
    ended or the queue gave nothing within the timeout. *)
Definition worker_step (md5 : string -> string) (synth_ok play_ok : string -> bool)
    (s : EngineRun) : EngineRun * option WorkerEvent :=
  if negb (r_running s) then (s, None)
  else
    match q_get_nowait (phrase_q (r_engine s)) with
    | None => (s, None)
    | Some (text, q') =>
        let e' := mkEngine q' (last_narration (r_engine s))
                           (last_narration_time (r_engine s)) in
        match ensure_audio md5 synth_ok (r_cache s) text with
        | (cache', None) =>
            (mkRun e' true (r_phrases_spoken s) cache',
             Some (mkEvent text true false))
        | (cache', Some (path, synthesized)) =>
            if play_ok path
            then (mkRun e' true (r_phrases_spoken s + 1)%Z cache',
                  Some (mkEvent text synthesized true))
            else (mkRun e' true (r_phrases_spoken s) cache',
                  Some (mkEvent text synthesized false))
        end
    end.

(** [n] passes of the loop, with the events in order. *)
Fixpoint worker_run (md5 : string -> string) (synth_ok play_ok : string -> bool)
    (n : nat) (s : EngineRun) : EngineRun * list WorkerEvent :=
  match n with
  | O => (s, [])
  | S k =>
      let '(s1, ev) := worker_step md5 synth_ok play_ok s in
      let '(s2, evs) := worker_run md5 synth_ok play_ok k s1 in
      (s2, match ev with Some e => e :: evs | None => evs end)
  end.

(** The loop of [stop] that drains the queue. *)
Fixpoint drain (fuel : nat) (q : BoundedQueue) : BoundedQueue :=
  match fuel with
  | O => q
  | S k =>
      match q_get_nowait q with
      | None => q
      | Some (_, q') => drain k q'
      end
  end.

(** [stop]: the flag goes down, the queue is drained, and each cache file
    is removed unless [os.remove] fails on it ([remove_ok]). *)
Definition stop (remove_ok : string -> bool) (s : EngineRun) : EngineRun :=
  let q := phrase_q (r_engine s) in
  mkRun (mkEngine (drain (List.length (q_items q)) q)
                  (last_narration (r_engine s))
                  (last_narration_time (r_engine s)))
        false (r_phrases_spoken s)
        (filter (fun f => negb (remove_ok f)) (r_cache s)).

(** The producer calling [speak] on the running engine. *)
Definition run_speak (s : EngineRun) (calls : list (string * bool * R * R))
    : EngineRun :=
  mkRun (speak_all (r_engine s) calls) (r_running s) (r_phrases_spoken s)
        (r_cache s).


(** The files for which a run of the worker called [gTTS(...).save], in
    order. *)
Definition synthesized_files (md5 : string -> string) (evs : list WorkerEvent)
    : list string :=
  map (fun e => cache_path md5 (ev_text e)) (filter ev_synthesized evs).

(** How many texts a run of the worker played to the end. *)
Definition played_count (evs : list WorkerEvent) : Z :=
  Z.of_nat (List.length (filter ev_played evs)).

(** A digest for examples: the text itself. *)
Definition id_digest (text : string) : string := text.

(** An engine running with three texts queued, two of them alike. *)
Definition busy_run : EngineRun :=
  mkRun (mkEngine (mkQueue ["car ahead"; "dog ahead"; "car ahead"] 5)
                  "car ahead" 0)
        true 0 [].


(* ================================================================== *)
(** ** The main loop *)

(** What one turn of the main loop receives from outside: the array the
    depth network would predict for the frame (used only on the frames for
    which [estimate_depth] is called), the boxes and class names of the
    detector, and the clock readings of [update] and of [speak]. *)
Record FrameInput := mkFrameInput {
  in_prediction : Array2;
  in_boxes : list (Box * string);
  in_time_update : R;
  in_time_check : R;
  in_time_accept : R
}.

(** The variables of the main program that live across turns. *)
Record Pipeline := mkPipeline {
  p_tracker : SimpleTracker;
  p_mental_map : MentalMap3D;
  p_tts : IntelligentTTSEngine;
  p_frame_count : Z;
  p_depth_map : option Array2;
  p_last_narration_frame : Z
}.

(** The state before the first turn. *)
Definition initial_pipeline : Pipeline :=
  mkPipeline default_tracker default_mental_map new_engine 0 None 0.

Definition narration_interval : Z := 45.

(** The list [detections_3d], from the rows of the detector's [float32]
    array of boxes; [None] stands for an exception of
    [compute_3d_position]. *)
Fixpoint detections_3d (boxes : list (Box * string)) (depth_map : Array2)
    : option (list Detection) :=
  match boxes with
  | [] => Some []
  | (bbox, class_name) :: rest =>
      match compute_3d_position_in float32_max bbox depth_map
              camera_intrinsics with
      | None => None
      | Some pos =>
          match detections_3d rest depth_map with
          | None => None
          | Some dets => Some (mkDetection bbox class_name pos :: dets)
          end
      end
  end.

(** What a turn shows: the prioritized entries and, when one was made, the
    narration. *)
Record FrameOutput := mkFrameOutput {
  out_prioritized : list (Z * MapEntry);
  out_narration : option string
}.

(** One turn of [while True], the frame having been grabbed: from
    [frame_count += 1] to [last_narration_frame = frame_count].  The result
    is [None] when an exception ends the loop; the output is [None] on a
    turn that [continue]s for want of a depth map. *)
Definition frame_step (p : Pipeline) (inp : FrameInput)
    : option (Pipeline * option FrameOutput) :=
  let frame_count := (p_frame_count p + 1)%Z in
  let depth :=
    if (frame_count mod 3 =? 0)%Z
    then match scale_depth (in_prediction inp) with
         | Some d => Some (Some d)
         | None => None
         end
    else Some (p_depth_map p) in
  match depth with
  | None => None
  | Some None =>
      Some (mkPipeline (p_tracker p) (p_mental_map p) (p_tts p) frame_count
                       None (p_last_narration_frame p), None)
  | Some (Some depth_map) =>
      match detections_3d (in_boxes inp) depth_map with
      | None => None
      | Some dets =>
          let '(tracker, tracked_objects) :=
            assign_ids (p_tracker p) dets frame_count in
          let mental_map :=
            update (p_mental_map p) tracked_objects (in_time_update inp) in
          let prioritized := prioritize_objects (mm_map mental_map) 5 in
          if (narration_interval <=? frame_count - p_last_narration_frame p)%Z
          then
            let situation := analyze_situation (mm_map mental_map) in
            let narration := generate_contextual_narration situation in
            let tts := speak (p_tts p) narration false
                             (in_time_check inp) (in_time_accept inp) in
            Some (mkPipeline tracker mental_map tts frame_count
                             (Some depth_map) frame_count,
                  Some (mkFrameOutput prioritized (Some narration)))
          else
            Some (mkPipeline tracker mental_map (p_tts p) frame_count
                             (Some depth_map) (p_last_narration_frame p),
                  Some (mkFrameOutput prioritized None))
      end
  end.

(** Successive turns, with what each showed. *)
Fixpoint run_pipeline (p : Pipeline) (inputs : list FrameInput)
    : option (Pipeline * list (option FrameOutput)) :=
  match inputs with
  | [] => Some (p, [])
  | inp :: rest =>
      match frame_step p inp with
      | None => None
      | Some (p1, out) =>
          match run_pipeline p1 rest with
          | None => None
          | Some (p2, outs) => Some (p2, out :: outs)
          end
      end
  end.

(** The frames, counted from 1, on which a narration was made. *)
Fixpoint narrated_frames (first : Z) (outs : list (option FrameOutput))
    : list Z :=
  match outs with
  | [] => []
  | out :: rest =>
      match out with
      | Some (mkFrameOutput _ (Some _)) => first :: narrated_frames (first + 1) rest
      | _ => narrated_frames (first + 1) rest
      end
  end.

(** What holds of the pipeline between turns. *)
Definition pipeline_ok (p : Pipeline) : Prop :=
  tracker_ok (p_tracker p)
  /\ 0 <= iou_threshold (p_tracker p)
  /\ NoDup (PyDict.keys (mm_map (p_mental_map p)))
  /\ 0 <= keep_seconds (p_mental_map p)
  /\ engine_ok (p_tts p)
  /\ (forall i, In i (PyDict.keys (mm_map (p_mental_map p))) ->
                (i < next_id (p_tracker p))%Z).

(** A frame input with a prediction of the frame size, the same
    everywhere, and no detection. *)
Definition quiet_input : FrameInput :=
  mkFrameInput (mkArray2 224 224 (fun _ _ => 1)) [] 0 0 0.

(** A frame input with one box, partly outside the frame. *)
Definition car_input (now : R) : FrameInput :=
  mkFrameInput (mkArray2 224 224 (fun _ _ => 1))
               [(mkBox (-5) (-5) 900 900, "car")] now now now.

(* ================================================================== *)
(** * Properties *)

(** ** Dictionaries *)

Module PyDictFacts.
Import PyDict.

Section DictFacts.
Variable V : Type.
Implicit Types d : PyDict.t V.

Lemma get_set_same k v d : get k (set k v d) = Some v.
Proof.
  induction d as [|[k' v'] r IH]; simpl.
  - now rewrite Z.eqb_refl.
  - destruct (Z.eqb k k') eqn:E; simpl.
    + now rewrite Z.eqb_refl.
    + now rewrite E.
Qed.

Lemma get_set_other k k' v d : k <> k' -> get k' (set k v d) = get k' d.
Proof.
  intros Hne. induction d as [|[k0 v0] r IH]; simpl.
  - destruct (Z.eqb k' k) eqn:E; [apply Z.eqb_eq in E; congruence | reflexivity].
  - destruct (Z.eqb k k0) eqn:E; simpl.
    + apply Z.eqb_eq in E; subst k0.
      destruct (Z.eqb k' k) eqn:E'; [apply Z.eqb_eq in E'; congruence | reflexivity].
    + destruct (Z.eqb k' k0); [reflexivity | exact IH].
Qed.

Lemma get_None_iff k d : get k d = None <-> ~ In k (keys d).
Proof.
  induction d as [|[k' v'] r IH]; simpl.
  - tauto.
  - destruct (Z.eqb k k') eqn:E.
    + apply Z.eqb_eq in E; subst. split; [discriminate | tauto].
    + apply Z.eqb_neq in E. rewrite IH. split; intros H; [intros [H1|H1] |]; auto.
Qed.

Lemma get_Some_in k v d : get k d = Some v -> In (k, v) d.
Proof.
  induction d as [|[k' v'] r IH]; simpl; [discriminate|].
  destruct (Z.eqb k k') eqn:E.
  - apply Z.eqb_eq in E; subst. intros [= ->]. now left.
  - intros H; right; auto.
Qed.

Lemma in_get_Some k v d : NoDup (keys d) -> In (k, v) d -> get k d = Some v.
Proof.
  induction d as [|[k' v'] r IH]; simpl; [tauto|].
  intros Hnd [H|H].
  - injection H as -> ->. now rewrite Z.eqb_refl.
  - inversion Hnd as [|? ? Hni Hnd']; subst.
    destruct (Z.eqb k k') eqn:E.
    + apply Z.eqb_eq in E; subst. exfalso; apply Hni.
      change k' with (fst (k', v)). now apply in_map.
    + auto.
Qed.

Lemma contains_true_iff k d : contains k d = true <-> In k (keys d).
Proof.
  unfold contains. destruct (get k d) eqn:E.
  - split; [intros _ | reflexivity].
    apply get_Some_in in E. change k with (fst (k, v)). now apply in_map.
  - apply get_None_iff in E. split; [discriminate | tauto].
Qed.

Lemma set_present k v d : In k (keys d) -> keys (set k v d) = keys d.
Proof.
  induction d as [|[k' v'] r IH]; simpl; [tauto|].
  destruct (Z.eqb k k') eqn:E; simpl.
  - apply Z.eqb_eq in E; now subst.
  - apply Z.eqb_neq in E. intros [H|H]; [congruence|]. now rewrite IH.
Qed.

Lemma set_absent k v d : ~ In k (keys d) -> set k v d = d ++ [(k, v)].
Proof.
  induction d as [|[k' v'] r IH]; simpl; [reflexivity|].
  intros H. destruct (Z.eqb k k') eqn:E.
  - apply Z.eqb_eq in E; subst. tauto.
  - rewrite IH; tauto.
Qed.

Lemma keys_set_in k k' v d : In k' (keys (set k v d)) <-> k' = k \/ In k' (keys d).
Proof.
  induction d as [|[k0 v0] r IH]; simpl.
  - intuition.
  - destruct (Z.eqb k k0) eqn:E; simpl.
    + apply Z.eqb_eq in E; subst. intuition.
    + rewrite IH. intuition.
Qed.

Lemma keys_set_NoDup k v d : NoDup (keys d) -> NoDup (keys (set k v d)).
Proof.
  induction d as [|[k0 v0] r IH]; simpl; intros Hnd.
  - constructor; [tauto | constructor].
  - inversion Hnd as [|? ? Hni Hnd']; subst.
    destruct (Z.eqb k k0) eqn:E; simpl.
    + apply Z.eqb_eq in E; subst. now constructor.
    + apply Z.eqb_neq in E. constructor; [|auto].
      rewrite keys_set_in. intros [H|H]; [congruence | tauto].
Qed.

Lemma fold_set_fresh (items : list (Z * V)) : forall acc : PyDict.t V,
  NoDup (keys acc ++ keys items) ->
  fold_left (fun d kv => set (fst kv) (snd kv) d) items acc = acc ++ items.
Proof.
  induction items as [|[k v] r IH]; intros acc Hnd; simpl.
  - now rewrite app_nil_r.
  - simpl in Hnd. rewrite set_absent.
    + rewrite IH.
      * now rewrite <- app_assoc.
      * unfold keys. rewrite map_app. simpl. now rewrite <- app_assoc.
    + apply NoDup_remove_2 in Hnd. intros H; apply Hnd.
      apply in_or_app; now left.
Qed.

(** A comprehension over items with distinct keys is those items, in order. *)
Lemma of_items_NoDup (items : list (Z * V)) :
  NoDup (keys items) -> of_items items = items.
Proof. intros H. unfold of_items. now rewrite fold_set_fresh. Qed.

End DictFacts.

End PyDictFacts.
(* ------------------------------------------------------------------ *)
(** ** The overlap metric *)

Ltac minmax :=
  unfold Rmax, Rmin in *; repeat (destruct (Rle_dec _ _) in * ); try lra.

Lemma iou_eq (a b : Box) :
  iou a b = if Rle_dec (union_area a b) 0 then 0
            else inter_area a b / (union_area a b + 1e-6).
Proof. reflexivity. Qed.

Lemma inter_area_sym (a b : Box) : inter_area a b = inter_area b a.
Proof.
  unfold inter_area.
  now rewrite (Rmin_comm (bx2 a)), (Rmin_comm (by2 a)),
              (Rmax_comm (bx1 a)), (Rmax_comm (by1 a)).
Qed.

Lemma inter_area_self (a : Box) : inter_area a a = box_area a.
Proof.
  unfold inter_area, box_area.
  assert (Hmin : forall x, Rmin x x = x) by (intros; minmax).
  assert (Hmax : forall x, Rmax x x = x) by (intros; minmax).
  now rewrite !Hmin, !Hmax.
Qed.

Lemma Rmax0_nonneg (x : R) : 0 <= Rmax 0 x.
Proof. apply Rmax_l. Qed.

Lemma box_area_nonneg (a : Box) : 0 <= box_area a.
Proof. unfold box_area. apply Rmult_le_pos; apply Rmax0_nonneg. Qed.

Lemma inter_area_nonneg (a b : Box) : 0 <= inter_area a b.
Proof. unfold inter_area. apply Rmult_le_pos; apply Rmax0_nonneg. Qed.

Lemma inter_area_disjoint (a b : Box) :
  non_overlapping a b -> inter_area a b = 0.
Proof.
  unfold non_overlapping, inter_area. intros H.
  assert (Hz : Rmax 0 (Rmin (bx2 a) (bx2 b) - Rmax (bx1 a) (bx1 b)) = 0
            \/ Rmax 0 (Rmin (by2 a) (by2 b) - Rmax (by1 a) (by1 b)) = 0).
  { destruct H as [H | [H | [H | H]]]; [left | left | right | right]; minmax. }
  destruct Hz as [-> | ->]; lra.
Qed.

(** The intersection is no larger than either box. *)
Lemma inter_area_le_l (a b : Box) : inter_area a b <= box_area a.
Proof.
  unfold inter_area, box_area.
  apply Rmult_le_compat; try apply Rmax0_nonneg; minmax.
Qed.

Lemma union_area_nonneg (a b : Box) : 0 <= union_area a b.
Proof.
  unfold union_area.
  pose proof (inter_area_le_l a b). pose proof (box_area_nonneg b). lra.
Qed.

Lemma iou_sym (a b : Box) : iou a b = iou b a.
Proof.
  rewrite !iou_eq. unfold union_area.
  rewrite (inter_area_sym b a), (Rplus_comm (box_area b)). reflexivity.
Qed.

Lemma iou_self (a : Box) :
  0 < box_area a -> iou a a = box_area a / (box_area a + 1e-6).
Proof.
  intros Hpos. rewrite iou_eq. unfold union_area. rewrite inter_area_self.
  replace (box_area a + box_area a - box_area a) with (box_area a) by lra.
  destruct (Rle_dec (box_area a) 0); [lra | reflexivity].
Qed.

Lemma iou_nonneg (a b : Box) : 0 <= iou a b.
Proof.
  rewrite iou_eq. destruct (Rle_dec _ _); [lra|].
  apply Rmult_le_pos; [apply inter_area_nonneg|].
  apply Rlt_le, Rinv_0_lt_compat. lra.
Qed.

(** C2 (as amended).  The overlap metric is symmetric; on a box of area at
    least 1, [iou a a] is within [1e-6] of 1 and not above 1; two boxes that
    do not overlap have overlap 0; two boxes whose union has zero area have
    overlap 0. *)
Theorem iou_properties (a b : Box) :
  iou a b = iou b a
  /\ (1 <= box_area a -> 1 - 1e-6 < iou a a <= 1)
  /\ (non_overlapping a b -> iou a b = 0)
  /\ (union_area a b = 0 -> iou a b = 0).
Proof.
  split; [apply iou_sym|]. split; [|split].
  - intros H1. assert (Hpos : 0 < box_area a) by lra.
    rewrite (iou_self Hpos).
    set (s := box_area a) in *.
    assert (Hd : 0 < s + 1e-6) by lra.
    split.
    + apply (Rmult_lt_reg_r (s + 1e-6)); [exact Hd|].
      unfold Rdiv. rewrite Rmult_assoc, Rinv_l by lra. nra.
    + apply (Rmult_le_reg_r (s + 1e-6)); [exact Hd|].
      unfold Rdiv. rewrite Rmult_assoc, Rinv_l by lra. lra.
  - intros Hd. rewrite iou_eq, (inter_area_disjoint Hd).
    destruct (Rle_dec _ _); [reflexivity | unfold Rdiv; lra].
  - intros Hz. rewrite iou_eq, Hz.
    destruct (Rle_dec 0 0); [reflexivity | lra].
Qed.

Lemma unit_box_area : box_area unit_box = 1.
Proof. unfold box_area, unit_box; simpl. minmax. Qed.

Lemma flat_box_union : union_area flat_box flat_box = 0.
Proof.
  unfold union_area. rewrite inter_area_self.
  unfold box_area, flat_box; simpl. minmax.
Qed.

Lemma iou_properties_witness :
  iou unit_box far_box = iou far_box unit_box
  /\ 1 - 1e-6 < iou unit_box unit_box <= 1
  /\ iou unit_box far_box = 0
  /\ iou flat_box flat_box = 0.
Proof.
  assert (Hone : 1 <= box_area unit_box) by (rewrite unit_box_area; lra).
  assert (Hsep : non_overlapping unit_box far_box)
    by (unfold non_overlapping, unit_box, far_box; simpl; lra).
  destruct (iou_properties unit_box far_box) as (Hs & Hself & Hdis & _).
  destruct (iou_properties flat_box flat_box) as (_ & _ & _ & Hz).
  split; [exact Hs|]. split; [|split].
  - exact (Hself Hone).
  - exact (Hdis Hsep).
  - exact (Hz flat_box_union).
Defined.

(** C2 as stated fails: a box of positive area whose overlap with itself is
    one half. *)
Lemma iou_self_not_near_one :
  0 < box_area tiny_box /\ iou tiny_box tiny_box = 1 / 2.
Proof.
  assert (Ha : box_area tiny_box = 1e-6).
  { unfold box_area, tiny_box; simpl. minmax. }
  split; [rewrite Ha; lra|].
  rewrite iou_self by (rewrite Ha; lra). rewrite Ha. lra.
Qed.

(* ------------------------------------------------------------------ *)
(** ** The tracker: matching one detection *)

Lemma Rltb_true (x y : R) : Rltb x y = true <-> x < y.
Proof. unfold Rltb. destruct (Rlt_dec x y); split; auto; discriminate. Qed.

Lemma Rltb_false (x y : R) : Rltb x y = false <-> ~ x < y.
Proof. unfold Rltb. destruct (Rlt_dec x y); split; auto; try discriminate; tauto. Qed.

Lemma Rleb_true (x y : R) : Rleb x y = true <-> x <= y.
Proof. unfold Rleb. destruct (Rle_dec x y); split; auto; discriminate. Qed.

Lemma Rgtb_true (x y : R) : Rgtb x y = true <-> x > y.
Proof. unfold Rgtb. destruct (Rgt_dec x y); split; auto; discriminate. Qed.

Lemma Rgtb_false (x y : R) : Rgtb x y = false <-> ~ x > y.
Proof. unfold Rgtb. destruct (Rgt_dec x y); split; auto; try discriminate; tauto. Qed.

Lemma mem_true_iff (k : Z) (s : list Z) : mem k s = true <-> In k s.
Proof.
  unfold mem. rewrite existsb_exists. split.
  - intros (x & Hx & E). apply Z.eqb_eq in E. now subst.
  - intros H. exists k. split; [exact H | apply Z.eqb_refl].
Qed.

Lemma mem_false_iff (k : Z) (s : list Z) : mem k s = false <-> ~ In k s.
Proof.
  rewrite <- mem_true_iff. destruct (mem k s); split; auto; try discriminate.
  intros H; exfalso; now apply H.
Qed.

Section Matching.
Variables (thr : R) (used : list Z) (det_bbox : Box).

(** What the inner loop maintains, from any starting pair. *)
Lemma match_fold (boxes : PyDict.t Box) : forall acc : option Z * R,
  let r := fold_left (match_step thr used det_bbox) boxes acc in
  snd acc <= snd r
  /\ (forall j bj, In (j, bj) boxes -> mem j used = false ->
        iou det_bbox bj > thr -> iou det_bbox bj <= snd r)
  /\ (r = acc
      \/ exists i b, fst r = Some i /\ In (i, b) boxes /\ mem i used = false
                     /\ iou det_bbox b = snd r /\ snd r > thr).
Proof.
  induction boxes as [|[k bk] rest IH]; intros acc; simpl.
  - split; [lra|]. split; [tauto | now left].
  - specialize (IH (match_step thr used det_bbox acc (k, bk))).
    simpl in IH. destruct IH as (Hle & Hall & Hres).
    set (r := fold_left _ rest _) in *.
    unfold match_step in Hle, Hall, Hres, r; simpl in Hle, Hall, Hres, r.
    destruct (mem k used) eqn:Hk.
    + split; [exact Hle|]. split.
      * intros j bj [E|Hin] Hj Hgt; [injection E as -> ->; congruence | eauto].
      * destruct Hres as [Hres | (i & b & H)]; [now left | right].
        destruct H as (H1 & H2 & H3). exists i, b. tauto.
    + destruct (Rgtb (iou det_bbox bk) thr) eqn:Hthr; simpl in *.
      * destruct (Rgtb (iou det_bbox bk) (snd acc)) eqn:Hbest; simpl in *.
        -- apply Rgtb_true in Hthr, Hbest.
           split; [lra|]. split.
           ++ intros j bj [E|Hin] Hj Hgt; [injection E as -> ->; lra | eauto].
           ++ right. destruct Hres as [Hres | (i & b & H)].
              ** exists k, bk. rewrite Hres; simpl. tauto.
              ** destruct H as (H1 & H2 & H3). exists i, b. tauto.
        -- apply Rgtb_false in Hbest.
           split; [exact Hle|]. split.
           ++ intros j bj [E|Hin] Hj Hgt; [injection E as -> ->; lra | eauto].
           ++ destruct Hres as [Hres | (i & b & H)]; [now left | right].
              destruct H as (H1 & H2 & H3). exists i, b. tauto.
      * apply Rgtb_false in Hthr.
        split; [exact Hle|]. split.
        -- intros j bj [E|Hin] Hj Hgt; [injection E as -> ->; lra | eauto].
        -- destruct Hres as [Hres | (i & b & H)]; [now left | right].
           destruct H as (H1 & H2 & H3). exists i, b. tauto.
Qed.

(** A match is an unclaimed track over the threshold whose overlap no other
    unclaimed track exceeds. *)
Lemma find_match_Some (boxes : PyDict.t Box) (i : Z) :
  fst (find_match thr used det_bbox boxes) = Some i ->
  exists b, In (i, b) boxes /\ mem i used = false
            /\ iou det_bbox b > thr
            /\ forall j bj, In (j, bj) boxes -> mem j used = false ->
                            iou det_bbox bj <= iou det_bbox b.
Proof.
  intros Hi. unfold find_match in *.
  destruct (match_fold boxes (None, 0)) as (_ & Hall & Hres).
  simpl in Hall, Hres. set (r := fold_left _ boxes _) in *.
  destruct Hres as [Hres | (i' & b & H1 & H2 & H3 & H4 & H5)].
  - rewrite Hres in Hi. discriminate.
  - assert (i' = i) by congruence. subst i'.
    exists b. repeat split; auto; [lra|].
    intros j bj Hin Hj. rewrite H4.
    destruct (Rgt_dec (iou det_bbox bj) thr); [eauto | lra].
Qed.

(** No match means no unclaimed track is over the threshold. *)
Lemma find_match_None (boxes : PyDict.t Box) :
  0 <= thr ->
  fst (find_match thr used det_bbox boxes) = None ->
  forall j bj, In (j, bj) boxes -> mem j used = false ->
               ~ iou det_bbox bj > thr.
Proof.
  intros Hthr Hn j bj Hin Hj Hgt. unfold find_match in *.
  destruct (match_fold boxes (None, 0)) as (_ & Hall & Hres).
  simpl in Hall, Hres. set (r := fold_left _ boxes _) in *.
  destruct Hres as [Hres | (i' & b & H1 & _)]; [|congruence].
  specialize (Hall j bj Hin Hj Hgt). rewrite Hres in Hall. simpl in Hall. lra.
Qed.

End Matching.

(* ------------------------------------------------------------------ *)
(** ** The tracker: one detection, one step of the loop *)

Lemma keys_set_parallel (A B : Type) (k : Z) (a : A) (b : B)
    (da : PyDict.t A) (db : PyDict.t B) :
  PyDict.keys da = PyDict.keys db ->
  PyDict.keys (PyDict.set k a da) = PyDict.keys (PyDict.set k b db).
Proof.
  intros E. destruct (in_dec Z.eq_dec k (PyDict.keys da)) as [Hin|Hni].
  - rewrite !PyDictFacts.set_present; congruence.
  - rewrite !PyDictFacts.set_absent by congruence.
    unfold PyDict.keys in *. rewrite !map_app. simpl. congruence.
Qed.

Lemma tracked_iff_boxes (self : SimpleTracker) (i : Z) :
  tracker_ok self -> (tracked self i <-> In i (PyDict.keys (boxes_2d self))).
Proof.
  intros [_ Hp Ht Ha _]. unfold tracked. rewrite Hp, Ht, Ha. tauto.
Qed.

Lemma new_tracker_ok (thr : R) (m : Z) : tracker_ok (new_tracker thr m).
Proof. constructor; simpl; auto; [constructor | tauto]. Qed.

Lemma one_track_ok (m : Z) : tracker_ok (one_track m).
Proof.
  constructor; simpl; auto.
  - constructor; [tauto | constructor].
  - intros i [<- | []]. lia.
Qed.

Section Step.
Variables (f : Z) (self : SimpleTracker) (used : list Z)
          (assigned : list (Z * TrackedDetection)) (det : Detection).
Hypothesis Hok : tracker_ok self.
Hypothesis Hthr : 0 <= iou_threshold self.

Lemma assign_one_step :
  exists id vel self',
    assign_one f (self, used, assigned) det
      = (self', id :: used, assigned ++ [(id, mkTracked det vel)])
    /\ tracker_ok self'
    /\ stored self' id det f
    /\ (forall j, j <> id -> same_track self' self j)
    /\ (forall j, In j (PyDict.keys (boxes_2d self'))
                  <-> j = id \/ In j (PyDict.keys (boxes_2d self)))
    /\ (next_id self <= next_id self')%Z
    /\ iou_threshold self' = iou_threshold self
    /\ max_age self' = max_age self
    /\ ((selects self used det id
         /\ next_id self' = next_id self
         /\ exists p t,
              PyDict.get id (positions_3d self) = Some p
              /\ PyDict.get id (timestamps self) = Some t
              /\ vel = vdiv (vsub (d_position det) p) (IZR (Z.max 1 (f - t))))
        \/ (none_qualifies self used det
            /\ id = next_id self
            /\ ~ tracked self id
            /\ next_id self' = (id + 1)%Z
            /\ vel = vzero)).
Proof.
  destruct Hok as [Hnd Hp Ht Ha Hb].
  unfold assign_one. cbv zeta.
  destruct (fst (find_match (iou_threshold self) used (d_bbox det) (boxes_2d self)))
    as [i|] eqn:Hm.
  - (* an existing track is claimed *)
    destruct (find_match_Some _ _ _ _ Hm) as (b & Hin & Hu & Hgt & Hmax).
    assert (Hk : In i (PyDict.keys (boxes_2d self))).
    { change i with (fst (i, b)). now apply in_map. }
    destruct (PyDict.get i (positions_3d self)) as [p|] eqn:Ep.
    2:{ apply PyDictFacts.get_None_iff in Ep. rewrite Hp in Ep. tauto. }
    destruct (PyDict.get i (timestamps self)) as [t|] eqn:Et.
    2:{ apply PyDictFacts.get_None_iff in Et. rewrite Ht in Et. tauto. }
    assert (Hdt : (0 <? Z.max (f - t) 1)%Z = true) by (apply Z.ltb_lt; lia).
    rewrite Hdt.
    eexists i, _, _. split; [reflexivity|]. simpl.
    split; [|split; [|split; [|split; [|split; [|split; [|split]]]]]].
    + constructor; simpl.
      * now apply PyDictFacts.keys_set_NoDup.
      * now apply keys_set_parallel.
      * now apply keys_set_parallel.
      * now apply keys_set_parallel.
      * intros j Hj. apply PyDictFacts.keys_set_in in Hj.
        destruct Hj as [-> | Hj]; auto.
    + unfold stored; simpl. now rewrite !PyDictFacts.get_set_same.
    + intros j Hj. unfold same_track; simpl.
      rewrite !PyDictFacts.get_set_other by congruence. tauto.
    + intros j. apply PyDictFacts.keys_set_in.
    + lia.
    + reflexivity.
    + reflexivity.
    + left. split; [|split; [reflexivity|]].
      * exists b. split; [now apply PyDictFacts.in_get_Some|].
        split; [now apply mem_false_iff|]. split; [exact Hgt|].
        intros j bj Hj Hju. apply (Hmax j bj).
        -- now apply PyDictFacts.get_Some_in.
        -- now apply mem_false_iff.
      * exists p, t. rewrite (Z.max_comm 1). auto.
  - (* a new id is minted *)
    assert (Hfresh : ~ In (next_id self) (PyDict.keys (boxes_2d self))).
    { intros H. apply Hb in H. lia. }
    destruct (PyDict.get (next_id self) (positions_3d self)) as [p|] eqn:Ep.
    1:{ exfalso. apply Hfresh. rewrite <- Hp.
        apply PyDictFacts.contains_true_iff. unfold PyDict.contains.
        now rewrite Ep. }
    eexists (next_id self), _, _. split; [reflexivity|]. simpl.
    split; [|split; [|split; [|split; [|split; [|split; [|split]]]]]].
    + constructor; simpl.
      * now apply PyDictFacts.keys_set_NoDup.
      * now apply keys_set_parallel.
      * now apply keys_set_parallel.
      * now apply keys_set_parallel.
      * intros j Hj. apply PyDictFacts.keys_set_in in Hj.
        destruct Hj as [-> | Hj]; [lia | apply Hb in Hj; lia].
    + unfold stored; simpl. now rewrite !PyDictFacts.get_set_same.
    + intros j Hj. unfold same_track; simpl.
      rewrite !PyDictFacts.get_set_other by congruence. tauto.
    + intros j. apply PyDictFacts.keys_set_in.
    + lia.
    + reflexivity.
    + reflexivity.
    + right. split; [|split; [reflexivity|split; [|split; reflexivity]]].
      * intros j bj Hj Hju.
        apply (find_match_None _ _ _ Hthr Hm j bj).
        -- now apply PyDictFacts.get_Some_in.
        -- now apply mem_false_iff.
      * unfold tracked. rewrite Hp, Ht, Ha. tauto.
Qed.

End Step.

(* ------------------------------------------------------------------ *)
(** ** The tracker: the loop over the detections of one frame *)

Lemma same_track_refl (s : SimpleTracker) (j : Z) : same_track s s j.
Proof. unfold same_track; tauto. Qed.

Lemma same_track_trans (s1 s2 s3 : SimpleTracker) (j : Z) :
  same_track s1 s2 j -> same_track s2 s3 j -> same_track s1 s3 j.
Proof.
  unfold same_track. intros (A1 & A2 & A3 & A4) (B1 & B2 & B3 & B4).
  repeat split; congruence.
Qed.

Lemma loop_state_snoc (f : Z) (self : SimpleTracker) (pre : list Detection)
    (det : Detection) :
  loop_state f self (pre ++ [det]) = assign_one f (loop_state f self pre) det.
Proof. unfold loop_state. now rewrite fold_left_app. Qed.

Lemma loop_state_inv (f : Z) (self0 : SimpleTracker) :
  tracker_ok self0 -> 0 <= iou_threshold self0 ->
  forall pre, loop_inv self0 pre (loop_state f self0 pre).
Proof.
  intros Hok0 Hthr0 pre. induction pre as [|det pre IH] using rev_ind.
  - unfold loop_inv, loop_state; simpl.
    split; [exact Hok0|]. split; [reflexivity|]. split; [reflexivity|].
    split; [intros; apply same_track_refl|]. split; [tauto|].
    split; [tauto|]. split; [lia|]. split; reflexivity.
  - rewrite loop_state_snoc.
    destruct (loop_state f self0 pre) as [[slf used] assigned].
    unfold loop_inv in IH; simpl in IH.
    destruct IH as (Hok & Hused & Hdets & Hsame & Hzero & Hkeys & Hnext & Ht & Hm).
    assert (Hthr : 0 <= iou_threshold slf) by (rewrite Ht; exact Hthr0).
    destruct (assign_one_step f used assigned det Hok Hthr)
      as (id & vel & slf' & Heq & Hok' & Hst & Hoth & Hk' & Hn' & Ht' & Hm' & _).
    rewrite Heq. unfold loop_inv; simpl.
    split; [exact Hok'|]. split.
    { rewrite map_app, rev_app_distr. simpl. now rewrite Hused. }
    split.
    { rewrite map_app. simpl. now rewrite Hdets. }
    split.
    { intros j Hj. apply same_track_trans with slf.
      - apply Hoth. intros ->. apply Hj. now left.
      - apply Hsame. intros H. apply Hj. now right. }
    split.
    { intros j Hj. destruct (Z.eq_dec j id) as [-> | Hne].
      - apply Hst.
      - destruct Hj as [Hj | Hj]; [congruence|].
        destruct (Hoth j Hne) as (_ & _ & _ & Ea). rewrite Ea. now apply Hzero. }
    split.
    { intros j. rewrite Hk', Hkeys. intuition. }
    split; [lia|]. split; congruence.
Qed.


Lemma assign_ids_out (self : SimpleTracker) (dets : list Detection) (f : Z) :
  snd (assign_ids self dets f) = snd (loop_state f self dets).
Proof.
  unfold assign_ids, loop_state.
  destruct (fold_left _ _ _) as [[s u] a]. reflexivity.
Qed.


Lemma iou_moved_sample :
  iou (d_bbox moved_detection) (d_bbox sample_detection) > 0.3.
Proof.
  assert (Hi : inter_area (d_bbox moved_detection) (d_bbox sample_detection) = 1444).
  { unfold inter_area; simpl. minmax. }
  assert (Hu : union_area (d_bbox moved_detection) (d_bbox sample_detection) = 1756).
  { unfold union_area. rewrite Hi. unfold box_area; simpl. minmax. }
  rewrite iou_eq, Hu, Hi. destruct (Rle_dec 1756 0); lra.
Qed.

(** In the first frame two detections get the ids 0 and 1, with zero
    velocity. *)
Example first_frame_ids :
  snd (assign_ids default_tracker [sample_detection; other_detection] 1)
  = [ (0%Z, mkTracked sample_detection vzero);
      (1%Z, mkTracked other_detection vzero) ].
Proof. reflexivity. Qed.

(* ------------------------------------------------------------------ *)
(** ** The tracker: ageing and purging *)

Lemma mem_cons (i k : Z) (r : list Z) : mem i (k :: r) = Z.eqb k i || mem i r.
Proof. unfold mem. simpl. now rewrite (Z.eqb_sym i k). Qed.

(** The ageing loop leaves the keys alone and adds one to the age of every
    listed id that is not in [used]. *)
Lemma age_fold (used : list Z) (ks : list Z) : forall acc : PyDict.t Z,
  NoDup ks ->
  let r := fold_left
    (fun acc obj_id =>
       if mem obj_id used then acc
       else match PyDict.get obj_id acc with
            | Some n => PyDict.set obj_id (n + 1)%Z acc
            | None => acc
            end) ks acc in
  PyDict.keys r = PyDict.keys acc
  /\ forall i, PyDict.get i r
               = match PyDict.get i acc with
                 | Some n => Some (if mem i ks && negb (mem i used)
                                   then (n + 1)%Z else n)
                 | None => None
                 end.
Proof.
  induction ks as [|k r IH]; intros acc Hnd.
  - simpl. split; [reflexivity|]. intros i. now destruct (PyDict.get i acc).
  - cbn beta iota zeta delta [fold_left].
    inversion Hnd as [|? ? Hni Hnd']; subst.
    set (acc' := if mem k used then acc
                 else match PyDict.get k acc with
                      | Some n => PyDict.set k (n + 1)%Z acc
                      | None => acc
                      end).
    destruct (IH acc' Hnd') as (Hk & Hg). cbv zeta in Hk, Hg.
    assert (Hacc' : PyDict.keys acc' = PyDict.keys acc
                    /\ forall i, PyDict.get i acc'
                         = match PyDict.get i acc with
                           | Some n => Some (if Z.eqb k i && negb (mem i used)
                                             then (n + 1)%Z else n)
                           | None => None
                           end).
    { subst acc'. destruct (mem k used) eqn:Hu.
      - split; [reflexivity|]. intros i.
        destruct (Z.eqb k i) eqn:E.
        + apply Z.eqb_eq in E; subst i. rewrite Hu. simpl.
          now destruct (PyDict.get k acc).
        + simpl. now destruct (PyDict.get i acc).
      - destruct (PyDict.get k acc) as [n|] eqn:Eg.
        + split.
          * apply PyDictFacts.set_present.
            apply PyDictFacts.contains_true_iff. unfold PyDict.contains.
            now rewrite Eg.
          * intros i. destruct (Z.eqb k i) eqn:E.
            -- apply Z.eqb_eq in E; subst i.
               now rewrite PyDictFacts.get_set_same, Eg, Hu.
            -- apply Z.eqb_neq in E.
               rewrite PyDictFacts.get_set_other by exact E. simpl.
               now destruct (PyDict.get i acc).
        + split; [reflexivity|]. intros i. destruct (Z.eqb k i) eqn:E.
          * apply Z.eqb_eq in E; subst i. now rewrite Eg.
          * simpl. now destruct (PyDict.get i acc). }
    destruct Hacc' as (Hk' & Hg').
    split; [congruence|].
    intros i. rewrite Hg, Hg', mem_cons.
    destruct (PyDict.get i acc) as [n|]; [|reflexivity].
    destruct (Z.eqb k i) eqn:E; simpl.
    + apply Z.eqb_eq in E; subst i.
      assert (Hr : mem k r = false) by now apply mem_false_iff.
      rewrite Hr. simpl. reflexivity.
    + reflexivity.
Qed.

Lemma age_unclaimed_keys (used : list Z) (a : PyDict.t Z) :
  NoDup (PyDict.keys a) ->
  PyDict.keys (age_unclaimed used a) = PyDict.keys a.
Proof. intros H. apply (age_fold used a H). Qed.

Lemma age_unclaimed_get (used : list Z) (a : PyDict.t Z) (i : Z) :
  NoDup (PyDict.keys a) ->
  PyDict.get i (age_unclaimed used a)
  = match PyDict.get i a with
    | Some n => Some (if mem i used then n else (n + 1)%Z)
    | None => None
    end.
Proof.
  intros H. destruct (age_fold used a H) as (_ & Hg).
  unfold age_unclaimed. rewrite Hg.
  destruct (PyDict.get i a) as [n|] eqn:E; [|reflexivity].
  assert (Hin : mem i (PyDict.keys a) = true).
  { apply mem_true_iff, PyDictFacts.contains_true_iff.
    unfold PyDict.contains. now rewrite E. }
  rewrite Hin. simpl. now destruct (mem i used).
Qed.

Section Restrict.
Variable V : Type.
Variable d : PyDict.t V.

Lemma pick_get (active : list Z) (i : Z) :
  PyDict.get i (flat_map (pick d) active)
  = if mem i active then PyDict.get i d else None.
Proof.
  induction active as [|k r IH]; [reflexivity|].
  rewrite mem_cons. cbn [flat_map]. unfold pick at 1.
  destruct (PyDict.get k d) as [v|] eqn:E; cbn [app PyDict.get].
  - rewrite (Z.eqb_sym i k). destruct (Z.eqb k i) eqn:Eki; cbn [orb].
    + apply Z.eqb_eq in Eki; subst. now rewrite E.
    + exact IH.
  - destruct (Z.eqb k i) eqn:Eki; cbn [orb].
    + apply Z.eqb_eq in Eki; subst. rewrite IH, E. now destruct (mem i r).
    + exact IH.
Qed.

Lemma pick_keys (active : list Z) :
  (forall i, In i active -> In i (PyDict.keys d)) ->
  PyDict.keys (flat_map (pick d) active) = active.
Proof.
  induction active as [|k r IH]; intros Hall; simpl; [reflexivity|].
  unfold pick at 1. destruct (PyDict.get k d) as [v|] eqn:E.
  - simpl. f_equal. apply IH. intros i Hi. apply Hall. now right.
  - apply PyDictFacts.get_None_iff in E. exfalso. apply E, Hall. now left.
Qed.

Lemma restrict_eq (active : list Z) :
  NoDup active -> (forall i, In i active -> In i (PyDict.keys d)) ->
  restrict active d = flat_map (pick d) active.
Proof.
  intros Hnd Hall. unfold restrict. apply PyDictFacts.of_items_NoDup.
  now rewrite pick_keys.
Qed.

Lemma restrict_keys (active : list Z) :
  NoDup active -> (forall i, In i active -> In i (PyDict.keys d)) ->
  PyDict.keys (restrict active d) = active.
Proof. intros Hnd Hall. rewrite restrict_eq by assumption. now apply pick_keys. Qed.

Lemma restrict_get (active : list Z) (i : Z) :
  NoDup active -> (forall i, In i active -> In i (PyDict.keys d)) ->
  PyDict.get i (restrict active d)
  = if mem i active then PyDict.get i d else None.
Proof. intros Hnd Hall. rewrite restrict_eq by assumption. apply pick_get. Qed.

End Restrict.

Lemma NoDup_keys_filter (V : Type) (p : Z * V -> bool) (l : PyDict.t V) :
  NoDup (PyDict.keys l) -> NoDup (PyDict.keys (filter p l)).
Proof.
  induction l as [|[k v] r IH]; simpl; intros Hnd; [constructor|].
  inversion Hnd as [|? ? Hni Hnd']; subst.
  destruct (p (k, v)); simpl; [|auto].
  constructor; [|auto]. intros H. apply Hni.
  unfold PyDict.keys in *. apply in_map_iff in H.
  destruct H as (x & Ex & Hx). apply filter_In in Hx.
  apply in_map_iff. exists x. tauto.
Qed.

Lemma get_filter (V : Type) (p : Z * V -> bool) (l : PyDict.t V) (i : Z) :
  NoDup (PyDict.keys l) ->
  PyDict.get i (filter p l)
  = match PyDict.get i l with
    | Some v => if p (i, v) then Some v else None
    | None => None
    end.
Proof.
  induction l as [|[k v] r IH]; simpl; intros Hnd; [reflexivity|].
  inversion Hnd as [|? ? Hni Hnd']; subst.
  destruct (Z.eqb i k) eqn:E.
  - apply Z.eqb_eq in E; subst i. destruct (p (k, v)) eqn:Ep; simpl.
    + now rewrite Z.eqb_refl.
    + rewrite IH by assumption.
      apply PyDictFacts.get_None_iff in Hni. now rewrite Hni.
  - destruct (p (k, v)); simpl; [rewrite E|]; now apply IH.
Qed.

Lemma active_ids_NoDup (m : Z) (a : PyDict.t Z) :
  NoDup (PyDict.keys a) -> NoDup (active_ids m a).
Proof. intros H. unfold active_ids. now apply NoDup_keys_filter. Qed.

Lemma active_ids_in (m : Z) (a : PyDict.t Z) (i : Z)
    (Hnd : NoDup (PyDict.keys a)) :
  (In i (active_ids m a)
   <-> exists n, PyDict.get i a = Some n /\ (n <= m)%Z).
Proof.
  unfold active_ids. rewrite in_map_iff. split.
  - intros ([k n] & E & Hin). simpl in E; subst k.
    apply filter_In in Hin. destruct Hin as (Hin & Hle). simpl in Hle.
    exists n. split; [now apply PyDictFacts.in_get_Some | now apply Z.leb_le].
  - intros (n & Hg & Hle). exists (i, n). split; [reflexivity|].
    apply filter_In. split; [now apply PyDictFacts.get_Some_in|].
    simpl. now apply Z.leb_le.
Qed.

Lemma not_tracked_iff (self : SimpleTracker) (i : Z) :
  tracker_ok self -> (~ tracked self i <-> PyDict.get i (ages self) = None).
Proof.
  intros Hok. rewrite (tracked_iff_boxes i Hok), <- (ok_ages Hok).
  symmetry. apply PyDictFacts.get_None_iff.
Qed.

(** The effect of one whole call on the tracker. *)
Lemma assign_ids_effect (self : SimpleTracker) (dets : list Detection) (f : Z) :
  tracker_ok self -> 0 <= iou_threshold self ->
  let self' := fst (assign_ids self dets f) in
  let claimed := map fst (snd (assign_ids self dets f)) in
  tracker_ok self'
  /\ max_age self' = max_age self
  /\ iou_threshold self' = iou_threshold self
  /\ (next_id self <= next_id self')%Z
  /\ (forall i a, ~ In i claimed -> PyDict.get i (ages self) = Some a ->
        (a + 1 <= max_age self)%Z ->
        PyDict.get i (ages self') = Some (a + 1)%Z
        /\ PyDict.get i (boxes_2d self') = PyDict.get i (boxes_2d self)
        /\ PyDict.get i (positions_3d self') = PyDict.get i (positions_3d self)
        /\ PyDict.get i (timestamps self') = PyDict.get i (timestamps self))
  /\ (forall i a, ~ In i claimed -> PyDict.get i (ages self) = Some a ->
        (a + 1 > max_age self)%Z -> ~ tracked self' i)
  /\ (forall i, ~ In i claimed -> ~ tracked self i -> ~ tracked self' i)
  /\ (forall i a, PyDict.get i (ages self') = Some a -> (a <= max_age self)%Z).
Proof.
  intros Hok0 Hthr0 self' claimed.
  pose proof (loop_state_inv f Hok0 Hthr0 dets) as Hinv.
  subst self' claimed. rewrite assign_ids_out.
  unfold assign_ids. fold (loop_state f self dets).
  destruct (loop_state f self dets) as [[s1 used] assigned].
  unfold loop_inv in Hinv. cbn [fst snd] in *.
  destruct Hinv as (Hok & Hused & Hdets & Hsame & Hzero & Hkeys & Hnext & Ht & Hm).
  destruct Hok as [Hnd Hp Hts Ha Hb].
  assert (Hnda : NoDup (PyDict.keys (ages s1))) by (now rewrite Ha).
  set (ages1 := age_unclaimed used (ages s1)).
  set (active := active_ids (max_age s1) ages1).
  assert (Hk1 : PyDict.keys ages1 = PyDict.keys (ages s1))
    by (now apply age_unclaimed_keys).
  assert (Hnd1 : NoDup (PyDict.keys ages1)) by (now rewrite Hk1).
  assert (Hact : NoDup active) by (now apply active_ids_NoDup).
  assert (Hsub : forall i, In i active -> In i (PyDict.keys ages1)).
  { intros i Hi. apply (@active_ids_in (max_age s1) ages1 i Hnd1) in Hi.
    destruct Hi as (n & Hg & _).
    apply PyDictFacts.contains_true_iff. unfold PyDict.contains. now rewrite Hg. }
  assert (Hsubb : forall i, In i active -> In i (PyDict.keys (boxes_2d s1))).
  { intros i Hi. rewrite <- Ha, <- Hk1. auto. }
  assert (Hsubp : forall i, In i active -> In i (PyDict.keys (positions_3d s1))).
  { intros i Hi. rewrite Hp. auto. }
  assert (Hsubt : forall i, In i active -> In i (PyDict.keys (timestamps s1))).
  { intros i Hi. rewrite Hts. auto. }
  assert (Hsame' : forall i, ~ In i (map fst assigned) -> same_track s1 self i).
  { intros i Hi. apply Hsame. rewrite Hused. intros H. apply Hi.
    now apply in_rev. }
  assert (Hmemu : forall i, ~ In i (map fst assigned) -> mem i used = false).
  { intros i Hi. apply mem_false_iff. rewrite Hused. intros H. apply Hi.
    now apply in_rev. }
  assert (Hok' : tracker_ok
    (mkTracker (next_id s1) (restrict active (boxes_2d s1))
       (restrict active (positions_3d s1)) (restrict active (timestamps s1))
       (restrict active ages1) (iou_threshold s1) (max_age s1))).
  { constructor; cbn [boxes_2d positions_3d timestamps ages next_id].
    - rewrite restrict_keys by assumption. exact Hact.
    - now rewrite !restrict_keys by assumption.
    - now rewrite !restrict_keys by assumption.
    - now rewrite !restrict_keys by assumption.
    - intros i. rewrite restrict_keys by assumption. intros Hi. auto. }
  split; [exact Hok'|]. split; [exact Hm|]. split; [exact Ht|].
  split; [exact Hnext|].
  cbn [boxes_2d positions_3d timestamps ages next_id].
  assert (Hunclaimed : forall i a, ~ In i (map fst assigned) ->
            PyDict.get i (ages self) = Some a ->
            PyDict.get i ages1 = Some (a + 1)%Z).
  { intros i a Hi Hg. destruct (Hsame' i Hi) as (_ & _ & _ & Ea).
    unfold ages1. rewrite age_unclaimed_get by assumption.
    rewrite Ea, Hg, (Hmemu i Hi). reflexivity. }
  split; [|split; [|split]].
  - intros i a Hi Hg Hle.
    pose proof (Hunclaimed i a Hi Hg) as Hg1.
    assert (Hin : mem i active = true).
    { apply mem_true_iff, (@active_ids_in (max_age s1) ages1 i Hnd1). exists (a + 1)%Z.
      split; [exact Hg1 | lia]. }
    destruct (Hsame' i Hi) as (Eb & Epos & Ets & _).
    rewrite !restrict_get by assumption. rewrite Hin.
    repeat split; congruence.
  - intros i a Hi Hg Hgt.
    pose proof (Hunclaimed i a Hi Hg) as Hg1.
    apply (not_tracked_iff i Hok'). cbn [ages].
    rewrite restrict_get by assumption.
    destruct (mem i active) eqn:Hin; [|reflexivity].
    apply mem_true_iff, (@active_ids_in (max_age s1) ages1 i Hnd1) in Hin.
    destruct Hin as (n & Hn & Hle). rewrite Hg1 in Hn. injection Hn as <-. lia.
  - intros i Hi Hnt.
    apply (not_tracked_iff i Hok'). cbn [ages].
    apply (not_tracked_iff i Hok0) in Hnt.
    rewrite restrict_get by assumption.
    destruct (mem i active) eqn:Hin; [|reflexivity].
    destruct (Hsame' i Hi) as (_ & _ & _ & Ea).
    unfold ages1. rewrite age_unclaimed_get by assumption.
    now rewrite Ea, Hnt.
  - intros i a. rewrite restrict_get by assumption.
    destruct (mem i active) eqn:Hin; [|discriminate].
    apply mem_true_iff, (@active_ids_in (max_age s1) ages1 i Hnd1) in Hin.
    destruct Hin as (n & Hn & Hle). rewrite Hn. intros [= <-]. lia.
Qed.

(** A track that is not claimed while more frames go by than its age allows
    is gone, and an id that is not tracked does not come back unclaimed. *)
Lemma run_frames_unmatched (i : Z) (frames : list (list Detection * Z)) :
  forall self,
  tracker_ok self -> 0 <= iou_threshold self ->
  (forall ids, In ids (run_outputs self frames) -> ~ In i ids) ->
  (~ tracked self i -> ~ tracked (run_frames self frames) i)
  /\ (forall a, PyDict.get i (ages self) = Some a ->
        (a <= max_age self)%Z ->
        (max_age self < a + Z.of_nat (List.length frames))%Z ->
        ~ tracked (run_frames self frames) i).
Proof.
  induction frames as [|[dets f] rest IH]; intros self Hok Hthr Hun.
  - simpl. split; [tauto|]. intros a _ H1 H2. lia.
  - cbn [run_frames run_outputs] in *.
    destruct (assign_ids_effect dets f Hok Hthr)
      as (Hok' & Hm & Ht & _ & Hkeep & Hdrop & Hgone & _).
    cbv zeta in *.
    set (self' := fst (assign_ids self dets f)) in *.
    assert (Hun0 : ~ In i (map fst (snd (assign_ids self dets f)))).
    { apply Hun. now left. }
    assert (Hthr' : 0 <= iou_threshold self') by (rewrite Ht; exact Hthr).
    assert (Hun' : forall ids, In ids (run_outputs self' rest) -> ~ In i ids).
    { intros ids Hids. apply Hun. now right. }
    destruct (IH self' Hok' Hthr' Hun') as (IHgone & IHage).
    split.
    + intros Hnt. apply IHgone. now apply Hgone.
    + intros a Hg Hle Hlt.
      destruct (Z_le_gt_dec (a + 1) (max_age self)) as [Hc | Hc].
      * destruct (Hkeep i a Hun0 Hg Hc) as (Hg' & _).
        apply (IHage (a + 1)%Z Hg'); rewrite Hm; [exact Hc|].
        cbn [List.length] in Hlt. lia.
      * apply IHgone. now apply (Hdrop i a).
Qed.

(** C3.  In a call of [assign_ids] on a tracker in a consistent state, a
    track that no detection claims has its age raised by one; if the raised
    age is within [max_age] the track stays as it was, otherwise it leaves
    the four dictionaries; no track is left with an age above [max_age].
    Hence a track that goes unclaimed for more than [max_age] calls in a row
    is no longer tracked. *)
Theorem assign_ids_ageing (self : SimpleTracker) :
  tracker_ok self -> 0 <= iou_threshold self ->
  (forall dets f,
     let self' := fst (assign_ids self dets f) in
     let claimed := map fst (snd (assign_ids self dets f)) in
     (forall i a, PyDict.get i (ages self) = Some a -> ~ In i claimed ->
        ((a + 1 <= max_age self)%Z ->
           PyDict.get i (ages self') = Some (a + 1)%Z
           /\ PyDict.get i (boxes_2d self') = PyDict.get i (boxes_2d self)
           /\ PyDict.get i (positions_3d self') = PyDict.get i (positions_3d self)
           /\ PyDict.get i (timestamps self') = PyDict.get i (timestamps self))
        /\ ((max_age self < a + 1)%Z -> ~ tracked self' i))
     /\ (forall i a, PyDict.get i (ages self') = Some a -> (a <= max_age self)%Z))
  /\ (forall frames i a,
        PyDict.get i (ages self) = Some a -> (0 <= a <= max_age self)%Z ->
        (forall ids, In ids (run_outputs self frames) -> ~ In i ids) ->
        (max_age self < Z.of_nat (List.length frames))%Z ->
        ~ tracked (run_frames self frames) i).
Proof.
  intros Hok Hthr. split.
  - intros dets f self' claimed.
    destruct (assign_ids_effect dets f Hok Hthr)
      as (_ & _ & _ & _ & Hkeep & Hdrop & _ & Hmax).
    split; [|exact Hmax].
    intros i a Hg Hun. split.
    + intros Hle. now apply Hkeep.
    + intros Hlt. apply (Hdrop i a); auto. lia.
  - intros frames i a Hg Ha Hun Hlen.
    destruct (run_frames_unmatched i frames Hok Hthr Hun) as (_ & H).
    apply (H a Hg); lia.
Qed.

Lemma assign_ids_ageing_witness :
  PyDict.get 0%Z (ages (fst (assign_ids (one_track 30) [] 2))) = Some 1%Z
  /\ ~ tracked (run_frames (one_track 1) [([], 2%Z); ([], 3%Z)]) 0%Z.
Proof.
  assert (Hthr : forall m, 0 <= iou_threshold (one_track m)) by (intros; simpl; lra).
  split.
  - destruct (assign_ids_ageing (one_track_ok 30) (Hthr 30%Z)) as (H & _).
    destruct (H [] 2%Z) as (Hage & _).
    destruct (Hage 0%Z 0%Z) as (Hkeep & _).
    + reflexivity.
    + simpl. tauto.
    + apply Hkeep. simpl. lia.
  - destruct (assign_ids_ageing (one_track_ok 1) (Hthr 1%Z)) as (_ & H).
    apply (H [([], 2%Z); ([], 3%Z)] 0%Z 0%Z).
    + reflexivity.
    + simpl. lia.
    + simpl. intros ids [<- | [<- | []]]; simpl; tauto.
    + simpl. lia.
Defined.

(* ------------------------------------------------------------------ *)
(** ** The mental map *)

Section Upsert.
Variable now : R.

Lemma upsert_all_NoDup (tr : list (Z * TrackedDetection)) :
  forall m, NoDup (PyDict.keys m) ->
            NoDup (PyDict.keys (upsert_all tr now m)).
Proof.
  induction tr as [|[k d] r IH]; intros m Hnd; simpl; [exact Hnd|].
  apply IH. now apply PyDictFacts.keys_set_NoDup.
Qed.

Lemma upsert_all_get (i : Z) (tr : list (Z * TrackedDetection)) :
  forall m,
  (~ In i (map fst tr) ->
     PyDict.get i (upsert_all tr now m) = PyDict.get i m)
  /\ (In i (map fst tr) ->
        exists det, In (i, det) tr
          /\ PyDict.get i (upsert_all tr now m) = Some (entry_of det now)).
Proof.
  induction tr as [|[k d] r IH]; intros m.
  - simpl. split; [reflexivity | tauto].
  - cbn [map fst]. unfold upsert_all. cbn [fold_left fst snd].
    fold (upsert_all r now (PyDict.set k (entry_of d now) m)).
    destruct (IH (PyDict.set k (entry_of d now) m)) as (IHout & IHin).
    split.
    + intros Hni. rewrite IHout by (intros H; apply Hni; now right).
      apply PyDictFacts.get_set_other. intros ->. apply Hni. now left.
    + intros Hin. destruct (in_dec Z.eq_dec i (map fst r)) as [Hr | Hr].
      * destruct (IHin Hr) as (det & Hd & Hg). exists det.
        split; [now right | exact Hg].
      * destruct Hin as [-> | Hin]; [|tauto].
        exists d. split; [now left|].
        rewrite IHout by exact Hr. apply PyDictFacts.get_set_same.
Qed.

End Upsert.

Lemma update_get (self : MentalMap3D) (tr : list (Z * TrackedDetection))
    (now : R) (i : Z) :
  NoDup (PyDict.keys (mm_map self)) ->
  PyDict.get i (mm_map (update self tr now))
  = match PyDict.get i (upsert_all tr now (mm_map self)) with
    | Some e => if Rleb (now - e_last_seen e) (keep_seconds self)
                then Some e else None
    | None => None
    end.
Proof.
  intros Hnd. unfold update. cbn [mm_map].
  pose proof (upsert_all_NoDup now tr _ Hnd) as Hnd'.
  rewrite PyDictFacts.of_items_NoDup by (now apply NoDup_keys_filter).
  now rewrite get_filter.
Qed.

(** C4.  After [update] at clock reading [now]: every reported id holds an
    entry made from a detection reported for it and stamped [now] (the
    retention window not being negative); every entry of the map satisfies
    [now - last_seen <= keep_seconds]; an entry that was not reported is
    dropped when [now - last_seen > keep_seconds] and kept unchanged
    otherwise. *)
Theorem update_window (self : MentalMap3D) (tr : list (Z * TrackedDetection))
    (now : R) :
  NoDup (PyDict.keys (mm_map self)) ->
  let self' := update self tr now in
  NoDup (PyDict.keys (mm_map self'))
  /\ keep_seconds self' = keep_seconds self
  /\ (forall i, In i (map fst tr) -> 0 <= keep_seconds self ->
        exists det, In (i, det) tr
          /\ PyDict.get i (mm_map self') = Some (entry_of det now)
          /\ e_last_seen (entry_of det now) = now)
  /\ (forall i e, PyDict.get i (mm_map self') = Some e ->
        now - e_last_seen e <= keep_seconds self)
  /\ (forall i e, PyDict.get i (mm_map self) = Some e -> ~ In i (map fst tr) ->
        (now - e_last_seen e > keep_seconds self ->
           PyDict.get i (mm_map self') = None)
        /\ (now - e_last_seen e <= keep_seconds self ->
              PyDict.get i (mm_map self') = Some e)).
Proof.
  intros Hnd self'. subst self'.
  split.
  { unfold update. cbn [mm_map].
    pose proof (upsert_all_NoDup now tr _ Hnd) as Hnd'.
    rewrite PyDictFacts.of_items_NoDup by (now apply NoDup_keys_filter).
    now apply NoDup_keys_filter. }
  split; [reflexivity|].
  split; [|split].
  - intros i Hi Hkeep.
    destruct (upsert_all_get now i tr (mm_map self)) as (_ & Hin).
    destruct (Hin Hi) as (det & Hd & Hg). exists det.
    split; [exact Hd|]. split; [|reflexivity].
    rewrite update_get by exact Hnd. rewrite Hg.
    assert (Hfresh : Rleb (now - e_last_seen (entry_of det now))
                          (keep_seconds self) = true).
    { apply Rleb_true. simpl. lra. }
    now rewrite Hfresh.
  - intros i e. rewrite update_get by exact Hnd.
    destruct (PyDict.get i (upsert_all tr now (mm_map self))) as [e'|];
      [|discriminate].
    destruct (Rleb (now - e_last_seen e') (keep_seconds self)) eqn:E;
      [|discriminate].
    intros [= <-]. now apply Rleb_true.
  - intros i e Hg Hni.
    destruct (upsert_all_get now i tr (mm_map self)) as (Hout & _).
    rewrite update_get by exact Hnd. rewrite (Hout Hni), Hg.
    unfold Rleb. destruct (Rle_dec _ _); split; intros; auto; lra.
Qed.

Lemma update_window_witness :
  (exists det, In (0%Z, det) [(0%Z, sample_tracked)]
     /\ PyDict.get 0%Z (mm_map (update stale_map [(0%Z, sample_tracked)] 10))
        = Some (entry_of det 10)
     /\ e_last_seen (entry_of det 10) = 10)
  /\ PyDict.get 7%Z (mm_map (update stale_map [(0%Z, sample_tracked)] 10)) = None.
Proof.
  assert (Hnd : NoDup (PyDict.keys (mm_map stale_map))).
  { simpl. constructor; [tauto | constructor]. }
  destruct (update_window stale_map [(0%Z, sample_tracked)] 10 Hnd)
    as (_ & _ & Hup & _ & Hold).
  split.
  - apply Hup; simpl; [tauto | lra].
  - destruct (Hold 7%Z (mkEntry "car" (mkVec3 0 0 4) vzero 0)) as (Hdrop & _).
    + reflexivity.
    + simpl. intros [H | []]. discriminate.
    + apply Hdrop. simpl. lra.
Defined.

(* ------------------------------------------------------------------ *)
(** ** The ranker *)

Lemma insert_desc_perm (x : Scored) (l : list Scored) :
  Permutation (x :: l) (insert_desc x l).
Proof.
  induction l as [|y r IH]; simpl; [reflexivity|].
  destruct (Rltb (sc_key x) (sc_key y)); [|reflexivity].
  rewrite perm_swap. now constructor.
Qed.

Lemma sort_desc_perm (l : list Scored) : Permutation l (sort_desc l).
Proof.
  induction l as [|x r IH]; simpl; [constructor|].
  rewrite <- insert_desc_perm. now constructor.
Qed.

Lemma insert_desc_sorted (x : Scored) (l : list Scored) :
  StronglySorted desc l -> StronglySorted desc (insert_desc x l).
Proof.
  induction l as [|y r IH]; intros Hs; simpl.
  - constructor; constructor.
  - inversion Hs as [|? ? Hr Hy]; subst.
    destruct (Rltb (sc_key x) (sc_key y)) eqn:E.
    + apply Rltb_true in E. constructor; [auto|].
      apply (Permutation_Forall (insert_desc_perm x r)).
      constructor; [unfold desc; lra | exact Hy].
    + apply Rltb_false in E. constructor; [exact Hs|].
      constructor; [unfold desc; lra|].
      eapply Forall_impl; [|exact Hy]. unfold desc. intros a Ha. lra.
Qed.

Lemma sort_desc_sorted (l : list Scored) : StronglySorted desc (sort_desc l).
Proof.
  induction l as [|x r IH]; simpl; [constructor|].
  now apply insert_desc_sorted.
Qed.

Lemma sorted_app_inv (A : Type) (R : A -> A -> Prop) (l1 l2 : list A) :
  StronglySorted R (l1 ++ l2) ->
  StronglySorted R l1
  /\ forall a b, In a l1 -> In b l2 -> R a b.
Proof.
  induction l1 as [|x r IH]; simpl; intros Hs.
  - split; [constructor | tauto].
  - inversion Hs as [|? ? Hr Hx]; subst.
    destruct (IH Hr) as (Hs1 & Hcross).
    rewrite Forall_app in Hx. destruct Hx as (Hx1 & Hx2).
    split; [now constructor|].
    intros a b [<- | Ha] Hb; [|auto].
    rewrite Forall_forall in Hx2. auto.
Qed.

Lemma sorted_map (A B : Type) (RA : A -> A -> Prop) (RB : B -> B -> Prop)
    (g : A -> B) (l : list A) :
  (forall a b, In a l -> In b l -> RA a b -> RB (g a) (g b)) ->
  StronglySorted RA l -> StronglySorted RB (map g l).
Proof.
  induction l as [|x r IH]; intros Hg Hs; simpl; [constructor|].
  inversion Hs as [|? ? Hr Hx]; subst.
  constructor.
  - apply IH; [|exact Hr]. intros a b Ha Hb. apply Hg; now right.
  - rewrite Forall_forall in *. intros y Hy.
    apply in_map_iff in Hy. destruct Hy as (a & <- & Ha).
    apply Hg; [now left | now right | auto].
Qed.

Lemma slice_to_nonneg (A : Type) (n : Z) (l : list A) :
  (0 <= n)%Z -> slice_to n l = firstn (Z.to_nat n) l.
Proof.
  intros H. unfold slice_to.
  destruct (n <? 0)%Z eqn:E; [apply Z.ltb_lt in E; lia | reflexivity].
Qed.

(** [np.arctan2] with a positive second argument is the arc tangent of the
    quotient; the 45 degree test is then a comparison of the two. *)
Lemma arctan2_pos (y x : R) : 0 < x -> arctan2 y x = atan (y / x).
Proof. intros H. unfold arctan2. destruct (Rlt_dec 0 x); tauto. Qed.

Lemma fov_test (x z : R) :
  arctan2 (Rabs x) (Rmax z 0.1) < PI / 4 <-> Rabs x < Rmax z 0.1.
Proof.
  assert (Hpos : 0 < Rmax z 0.1).
  { apply Rlt_le_trans with 0.1; [lra | apply Rmax_r]. }
  rewrite arctan2_pos by exact Hpos. rewrite <- atan_1.
  set (m := Rmax z 0.1) in *. set (a := Rabs x).
  assert (Hq : a / m < 1 <-> a < m).
  { split; intros H.
    - apply (Rmult_lt_compat_r m) in H; [|exact Hpos].
      unfold Rdiv in H. rewrite Rmult_assoc, Rinv_l in H by lra. lra.
    - apply (Rmult_lt_reg_r m); [exact Hpos|].
      unfold Rdiv. rewrite Rmult_assoc, Rinv_l by lra. lra. }
  rewrite <- Hq. split; intros H.
  - destruct (Rlt_dec (a / m) 1) as [Hlt | Hge]; [exact Hlt|].
    exfalso. destruct (Req_dec (a / m) 1) as [E | Hne].
    + rewrite E in H. lra.
    + assert (1 < a / m) by lra.
      pose proof (atan_increasing 1 (a / m) H0). lra.
  - now apply atan_increasing.
Qed.

Lemma table_get_unlisted (key : string) (table : list (string * Z)) (d : Z) :
  (forall k v, In (k, v) table -> k <> key) -> table_get key table d = d.
Proof.
  induction table as [|[k v] r IH]; simpl; intros H; [reflexivity|].
  destruct (String.eqb key k) eqn:E.
  - apply String.eqb_eq in E. exfalso. apply (H k v); [now left | congruence].
  - apply IH. intros k' v' Hin. apply (H k' v'). now right.
Qed.

Lemma score_meets_spec (info : MapEntry) : score_spec info (score info).
Proof.
  unfold score_spec, score. cbv zeta.
  eexists _, _, _, _. split; [unfold Rdiv; rewrite Rmult_1_l; reflexivity|].
  split; [reflexivity|]. split.
  { intros H. now rewrite table_get_unlisted. }
  unfold Rgtb, Rltb.
  split; [destruct (Rgt_dec _ _); tauto|].
  split; [destruct (Rgt_dec _ _); tauto|].
  split; [destruct (Rlt_dec (arctan2 _ _) _); tauto|].
  split; [destruct (Rlt_dec (arctan2 _ _) _); tauto|].
  split; destruct (Rlt_dec (norm _) _); tauto.
Qed.

(** C5.  For a non-negative [top_n], [prioritize_objects] returns at most
    [top_n] entries, their scores non-increasing; they are entries of the
    map, and no entry left out scores higher than one returned.  The score
    of an entry is the combination the specification gives, component by
    component. *)
Theorem prioritize_objects_ranked (mental_map : PyDict.t MapEntry) (top_n : Z) :
  (0 <= top_n)%Z ->
  let out := prioritize_objects mental_map top_n in
  (Z.of_nat (List.length out) <= top_n)%Z
  /\ StronglySorted Rge (map (fun e => score (snd e)) out)
  /\ (exists rest,
        Permutation mental_map (out ++ rest)
        /\ forall e r, In e out -> In r rest -> score (snd r) <= score (snd e))
  /\ (forall info, score_spec info (score info)).
Proof.
  intros Hn out. subst out. unfold prioritize_objects. cbv zeta.
  set (scored := map (fun kv => (score (snd kv), fst kv, snd kv)) mental_map).
  set (proj := fun x : Scored => (snd (fst x), snd x)).
  rewrite slice_to_nonneg by exact Hn.
  set (n := Z.to_nat top_n).
  pose proof (sort_desc_sorted scored) as Hsorted.
  pose proof (sort_desc_perm scored) as Hperm.
  assert (Hkey : forall x, In x (sort_desc scored) -> sc_key x = score (snd x)).
  { intros x Hx. apply (Permutation_in _ (Permutation_sym Hperm)) in Hx.
    unfold scored in Hx. apply in_map_iff in Hx.
    destruct Hx as (kv & <- & _). reflexivity. }
  assert (Hproj : map proj scored = mental_map).
  { unfold scored, proj. rewrite map_map. simpl.
    rewrite <- (map_id mental_map) at 2. apply map_ext. now intros [k v]. }
  rewrite <- (firstn_skipn n (sort_desc scored)) in Hsorted.
  destruct (sorted_app_inv _ _ Hsorted) as (Hs1 & Hcross).
  assert (Hfst : forall x, In x (firstn n (sort_desc scored)) ->
                           In x (sort_desc scored)).
  { intros x Hx. rewrite <- (firstn_skipn n (sort_desc scored)).
    apply in_or_app. now left. }
  assert (Hskp : forall x, In x (skipn n (sort_desc scored)) ->
                           In x (sort_desc scored)).
  { intros x Hx. rewrite <- (firstn_skipn n (sort_desc scored)).
    apply in_or_app. now right. }
  split; [|split; [|split]].
  - rewrite length_map. pose proof (firstn_le_length n (sort_desc scored)).
    unfold n in *. lia.
  - rewrite map_map. apply sorted_map with (RA := desc); [|exact Hs1].
    intros a b Ha Hb Hab. unfold desc in Hab. unfold proj; simpl.
    rewrite <- (Hkey a), <- (Hkey b); auto.
  - exists (map proj (skipn n (sort_desc scored))). split.
    + rewrite <- map_app, firstn_skipn, <- Hproj.
      now apply Permutation_map.
    + intros e r He Hr. apply in_map_iff in He, Hr.
      destruct He as (a & <- & Ha). destruct Hr as (b & <- & Hb).
      unfold proj; simpl. rewrite <- (Hkey a), <- (Hkey b); auto.
      specialize (Hcross a b Ha Hb). unfold desc in Hcross. lra.
  - apply score_meets_spec.
Qed.

Lemma prioritize_objects_ranked_witness :
  let out := prioritize_objects sample_map 5 in
  (Z.of_nat (List.length out) <= 5)%Z
  /\ StronglySorted Rge (map (fun e => score (snd e)) out)
  /\ (exists rest,
        Permutation sample_map (out ++ rest)
        /\ forall e r, In e out -> In r rest -> score (snd r) <= score (snd e))
  /\ (forall info, score_spec info (score info)).
Proof.
  apply (@prioritize_objects_ranked sample_map 5%Z). lia.
Defined.

(* ------------------------------------------------------------------ *)
(** ** The situation analyser *)

Lemma norm_sq_nonneg (v : Vec3) : 0 <= vx v * vx v + vy v * vy v + vz v * vz v.
Proof. nra. Qed.

Lemma norm_lt_iff (v : Vec3) (c : R) :
  0 < c -> (norm v < c <-> vx v * vx v + vy v * vy v + vz v * vz v < c * c).
Proof.
  intros Hc. unfold norm. pose proof (norm_sq_nonneg v) as Hs.
  set (s := vx v * vx v + vy v * vy v + vz v * vz v) in *.
  rewrite <- (sqrt_square c) at 1 by lra. split; intros H.
  - apply sqrt_lt_0_alt in H. exact H.
  - apply sqrt_lt_1; [exact Hs | nra | exact H].
Qed.

Lemma norm_gt_iff (v : Vec3) (c : R) :
  0 <= c -> (norm v > c <-> vx v * vx v + vy v * vy v + vz v * vz v > c * c).
Proof.
  intros Hc. unfold norm. pose proof (norm_sq_nonneg v) as Hs.
  set (s := vx v * vx v + vy v * vy v + vz v * vz v) in *.
  rewrite <- (sqrt_square c) at 1 by lra. unfold Rgt. split; intros H.
  - apply sqrt_lt_0_alt in H. exact H.
  - apply sqrt_lt_1; [nra | exact Hs | exact H].
Qed.

Lemma in_corridor_iff (info : MapEntry) :
  in_corridor info = true <-> blocks_path info.
Proof.
  unfold in_corridor, blocks_path. cbv zeta.
  rewrite !andb_true_iff, !Rltb_true, Rgtb_true. tauto.
Qed.

Lemma ahead_clear_false_iff (items : list (Z * MapEntry)) :
  ahead_clear items = false
  <-> exists i info, In (i, info) items /\ blocks_path info.
Proof.
  induction items as [|[k e] r IH]; simpl.
  - split; [discriminate | intros (i & info & [] & _)].
  - destruct (in_corridor e) eqn:E.
    + split; [intros _ | reflexivity].
      exists k, e. split; [now left | now apply in_corridor_iff].
    + rewrite IH. split.
      * intros (i & info & Hin & Hb). exists i, info. split; [now right | exact Hb].
      * intros (i & info & [Heq | Hin] & Hb).
        -- injection Heq as <- <-. apply in_corridor_iff in Hb. congruence.
        -- exists i, info. tauto.
Qed.

(** C6.  [analyze_situation] reports the path blocked exactly when some
    entry has [|x| < 0.7], [z > 0] and distance under 3.0, and clear
    otherwise.  One entry at [x = 0], [z = 1] with distance under 3.0 gives
    blocked; one entry at [x = 2], [z = 1] alone gives clear. *)
Theorem analyze_path_status (mental_map : PyDict.t MapEntry) :
  (path_status (analyze_situation mental_map) = "blocked"
   <-> exists i info, In (i, info) mental_map /\ blocks_path info)
  /\ (path_status (analyze_situation mental_map) = "clear"
      <-> ~ exists i info, In (i, info) mental_map /\ blocks_path info)
  /\ (forall i cls y vel t,
        norm (mkVec3 0 y 1) < 3.0 ->
        path_status (analyze_situation [(i, mkEntry cls (mkVec3 0 y 1) vel t)])
        = "blocked")
  /\ (forall i cls y vel t,
        path_status (analyze_situation [(i, mkEntry cls (mkVec3 2 y 1) vel t)])
        = "clear").
Proof.
  assert (Hgen : forall m,
    (path_status (analyze_situation m) = "blocked"
     <-> exists i info, In (i, info) m /\ blocks_path info)
    /\ (path_status (analyze_situation m) = "clear"
        <-> ~ exists i info, In (i, info) m /\ blocks_path info)).
  { intros m. unfold analyze_situation. cbn [path_status].
    rewrite <- ahead_clear_false_iff.
    destruct (ahead_clear m); split; split; intros H;
      try reflexivity; try discriminate; try congruence;
      exfalso; now apply H. }
  split; [apply Hgen|]. split; [apply Hgen|]. split.
  - intros i cls y vel t Hd. apply Hgen.
    exists i, (mkEntry cls (mkVec3 0 y 1) vel t). split; [now left|].
    unfold blocks_path; simpl. rewrite Rabs_R0. repeat split; [lra | lra | exact Hd].
  - intros i cls y vel t. apply Hgen.
    intros (j & info & [Heq | []] & Hx & _).
    injection Heq as <- <-. simpl in Hx.
    rewrite Rabs_right in Hx by lra. lra.
Qed.

Lemma analyze_path_status_witness :
  path_status
    (analyze_situation [(1%Z, mkEntry "person" (mkVec3 0 0 1) vzero 0)])
  = "blocked".
Proof.
  destruct (analyze_path_status []) as (_ & _ & H & _).
  apply H. apply norm_lt_iff; simpl; lra.
Defined.

(** An entry's effect on a situation is its own contribution, appended. *)
Lemma analyze_entry_app (s : Situation) (info : MapEntry) :
  urgent_alerts (analyze_entry s info)
    = urgent_alerts s ++ urgent_alerts (contribution info)
  /\ moving_objects (analyze_entry s info)
    = moving_objects s ++ moving_objects (contribution info)
  /\ obstacles (analyze_entry s info)
    = obstacles s ++ obstacles (contribution info)
  /\ path_status (analyze_entry s info) = path_status s.
Proof.
  unfold contribution, analyze_entry. cbv zeta.
  destruct (is_approaching info && Rltb (norm (e_position info)) 3.0);
    [cbn; rewrite ?app_nil_r; auto|].
  destruct (is_moving info && Rltb (norm (e_position info)) 4.0);
    [cbn; rewrite ?app_nil_r; auto|].
  destruct (negb (is_moving info)
            && String.eqb (direction_of (vx (e_position info))) "ahead"
            && Rltb (norm (e_position info)) 3.0);
    cbn; rewrite ?app_nil_r; auto.
Qed.

Lemma analyze_fold (m : list (Z * MapEntry)) : forall s,
  let r := fold_left (fun s kv => analyze_entry s (snd kv)) m s in
  urgent_alerts r
    = urgent_alerts s ++ flat_map (fun kv => urgent_alerts (contribution (snd kv))) m
  /\ moving_objects r
    = moving_objects s ++ flat_map (fun kv => moving_objects (contribution (snd kv))) m
  /\ obstacles r
    = obstacles s ++ flat_map (fun kv => obstacles (contribution (snd kv))) m.
Proof.
  induction m as [|kv r IH]; intros s; simpl.
  - now rewrite !app_nil_r.
  - destruct (IH (analyze_entry s (snd kv))) as (Hu & Hm & Ho).
    destruct (analyze_entry_app s (snd kv)) as (Eu & Em & Eo & _).
    simpl in Hu, Hm, Ho. rewrite Hu, Hm, Ho, Eu, Em, Eo.
    now rewrite <- !app_assoc.
Qed.

Lemma is_approaching_true (info : MapEntry) :
  is_approaching info = true
  <-> norm (e_velocity info) > 0.05 /\ vz (e_velocity info) < -0.02.
Proof.
  unfold is_approaching, is_moving.
  destruct (Rgtb (norm (e_velocity info)) 0.05) eqn:E.
  - apply Rgtb_true in E. rewrite Rltb_true. tauto.
  - apply Rgtb_false in E. split; [discriminate | tauto].
Qed.

(** C9.  The three buckets of [analyze_situation] are made of what each
    entry contributes, in map order, and an entry contributes at most one
    item in all.  An approaching entry closer than 3.0 goes to the urgent
    alerts and to no other bucket; a moving entry that is not approaching,
    straight ahead and closer than 3.0, goes to the moving objects and not
    to the obstacles. *)
Theorem analyze_buckets_exclusive (mental_map : PyDict.t MapEntry) :
  let s := analyze_situation mental_map in
  urgent_alerts s
    = flat_map (fun kv => urgent_alerts (contribution (snd kv))) mental_map
  /\ moving_objects s
    = flat_map (fun kv => moving_objects (contribution (snd kv))) mental_map
  /\ obstacles s
    = flat_map (fun kv => obstacles (contribution (snd kv))) mental_map
  /\ (forall info, (placements info <= 1)%nat)
  /\ (forall info,
        norm (e_velocity info) > 0.05 -> vz (e_velocity info) < -0.02 ->
        norm (e_position info) < 3.0 ->
        List.length (urgent_alerts (contribution info)) = 1%nat
        /\ moving_objects (contribution info) = []
        /\ obstacles (contribution info) = [])
  /\ (forall info,
        norm (e_velocity info) > 0.05 -> ~ vz (e_velocity info) < -0.02 ->
        -0.5 <= vx (e_position info) <= 0.5 ->
        norm (e_position info) < 3.0 ->
        urgent_alerts (contribution info) = []
        /\ List.length (moving_objects (contribution info)) = 1%nat
        /\ obstacles (contribution info) = []).
Proof.
  intros s. subst s.
  destruct (analyze_fold mental_map empty_situation) as (Hu & Hm & Ho).
  simpl in Hu, Hm, Ho.
  split; [exact Hu|]. split; [exact Hm|]. split; [exact Ho|].
  split; [|split].
  - intros info. unfold placements, contribution, analyze_entry. cbv zeta.
    destruct (is_approaching info && Rltb (norm (e_position info)) 3.0);
      [cbn; lia|].
    destruct (is_moving info && Rltb (norm (e_position info)) 4.0);
      [cbn; lia|].
    destruct (negb (is_moving info)
              && String.eqb (direction_of (vx (e_position info))) "ahead"
              && Rltb (norm (e_position info)) 3.0); cbn; lia.
  - intros info Hv Hz Hd.
    assert (Ha : is_approaching info = true) by (apply is_approaching_true; tauto).
    assert (Hd' : Rltb (norm (e_position info)) 3.0 = true) by now apply Rltb_true.
    unfold contribution, analyze_entry. cbv zeta. rewrite Ha, Hd'. cbn. auto.
  - intros info Hv Hz Hx Hd.
    assert (Ha : is_approaching info = false).
    { destruct (is_approaching info) eqn:E; [|reflexivity].
      apply is_approaching_true in E. tauto. }
    assert (Hmv : is_moving info = true) by (unfold is_moving; now apply Rgtb_true).
    assert (Hd' : Rltb (norm (e_position info)) 4.0 = true)
      by (apply Rltb_true; lra).
    unfold contribution, analyze_entry. cbv zeta. rewrite Ha, Hmv, Hd'. cbn. auto.
Qed.

Lemma analyze_buckets_exclusive_witness :
  (List.length (urgent_alerts (contribution closing_entry)) = 1%nat
   /\ moving_objects (contribution closing_entry) = []
   /\ obstacles (contribution closing_entry) = [])
  /\ (urgent_alerts (contribution drifting_entry) = []
      /\ List.length (moving_objects (contribution drifting_entry)) = 1%nat
      /\ obstacles (contribution drifting_entry) = []).
Proof.
  destruct (analyze_buckets_exclusive []) as (_ & _ & _ & _ & Hc & Hd).
  split.
  - apply Hc.
    + apply norm_gt_iff; simpl; lra.
    + simpl; lra.
    + apply norm_lt_iff; simpl; lra.
  - apply Hd.
    + apply norm_gt_iff; simpl; lra.
    + simpl; lra.
    + simpl; lra.
    + apply norm_lt_iff; simpl; lra.
Defined.

(* ------------------------------------------------------------------ *)
(** ** The narration *)

Lemma hazard_parts_length (s : Situation) : (List.length (hazard_parts s) <= 2)%nat.
Proof.
  unfold hazard_parts.
  destruct (urgent_alerts s) as [|a1 [|a2 r1]]; cbn; try lia.
  destruct (moving_objects s) as [|m1 [|m2 r2]]; cbn; try lia.
  destruct (obstacles s) as [|o1 r3]; cbn; lia.
Qed.

(** C7.  The clauses are the hazard clauses followed by one clause for the
    path status; the hazard clauses are the first two urgent alerts, or else
    the first two moving objects, or else the first obstacle.  With one
    clause in all the narration is the fixed phrase, otherwise it is the
    first two clauses joined by ["; "].  The two narrations the
    specification gives as examples come out as stated. *)
Theorem narration_clauses (s : Situation) :
  (urgent_alerts s <> [] ->
     hazard_parts s = map render_alert (firstn 2 (urgent_alerts s)))
  /\ (urgent_alerts s = [] -> moving_objects s <> [] ->
        hazard_parts s = map render_moving (firstn 2 (moving_objects s)))
  /\ (urgent_alerts s = [] -> moving_objects s = [] ->
        hazard_parts s = map render_obstacle (firstn 1 (obstacles s)))
  /\ (path_status s = "clear" -> path_part s = "the way ahead is clear")
  /\ (path_status s <> "clear" -> path_part s = "obstacle in path")
  /\ clauses s = hazard_parts s ++ [path_part s]
  /\ ((List.length (clauses s) <= 1)%nat ->
        generate_contextual_narration s = "Path is clear, no immediate hazards")
  /\ (forall c1 c2 rest, clauses s = c1 :: c2 :: rest ->
        generate_contextual_narration s = (c1 ++ "; " ++ c2)%string)
  /\ (forall d,
        generate_contextual_narration
          (mkSituation [mkAlert "car" "left" "very close" d] "blocked" [] [])
        = "car very close on your left; obstacle in path")
  /\ generate_contextual_narration (mkSituation [] "clear" [] [])
     = "Path is clear, no immediate hazards".
Proof.
  split; [|split; [|split; [|split; [|split; [|split; [|split; [|split; [|split]]]]]]]].
  - unfold hazard_parts. destruct (urgent_alerts s); [congruence | reflexivity].
  - intros Hu Hm. unfold hazard_parts. rewrite Hu.
    destruct (moving_objects s); [congruence | reflexivity].
  - intros Hu Hm. unfold hazard_parts. rewrite Hu, Hm.
    now destruct (obstacles s).
  - intros H. unfold path_part. now rewrite H.
  - intros H. unfold path_part.
    destruct (String.eqb (path_status s) "clear") eqn:E; [|reflexivity].
    apply String.eqb_eq in E. congruence.
  - reflexivity.
  - unfold generate_contextual_narration, clauses. cbv zeta.
    destruct (hazard_parts s ++ [path_part s]) as [|c1 [|c2 r]];
      cbn; intros H; try reflexivity. lia.
  - intros c1 c2 rest E.
    unfold generate_contextual_narration. cbv zeta.
    unfold clauses in E. rewrite E. reflexivity.
  - intros d. reflexivity.
  - reflexivity.
Qed.

Lemma narration_clauses_witness :
  generate_contextual_narration (mkSituation [] "blocked" [] [])
    = "Path is clear, no immediate hazards"
  /\ generate_contextual_narration
       (mkSituation [] "clear" [] [mkMoving "dog" "right" 2])
     = "dog moving on your right; the way ahead is clear".
Proof.
  split.
  - destruct (narration_clauses (mkSituation [] "blocked" [] []))
      as (_ & _ & _ & _ & _ & _ & H & _).
    apply H. simpl. lia.
  - destruct (narration_clauses
                (mkSituation [] "clear" [] [mkMoving "dog" "right" 2]))
      as (_ & _ & _ & _ & _ & _ & _ & H & _).
    apply (H "dog moving on your right" "the way ahead is clear" []).
    reflexivity.
Defined.

(* ------------------------------------------------------------------ *)
(** ** The speech engine *)

Lemma new_engine_ok : engine_ok new_engine.
Proof. unfold engine_ok; simpl. split; [reflexivity | lia]. Qed.

Lemma debounced_iff (self : IntelligentTTSEngine) (text : string)
    (force : bool) (t_check : R) :
  negb force && String.eqb text (last_narration self)
    && Rltb (t_check - last_narration_time self) 3.0 = true
  <-> debounced self text force t_check.
Proof.
  unfold debounced.
  rewrite !andb_true_iff, negb_true_iff, String.eqb_eq, Rltb_true. tauto.
Qed.

(** What an accepted call does to a queue of capacity 5. *)
Lemma speak_accepted (self : IntelligentTTSEngine) (text : string)
    (force : bool) (t_check t_accept : R) :
  engine_ok self -> text <> "" -> ~ debounced self text force t_check ->
  let items := q_items (phrase_q self) in
  speak self text force t_check t_accept
  = mkEngine
      (mkQueue ((if (List.length items =? 5)%nat then tl items else items)
                ++ [text]) 5)
      text t_accept.
Proof.
  intros (Hmax & Hlen) Hne Hnd items. unfold speak.
  destruct (String.eqb text "") eqn:E; [apply String.eqb_eq in E; congruence|].
  destruct (negb force && String.eqb text (last_narration self)
            && Rltb (t_check - last_narration_time self) 3.0) eqn:D.
  { apply debounced_iff in D. tauto. }
  destruct self as [[its mx] ln lt]. simpl in *. subst mx items.
  unfold q_full, q_get_nowait, q_put_nowait, q_full. simpl.
  destruct its as [|x1 [|x2 [|x3 [|x4 [|x5 [|x6 r]]]]]]; simpl in *;
    try reflexivity. lia.
Qed.

Lemma speak_ok (self : IntelligentTTSEngine) (text : string) (force : bool)
    (t_check t_accept : R) :
  engine_ok self -> engine_ok (speak self text force t_check t_accept).
Proof.
  intros Hok. destruct (string_dec text "") as [-> | Hne]; [exact Hok|].
  destruct (negb force && String.eqb text (last_narration self)
            && Rltb (t_check - last_narration_time self) 3.0) eqn:D.
  - unfold speak. destruct (String.eqb text ""); [exact Hok|]. now rewrite D.
  - rewrite speak_accepted; [|exact Hok | exact Hne |].
    + destruct Hok as (Hmax & Hlen). unfold engine_ok; simpl.
      split; [reflexivity|]. rewrite length_app; simpl.
      destruct (Nat.eqb_spec (List.length (q_items (phrase_q self))) 5) as [E | E].
      * destruct (q_items (phrase_q self)); simpl in *; lia.
      * lia.
    + intros Hd. apply debounced_iff in Hd. congruence.
Qed.

(** Whatever the calls, the queue holds at most five items. *)
Lemma speak_all_ok (calls : list (string * bool * R * R)) :
  forall self, engine_ok self -> engine_ok (speak_all self calls).
Proof.
  induction calls as [|c r IH]; intros self Hok; [exact Hok|].
  unfold speak_all. cbn [fold_left]. apply IH. now apply speak_ok.
Qed.

(** C8 (as amended).  For a non-empty text, on an engine whose queue has
    capacity 5: a call that repeats the last accepted text without [force]
    less than 3.0 seconds after it was accepted changes nothing, so of two
    such calls in a row only the first enqueues; any other call records the
    text and the time and puts the text last in the queue, after dropping
    the oldest item when five were queued; the queue holds at most five
    items after any sequence of calls; on a queue of five the result is the
    four newest followed by the text. *)
Theorem speak_debounce_and_bound (self : IntelligentTTSEngine) (text : string)
    (force : bool) (t_check t_accept : R) :
  engine_ok self -> text <> "" ->
  let self' := speak self text force t_check t_accept in
  let items := q_items (phrase_q self) in
  engine_ok self'
  /\ (forall calls, engine_ok (speak_all new_engine calls))
  /\ (debounced self text force t_check -> self' = self)
  /\ (~ debounced self text force t_check ->
        last_narration self' = text
        /\ last_narration_time self' = t_accept
        /\ q_items (phrase_q self')
           = (if (List.length items =? 5)%nat then tl items else items) ++ [text])
  /\ (~ debounced self text force t_check ->
        forall t_check2 t_accept2, t_check2 - t_accept < 3.0 ->
        speak self' text false t_check2 t_accept2 = self')
  /\ (~ debounced self text force t_check ->
        forall oldest rest, items = oldest :: rest -> List.length items = 5%nat ->
        q_items (phrase_q self') = rest ++ [text]
        /\ List.length (q_items (phrase_q self')) = 5%nat).
Proof.
  intros Hok Hne self' items.
  assert (Hdeb : debounced self text force t_check -> self' = self).
  { intros Hd. subst self'. unfold speak.
    destruct (String.eqb text ""); [reflexivity|].
    apply debounced_iff in Hd. now rewrite Hd. }
  assert (Hacc : ~ debounced self text force t_check ->
            self' = mkEngine
              (mkQueue ((if (List.length items =? 5)%nat then tl items else items)
                        ++ [text]) 5) text t_accept).
  { intros Hnd. now apply speak_accepted. }
  split; [|split; [|split; [exact Hdeb | split; [|split]]]].
  - subst self'. now apply speak_ok.
  - intros calls. apply speak_all_ok, new_engine_ok.
  - intros Hnd. rewrite (Hacc Hnd). simpl. auto.
  - intros Hnd t2 a2 Ht. rewrite (Hacc Hnd). unfold speak.
    destruct (String.eqb text "") eqn:E; [reflexivity|].
    cbn [last_narration last_narration_time negb andb].
    rewrite String.eqb_refl.
    assert (Hl : Rltb (t2 - t_accept) 3.0 = true) by now apply Rltb_true.
    now rewrite Hl.
  - intros Hnd oldest rest Hi Hl. rewrite (Hacc Hnd). simpl.
    rewrite Hl, Hi. simpl. split; [reflexivity|].
    rewrite Hi in Hl. simpl in Hl. rewrite length_app. simpl. lia.
Qed.

Lemma speak_debounce_and_bound_witness :
  q_items (phrase_q (speak full_engine "f" false 10 10))
    = ["b"; "c"; "d"; "e"; "f"]
  /\ speak (speak full_engine "f" false 10 10) "f" false 11 11
     = speak full_engine "f" false 10 10
  /\ speak full_engine "e" false 1 1 = full_engine.
Proof.
  assert (Hok : engine_ok full_engine) by (unfold engine_ok; simpl; split; [reflexivity | lia]).
  assert (Hf : "f" <> "") by discriminate.
  assert (He : "e" <> "") by discriminate.
  assert (Hnd : ~ debounced full_engine "f" false 10).
  { unfold debounced; simpl. intros (_ & H & _). discriminate. }
  destruct (@speak_debounce_and_bound full_engine "f" false 10 10 Hok Hf)
    as (_ & _ & _ & _ & Htwice & Hsix).
  destruct (@speak_debounce_and_bound full_engine "e" false 1 1 Hok He)
    as (_ & _ & Hdeb & _).
  split; [|split].
  - apply (Hsix Hnd "a" ["b"; "c"; "d"; "e"]); reflexivity.
  - apply (Htwice Hnd). lra.
  - apply Hdeb. unfold debounced; simpl. repeat split. lra.
Defined.

(** C8 as stated fails on the empty text: forced, hence not debounced, it
    is neither recorded nor queued. *)
Lemma speak_empty_forced_is_dropped :
  ~ debounced full_engine "" true 10
  /\ last_narration (speak full_engine "" true 10 10) <> ""
  /\ ~ In "" (q_items (phrase_q (speak full_engine "" true 10 10))).
Proof.
  split; [|split].
  - unfold debounced. intros (H & _). discriminate.
  - simpl. discriminate.
  - simpl. intros H. repeat (destruct H as [H | H]; [discriminate|]). exact H.
Qed.

(** C10.  [speak] with the empty text returns the engine as it was,
    whatever [force] is: nothing is queued, and the last accepted text and
    its time stay. *)
Theorem speak_empty_noop (self : IntelligentTTSEngine) (force : bool)
    (t_check t_accept : R) :
  speak self "" force t_check t_accept = self
  /\ q_items (phrase_q (speak self "" force t_check t_accept))
     = q_items (phrase_q self)
  /\ last_narration (speak self "" force t_check t_accept) = last_narration self
  /\ last_narration_time (speak self "" force t_check t_accept)
     = last_narration_time self.
Proof. unfold speak. simpl. auto. Qed.

(* ================================================================== *)
(** * Further properties *)

(* ------------------------------------------------------------------ *)
(** ** The overlap metric, continued *)

Lemma inter_area_le_r (a b : Box) : inter_area a b <= box_area b.
Proof. rewrite inter_area_sym. apply inter_area_le_l. Qed.

(** X1.  The overlap of two boxes lies between 0 and 1, and it is positive
    only when the boxes share a region of positive area. *)
Theorem iou_range (a b : Box) :
  0 <= iou a b <= 1 /\ (iou a b > 0 -> inter_area a b > 0).
Proof.
  pose proof (inter_area_le_l a b) as Hl.
  pose proof (inter_area_le_r a b) as Hr.
  pose proof (inter_area_nonneg a b) as Hi.
  rewrite iou_eq. unfold union_area in *.
  set (i := inter_area a b) in *. set (u := box_area a + box_area b - i).
  assert (Hiu : i <= u) by (unfold u; lra).
  destruct (Rle_dec u 0) as [Hu | Hu].
  - split; [lra|]. intros H; lra.
  - assert (Hd : 0 < u + 1e-6) by lra.
    assert (Hq : 0 <= i / (u + 1e-6)).
    { apply Rmult_le_pos; [exact Hi | apply Rlt_le, Rinv_0_lt_compat; exact Hd]. }
    split; [split; [exact Hq|]|].
    + apply (Rmult_le_reg_r (u + 1e-6)); [exact Hd|].
      unfold Rdiv. rewrite Rmult_assoc, Rinv_l by lra. lra.
    + intros H.
      destruct (Rle_lt_or_eq_dec 0 i Hi) as [Hpos | Hz]; [exact Hpos|].
      rewrite <- Hz in H. unfold Rdiv in H. rewrite Rmult_0_l in H. lra.
Qed.

Lemma iou_range_witness :
  0 <= iou (d_bbox moved_detection) (d_bbox sample_detection) <= 1
  /\ inter_area (d_bbox moved_detection) (d_bbox sample_detection) > 0.
Proof.
  destruct (iou_range (d_bbox moved_detection) (d_bbox sample_detection))
    as (H & Hp).
  split; [exact H|]. apply Hp. pose proof iou_moved_sample. lra.
Defined.

(* ------------------------------------------------------------------ *)
(** ** The tracker, continued *)

(** More of what the loop of [assign_ids] maintains. *)
Lemma loop_state_more (f : Z) (self0 : SimpleTracker) :
  tracker_ok self0 -> 0 <= iou_threshold self0 ->
  forall pre,
  let st := loop_state f self0 pre in
  let slf := fst (fst st) in
  let used := snd (fst st) in
  let assigned := snd st in
  NoDup used
  /\ (forall j, In j used ->
        In j (PyDict.keys (boxes_2d self0)) \/ (next_id self0 <= j)%Z)
  /\ (forall id td, In (id, td) assigned -> stored slf id (t_det td) f)
  /\ (forall id td, In (id, td) assigned ->
        tracked self0 id \/ t_velocity td = vzero).
Proof.
  intros Hok0 Hthr0 pre. induction pre as [|det pre IH] using rev_ind.
  - unfold loop_state; simpl. split; [constructor|]. repeat split; tauto.
  - cbv zeta in *. rewrite loop_state_snoc.
    pose proof (loop_state_inv f Hok0 Hthr0 pre) as Hinv.
    destruct (loop_state f self0 pre) as [[slf used] assigned].
    unfold loop_inv in Hinv. cbn [fst snd] in *.
    destruct Hinv as (Hok & Hused & Hdets & Hsame & Hzero & Hkeys & Hnext & Ht & Hm).
    destruct IH as (Hnd & Horig & Hst & Hvel).
    assert (Hthr : 0 <= iou_threshold slf) by (rewrite Ht; exact Hthr0).
    destruct (assign_one_step f used assigned det Hok Hthr)
      as (id & vel & slf' & Heq & Hok' & Hst' & Hoth & Hk' & Hn' & _ & _ & Hcase).
    rewrite Heq. cbn [fst snd].
    assert (Hnew : ~ In id used).
    { destruct Hcase as [((b & _ & Hu & _) & _) | (_ & Hid & Hfresh & _)];
        [exact Hu|].
      intros Hin. apply Hfresh. apply (tracked_iff_boxes id Hok).
      apply Hkeys. now right. }
    split; [now constructor|]. split; [|split].
    + intros j [<- | Hj]; [|now apply Horig].
      destruct Hcase as [((b & Hb & _) & _) | (_ & Hid & _)].
      * assert (Hin : In id (PyDict.keys (boxes_2d slf))).
        { apply PyDictFacts.contains_true_iff. unfold PyDict.contains.
          now rewrite Hb. }
        apply Hkeys in Hin. destruct Hin as [Hin | Hin]; [now left | tauto].
      * right. lia.
    + intros j td Hin. apply in_app_or in Hin. destruct Hin as [Hin | Hin].
      * assert (Hj : In j used).
        { rewrite Hused. apply -> in_rev. apply in_map_iff.
          exists (j, td). split; [reflexivity | exact Hin]. }
        assert (Hne : j <> id) by (intros ->; tauto).
        destruct (Hoth j Hne) as (E1 & E2 & E3 & E4).
        destruct (Hst j td Hin) as (S1 & S2 & S3 & S4).
        unfold stored. rewrite E1, E2, E3, E4. tauto.
      * destruct Hin as [Hin | []]. injection Hin as <- <-. exact Hst'.
    + intros j td Hin. apply in_app_or in Hin. destruct Hin as [Hin | Hin].
      * now apply (Hvel j td).
      * destruct Hin as [Hin | []]. injection Hin as <- <-. simpl.
        destruct Hcase as [((b & Hb & Hu & _) & _) | (_ & _ & _ & _ & Hv)];
          [|now right].
        left. assert (Hin : In id (PyDict.keys (boxes_2d slf))).
        { apply PyDictFacts.contains_true_iff. unfold PyDict.contains.
          now rewrite Hb. }
        apply Hkeys in Hin. destruct Hin as [Hin | Hin]; [|tauto].
        now apply (tracked_iff_boxes id Hok0).
Qed.

(** The tracker a call returns, read off the state its loop ends in. *)
Lemma assign_ids_final (self : SimpleTracker) (dets : list Detection) (f : Z) :
  tracker_ok self -> 0 <= iou_threshold self ->
  let st := loop_state f self dets in
  let s1 := fst (fst st) in
  let used := snd (fst st) in
  let self' := fst (assign_ids self dets f) in
  next_id self' = next_id s1
  /\ max_age self' = max_age self
  /\ forall i,
       match PyDict.get i (ages s1) with
       | Some n =>
           let n' := if mem i used then n else (n + 1)%Z in
           if (n' <=? max_age self)%Z
           then PyDict.get i (ages self') = Some n'
                /\ PyDict.get i (boxes_2d self') = PyDict.get i (boxes_2d s1)
                /\ PyDict.get i (positions_3d self') = PyDict.get i (positions_3d s1)
                /\ PyDict.get i (timestamps self') = PyDict.get i (timestamps s1)
           else PyDict.get i (ages self') = None
       | None => PyDict.get i (ages self') = None
       end.
Proof.
  intros Hok0 Hthr0 st s1 used self'.
  pose proof (loop_state_inv f Hok0 Hthr0 dets) as Hinv.
  subst self' s1 used st. unfold assign_ids. fold (loop_state f self dets).
  destruct (loop_state f self dets) as [[s1 used] assigned].
  unfold loop_inv in Hinv. cbn [fst snd] in *.
  destruct Hinv as (Hok & _ & _ & _ & _ & _ & _ & _ & Hm).
  destruct Hok as [Hnd Hp Hts Ha Hb].
  assert (Hnda : NoDup (PyDict.keys (ages s1))) by (now rewrite Ha).
  set (ages1 := age_unclaimed used (ages s1)).
  set (active := active_ids (max_age s1) ages1).
  assert (Hk1 : PyDict.keys ages1 = PyDict.keys (ages s1))
    by (now apply age_unclaimed_keys).
  assert (Hnd1 : NoDup (PyDict.keys ages1)) by (now rewrite Hk1).
  assert (Hact : NoDup active) by (now apply active_ids_NoDup).
  assert (Hsub : forall i, In i active -> In i (PyDict.keys ages1)).
  { intros i Hi. apply (@active_ids_in (max_age s1) ages1 i Hnd1) in Hi.
    destruct Hi as (n & Hg & _).
    apply PyDictFacts.contains_true_iff. unfold PyDict.contains. now rewrite Hg. }
  assert (Hsubb : forall i, In i active -> In i (PyDict.keys (boxes_2d s1))).
  { intros i Hi. rewrite <- Ha, <- Hk1. auto. }
  assert (Hsubp : forall i, In i active -> In i (PyDict.keys (positions_3d s1))).
  { intros i Hi. rewrite Hp. auto. }
  assert (Hsubt : forall i, In i active -> In i (PyDict.keys (timestamps s1))).
  { intros i Hi. rewrite Hts. auto. }
  cbn [next_id max_age ages boxes_2d positions_3d timestamps].
  split; [reflexivity|]. split; [exact Hm|].
  intros i. rewrite !restrict_get by assumption.
  assert (Hg1 : PyDict.get i ages1
                = match PyDict.get i (ages s1) with
                  | Some n => Some (if mem i used then n else (n + 1)%Z)
                  | None => None
                  end)
    by (now apply age_unclaimed_get).
  destruct (PyDict.get i (ages s1)) as [n|] eqn:En.
  - cbv zeta. set (n' := if mem i used then n else (n + 1)%Z) in *.
    rewrite <- Hm.
    destruct (n' <=? max_age s1)%Z eqn:Hle.
    + assert (Hin : mem i active = true).
      { apply mem_true_iff, (@active_ids_in (max_age s1) ages1 i Hnd1).
        exists n'. split; [exact Hg1 | now apply Z.leb_le]. }
      rewrite Hin. auto.
    + destruct (mem i active) eqn:Hin; [|reflexivity].
      apply mem_true_iff, (@active_ids_in (max_age s1) ages1 i Hnd1) in Hin.
      destruct Hin as (k & Hk & Hkle). rewrite Hg1 in Hk. injection Hk as <-.
      apply Z.leb_gt in Hle. lia.
  - rewrite Hg1. now destruct (mem i active).
Qed.

Lemma assign_ids_next_id (self : SimpleTracker) (dets : list Detection) (f : Z) :
  next_id (fst (assign_ids self dets f))
  = next_id (fst (fst (loop_state f self dets))).
Proof.
  unfold assign_ids. fold (loop_state f self dets).
  now destruct (loop_state f self dets) as [[s1 used] assigned].
Qed.

(** X2.  A call returns one pair per detection, in the order given and with
    the detection unchanged; the ids of one call are pairwise distinct; each
    was either tracked before the call or is at least the old counter, and
    all are below the new counter. *)
Theorem assign_ids_output_shape (self : SimpleTracker) (dets : list Detection)
    (f : Z) :
  tracker_ok self -> 0 <= iou_threshold self ->
  let out := snd (assign_ids self dets f) in
  map (fun x => t_det (snd x)) out = dets
  /\ NoDup (map fst out)
  /\ forall i, In i (map fst out) ->
       (tracked self i \/ (next_id self <= i)%Z)
       /\ (i < next_id (fst (assign_ids self dets f)))%Z.
Proof.
  intros Hok0 Hthr0 out. subst out.
  rewrite assign_ids_out, assign_ids_next_id.
  pose proof (loop_state_inv f Hok0 Hthr0 dets) as Hinv.
  pose proof (loop_state_more f Hok0 Hthr0 dets) as Hmore.
  cbv zeta in Hmore.
  destruct (loop_state f self dets) as [[s1 used] assigned].
  unfold loop_inv in Hinv. cbn [fst snd] in *.
  destruct Hinv as (Hok & Hused & Hdets & _ & _ & Hkeys & _).
  destruct Hmore as (Hnd & Horig & _).
  assert (Hu : forall i, In i (map fst assigned) -> In i used).
  { intros i Hi. rewrite Hused. now apply -> in_rev. }
  split; [exact Hdets|]. split.
  - rewrite <- (rev_involutive (map fst assigned)), <- Hused.
    now apply NoDup_rev.
  - intros i Hi. apply Hu in Hi. split.
    + destruct (Horig i Hi) as [H | H]; [left | now right].
      now apply (tracked_iff_boxes i Hok0).
    + apply (ok_below Hok). apply Hkeys. now right.
Qed.

Lemma assign_ids_output_shape_witness :
  let out := snd (assign_ids (one_track 30) [moved_detection; other_detection] 3) in
  map (fun x => t_det (snd x)) out = [moved_detection; other_detection]
  /\ NoDup (map fst out)
  /\ forall i, In i (map fst out) ->
       (tracked (one_track 30) i \/ (next_id (one_track 30) <= i)%Z)
       /\ (i < next_id (fst (assign_ids (one_track 30)
                               [moved_detection; other_detection] 3)))%Z.
Proof.
  apply (@assign_ids_output_shape (one_track 30)
           [moved_detection; other_detection] 3 (one_track_ok 30)).
  simpl. lra.
Defined.

(** X3.  At the end of a call with a non-negative [max_age], the track of
    every id the call returned holds the box and position of the detection
    it was returned with, the frame of the call, and age 0. *)
Theorem assign_ids_stores_claimed (self : SimpleTracker) (dets : list Detection)
    (f : Z) :
  tracker_ok self -> 0 <= iou_threshold self -> (0 <= max_age self)%Z ->
  forall id td, In (id, td) (snd (assign_ids self dets f)) ->
    stored (fst (assign_ids self dets f)) id (t_det td) f.
Proof.
  intros Hok0 Hthr0 Hmax id td Hin. rewrite assign_ids_out in Hin.
  pose proof (loop_state_inv f Hok0 Hthr0 dets) as Hinv.
  pose proof (loop_state_more f Hok0 Hthr0 dets) as Hmore.
  destruct (assign_ids_final dets f Hok0 Hthr0) as (_ & _ & Hfin).
  cbv zeta in Hmore, Hfin. specialize (Hfin id).
  destruct (loop_state f self dets) as [[s1 used] assigned].
  unfold loop_inv in Hinv. cbn [fst snd] in *.
  destruct Hinv as (_ & Hused & _).
  destruct Hmore as (_ & _ & Hst & _).
  destruct (Hst id td Hin) as (S1 & S2 & S3 & S4).
  assert (Hu : mem id used = true).
  { apply mem_true_iff. rewrite Hused. apply -> in_rev. apply in_map_iff.
    exists (id, td). split; [reflexivity | exact Hin]. }
  rewrite S4, Hu in Hfin.
  assert (Hle : (0 <=? max_age self)%Z = true) by now apply Z.leb_le.
  rewrite Hle in Hfin. destruct Hfin as (F4 & F1 & F2 & F3).
  unfold stored. rewrite F1, F2, F3, F4. tauto.
Qed.

Lemma assign_ids_stores_claimed_witness :
  stored (fst (assign_ids (one_track 30) [moved_detection] 3)) 0%Z
         moved_detection 3.
Proof.
  assert (Hthr : 0 <= iou_threshold (one_track 30)) by (simpl; lra).
  assert (Hmax : (0 <= max_age (one_track 30))%Z) by (simpl; lia).
  apply (@assign_ids_stores_claimed (one_track 30) [moved_detection] 3
           (one_track_ok 30) Hthr Hmax 0%Z
           (mkTracked moved_detection
              (vdiv (vsub (d_position moved_detection)
                          (d_position sample_detection)) (IZR 2)))).
  rewrite assign_ids_out. unfold loop_state. cbn [fold_left].
  unfold assign_one. cbv zeta.
  assert (Hm : find_match (iou_threshold (one_track 30)) []
                 (d_bbox moved_detection) (boxes_2d (one_track 30))
               = (Some 0%Z, iou (d_bbox moved_detection) (d_bbox sample_detection))).
  { unfold find_match, one_track. cbn [boxes_2d iou_threshold fold_left].
    unfold match_step. cbn [fst snd mem existsb].
    assert (H1 : Rgtb (iou (d_bbox moved_detection) (d_bbox sample_detection)) 0.3
                 = true) by (apply Rgtb_true, iou_moved_sample).
    assert (H2 : Rgtb (iou (d_bbox moved_detection) (d_bbox sample_detection)) 0
                 = true).
    { apply Rgtb_true. pose proof iou_moved_sample. lra. }
    now rewrite H1, H2. }
  rewrite Hm. simpl. left. reflexivity.
Defined.

(* ------------------------------------------------------------------ *)
(** ** The tracker: one detection of a call *)






Lemma assign_ids_keeps_range (self : SimpleTracker) (dets : list Detection)
    (f : Z) :
  tracker_ok self -> 0 <= iou_threshold self ->
  (forall i a, PyDict.get i (ages self) = Some a -> (0 <= a)%Z) ->
  ages_in_range (fst (assign_ids self dets f)).
Proof.
  intros Hok0 Hthr0 Hpos i a Hg.
  pose proof (loop_state_inv f Hok0 Hthr0 dets) as Hinv.
  destruct (assign_ids_final dets f Hok0 Hthr0) as (_ & Hm & Hfin).
  cbv zeta in Hfin. specialize (Hfin i). rewrite Hm.
  destruct (loop_state f self dets) as [[s1 used] assigned].
  unfold loop_inv in Hinv. cbn [fst snd] in *.
  destruct Hinv as (_ & _ & _ & Hsame & Hzero & _).
  destruct (PyDict.get i (ages s1)) as [n|] eqn:En; [|congruence].
  assert (Hn : (0 <= (if mem i used then n else n + 1))%Z).
  { destruct (mem i used) eqn:Hu.
    - apply mem_true_iff in Hu. rewrite (Hzero i Hu) in En.
      injection En as <-. lia.
    - apply mem_false_iff in Hu. destruct (Hsame i Hu) as (_ & _ & _ & Ea).
      rewrite Ea in En. apply Hpos in En. lia. }
  destruct ((if mem i used then n else n + 1) <=? max_age self)%Z eqn:Hle.
  - destruct Hfin as (Hfin & _). rewrite Hfin in Hg. injection Hg as <-.
    apply Z.leb_le in Hle. lia.
  - congruence.
Qed.

Lemma run_frames_invariant (frames : list (list Detection * Z)) :
  forall self,
  tracker_ok self -> 0 <= iou_threshold self -> ages_in_range self ->
  tracker_ok (run_frames self frames)
  /\ ages_in_range (run_frames self frames)
  /\ max_age (run_frames self frames) = max_age self
  /\ iou_threshold (run_frames self frames) = iou_threshold self
  /\ (next_id self <= next_id (run_frames self frames))%Z.
Proof.
  induction frames as [|[dets f] rest IH]; intros self Hok Hthr Hr.
  - simpl. split; [exact Hok|]. split; [exact Hr|].
    split; [reflexivity|]. split; [reflexivity | lia].
  - cbn [run_frames].
    destruct (assign_ids_effect dets f Hok Hthr)
      as (Hok' & Hm & Ht & Hn & _). cbv zeta in *.
    assert (Hr' : ages_in_range (fst (assign_ids self dets f))).
    { apply assign_ids_keeps_range; auto. intros i a Hg. now apply (Hr i a). }
    assert (Hthr' : 0 <= iou_threshold (fst (assign_ids self dets f)))
      by (rewrite Ht; exact Hthr).
    destruct (IH _ Hok' Hthr' Hr') as (A & B & C & D & E).
    split; [exact A|]. split; [exact B|].
    split; [congruence|]. split; [congruence | lia].
Qed.

(** X4.  Whatever the frames fed to a new tracker with a non-negative
    threshold, its four dictionaries keep holding the same ids in the same
    order, each once and below the counter, and every age stays between 0
    and [max_age]. *)
Theorem reachable_tracker_invariant (thr : R) (m : Z)
    (frames : list (list Detection * Z)) :
  0 <= thr ->
  let t := run_frames (new_tracker thr m) frames in
  tracker_ok t /\ ages_in_range t /\ max_age t = m /\ iou_threshold t = thr.
Proof.
  intros Hthr t. subst t.
  destruct (@run_frames_invariant frames (new_tracker thr m))
    as (A & B & C & D & _).
  - apply new_tracker_ok.
  - exact Hthr.
  - intros i a H. discriminate.
  - auto.
Qed.

Lemma reachable_tracker_invariant_witness :
  let t := run_frames (new_tracker 0.3 30)
             [([sample_detection], 1%Z); ([moved_detection], 2%Z)] in
  tracker_ok t /\ ages_in_range t /\ max_age t = 30%Z /\ iou_threshold t = 0.3.
Proof.
  apply (@reachable_tracker_invariant 0.3 30). lra.
Defined.

Lemma assign_ids_not_reissued (self : SimpleTracker) (dets : list Detection)
    (f : Z) (i : Z) :
  tracker_ok self -> 0 <= iou_threshold self ->
  ~ tracked self i -> (i < next_id self)%Z ->
  ~ In i (map fst (snd (assign_ids self dets f))).
Proof.
  intros Hok0 Hthr0 Hnt Hlt Hin. rewrite assign_ids_out in Hin.
  pose proof (loop_state_inv f Hok0 Hthr0 dets) as Hinv.
  pose proof (loop_state_more f Hok0 Hthr0 dets) as Hmore.
  cbv zeta in Hmore.
  destruct (loop_state f self dets) as [[s1 used] assigned].
  unfold loop_inv in Hinv. cbn [fst snd] in *.
  destruct Hinv as (_ & Hused & _). destruct Hmore as (_ & Horig & _).
  assert (Hu : In i used) by (rewrite Hused; now apply -> in_rev).
  destruct (Horig i Hu) as [H | H]; [|lia].
  apply Hnt. now apply (tracked_iff_boxes i Hok0).
Qed.

(** X5.  Ids are not reused: an id below the counter that the tracker does
    not hold (a purged track) is never returned by a later call and never
    enters the tracker again. *)
Theorem ids_never_reused (i : Z) (frames : list (list Detection * Z)) :
  forall self,
  tracker_ok self -> 0 <= iou_threshold self ->
  ~ tracked self i -> (i < next_id self)%Z ->
  (forall ids, In ids (run_outputs self frames) -> ~ In i ids)
  /\ ~ tracked (run_frames self frames) i.
Proof.
  induction frames as [|[dets f] rest IH]; intros self Hok Hthr Hnt Hlt.
  - simpl. tauto.
  - cbn [run_frames run_outputs].
    pose proof (assign_ids_not_reissued dets f Hok Hthr Hnt Hlt) as Hout.
    destruct (assign_ids_effect dets f Hok Hthr)
      as (Hok' & _ & Ht & Hn & _ & _ & Hgone & _). cbv zeta in *.
    assert (Hthr' : 0 <= iou_threshold (fst (assign_ids self dets f)))
      by (rewrite Ht; exact Hthr).
    assert (Hnt' : ~ tracked (fst (assign_ids self dets f)) i)
      by (now apply Hgone).
    assert (Hlt' : (i < next_id (fst (assign_ids self dets f)))%Z) by lia.
    destruct (IH _ Hok' Hthr' Hnt' Hlt') as (A & B).
    split; [|exact B].
    intros ids [<- | Hids]; [exact Hout | now apply A].
Qed.

Lemma purged_tracker_ok : tracker_ok purged_tracker.
Proof. constructor; simpl; auto; [constructor | tauto]. Qed.

Lemma ids_never_reused_witness :
  (forall ids,
     In ids (run_outputs purged_tracker
               [([sample_detection], 5%Z); ([moved_detection], 6%Z)]) ->
     ~ In 0%Z ids)
  /\ ~ tracked (run_frames purged_tracker
                  [([sample_detection], 5%Z); ([moved_detection], 6%Z)]) 0%Z.
Proof.
  apply (@ids_never_reused 0%Z
           [([sample_detection], 5%Z); ([moved_detection], 6%Z)]
           purged_tracker purged_tracker_ok).
  - simpl. lra.
  - unfold tracked. simpl. tauto.
  - simpl. lia.
Defined.

Lemma ids_from_snoc (n : Z) (k : nat) :
  ids_from n (S k) = ids_from n k ++ [(n + Z.of_nat k)%Z].
Proof. unfold ids_from. now rewrite seq_S, map_app. Qed.

(** X6.  On a tracker that holds no track, the detections of a call get the
    consecutive ids [next_id], [next_id + 1], ... in input order, whether
    or not their boxes overlap one another, each with zero velocity. *)
Theorem empty_tracker_sequential_ids (self : SimpleTracker)
    (dets : list Detection) (f : Z) :
  tracker_ok self -> 0 <= iou_threshold self ->
  PyDict.keys (boxes_2d self) = [] ->
  let out := snd (assign_ids self dets f) in
  map fst out = ids_from (next_id self) (List.length dets)
  /\ (forall x, In x out -> t_velocity (snd x) = vzero)
  /\ next_id (fst (assign_ids self dets f))
     = (next_id self + Z.of_nat (List.length dets))%Z.
Proof.
  intros Hok0 Hthr0 Hempty out. subst out.
  rewrite assign_ids_out, assign_ids_next_id.
  assert (Hids : forall pre,
            map fst (snd (loop_state f self pre))
              = ids_from (next_id self) (List.length pre)
            /\ next_id (fst (fst (loop_state f self pre)))
               = (next_id self + Z.of_nat (List.length pre))%Z).
  { induction pre as [|det pre IH] using rev_ind; [split; simpl; [reflexivity | lia]|].
    rewrite loop_state_snoc.
    pose proof (loop_state_inv f Hok0 Hthr0 pre) as Hinv.
    destruct (loop_state f self pre) as [[slf used] assigned].
    unfold loop_inv in Hinv. cbn [fst snd] in *.
    destruct Hinv as (Hok & Hused & _ & _ & _ & Hkeys & _ & Ht & _).
    destruct IH as (IHids & IHn).
    assert (Hthr : 0 <= iou_threshold slf) by (rewrite Ht; exact Hthr0).
    destruct (assign_one_step f used assigned det Hok Hthr)
      as (id & vel & slf' & Heq & _ & _ & _ & _ & _ & _ & _ & Hcase).
    rewrite Heq. cbn [fst snd].
    rewrite length_app, Nat.add_1_r, ids_from_snoc, map_app, IHids. simpl.
    destruct Hcase as [((b & Hb & Hu & _) & _) | (_ & Hid & _ & Hn & _)].
    - exfalso. assert (Hin : In id (PyDict.keys (boxes_2d slf))).
      { apply PyDictFacts.contains_true_iff. unfold PyDict.contains.
        now rewrite Hb. }
      apply Hkeys in Hin. rewrite Hempty in Hin. simpl in Hin. tauto.
    - split; [now rewrite Hid, IHn | lia]. }
  destruct (Hids dets) as (H1 & H2).
  split; [exact H1|]. split; [|exact H2].
  intros [id td] Hin. simpl.
  pose proof (loop_state_more f Hok0 Hthr0 dets) as Hmore. cbv zeta in Hmore.
  destruct Hmore as (_ & _ & _ & Hvel).
  destruct (Hvel id td Hin) as [Htr | Hv]; [|exact Hv].
  apply (tracked_iff_boxes id Hok0) in Htr. rewrite Hempty in Htr. destruct Htr.
Qed.

Lemma empty_tracker_sequential_ids_witness :
  let out := snd (assign_ids purged_tracker
                    [sample_detection; moved_detection] 5) in
  map fst out = [1%Z; 2%Z]
  /\ (forall x, In x out -> t_velocity (snd x) = vzero)
  /\ next_id (fst (assign_ids purged_tracker
                     [sample_detection; moved_detection] 5)) = 3%Z.
Proof.
  assert (Hthr : 0 <= iou_threshold purged_tracker) by (simpl; lra).
  apply (@empty_tracker_sequential_ids purged_tracker
           [sample_detection; moved_detection] 5 purged_tracker_ok Hthr).
  reflexivity.
Defined.

(** X7.  Ties go to the track met first: when the inner loop settles on a
    track, every unclaimed track before it in the dictionary overlaps the
    detection strictly less. *)
Theorem find_match_first_best (thr : R) (used : list Z) (det_bbox : Box)
    (l1 l2 : PyDict.t Box) (i : Z) (b : Box) :
  NoDup (PyDict.keys (l1 ++ (i, b) :: l2)) ->
  fst (find_match thr used det_bbox (l1 ++ (i, b) :: l2)) = Some i ->
  forall j bj, In (j, bj) l1 -> ~ In j used ->
               iou det_bbox bj < iou det_bbox b.
Proof.
  intros Hnd Hres j bj Hin Hj.
  unfold PyDict.keys in Hnd. rewrite map_app in Hnd. simpl in Hnd.
  pose proof (NoDup_remove_2 _ _ _ Hnd) as Hni.
  assert (Hni1 : ~ In i (map fst l1)) by (intros H; apply Hni, in_or_app; now left).
  assert (Hni2 : ~ In i (map fst l2)) by (intros H; apply Hni, in_or_app; now right).
  unfold find_match in Hres. rewrite fold_left_app in Hres. cbn [fold_left] in Hres.
  destruct (match_fold thr used det_bbox l1 (None, 0)) as (_ & Hall1 & Hres1).
  cbv zeta in Hall1, Hres1.
  set (acc1 := fold_left (match_step thr used det_bbox) l1 (None, 0)) in *.
  assert (Hacc1 : fst acc1 <> Some i).
  { destruct Hres1 as [-> | (i' & b' & E & Hin' & _)]; [discriminate|].
    rewrite E. intros [= ->]. apply Hni1.
    change i with (fst (i, b')). now apply in_map. }
  destruct (match_fold thr used det_bbox l2
              (match_step thr used det_bbox acc1 (i, b))) as (_ & _ & Hres2).
  cbv zeta in Hres2.
  destruct Hres2 as [Hr | (i' & b' & E & Hin' & _)].
  2:{ rewrite E in Hres. injection Hres as ->. exfalso. apply Hni2.
      change i with (fst (i, b')). now apply in_map. }
  rewrite Hr in Hres. unfold match_step in Hres. cbn [fst snd] in Hres.
  destruct (mem i used); [congruence|].
  destruct (Rgtb (iou det_bbox b) thr && Rgtb (iou det_bbox b) (snd acc1)) eqn:E;
    [|congruence].
  apply andb_true_iff in E. destruct E as (E1 & E2).
  apply Rgtb_true in E1, E2.
  destruct (Rgt_dec (iou det_bbox bj) thr) as [Hgt | Hle].
  - assert (Hu : mem j used = false) by now apply mem_false_iff.
    specialize (Hall1 j bj Hin Hu Hgt). lra.
  - lra.
Qed.

Lemma iou_moved_other :
  iou (d_bbox moved_detection) (d_bbox other_detection) = 0.
Proof.
  rewrite iou_eq, inter_area_disjoint.
  - destruct (Rle_dec _ _); [reflexivity | unfold Rdiv; lra].
  - unfold non_overlapping; simpl. lra.
Qed.

Lemma find_match_first_best_witness :
  iou (d_bbox moved_detection) (d_bbox other_detection)
  < iou (d_bbox moved_detection) (d_bbox sample_detection).
Proof.
  apply (@find_match_first_best 0.3 [] (d_bbox moved_detection)
           [(0%Z, d_bbox other_detection)] [] 1%Z (d_bbox sample_detection))
    with (j := 0%Z).
  - simpl. constructor; [|constructor; [|constructor]]; simpl; intuition lia.
  - unfold find_match. cbn [app fold_left]. unfold match_step.
    cbn [fst snd mem existsb]. rewrite iou_moved_other.
    assert (H0 : Rgtb 0 0.3 = false) by (apply Rgtb_false; lra).
    rewrite H0. cbn [andb fst snd].
    assert (H1 : Rgtb (iou (d_bbox moved_detection) (d_bbox sample_detection)) 0.3
                 = true) by (apply Rgtb_true, iou_moved_sample).
    assert (H2 : Rgtb (iou (d_bbox moved_detection) (d_bbox sample_detection)) 0
                 = true).
    { apply Rgtb_true. pose proof iou_moved_sample. lra. }
    now rewrite H1, H2.
  - now left.
  - simpl. tauto.
Defined.

(* ------------------------------------------------------------------ *)
(** ** Tracker and mental map together *)

Lemma upsert_all_each (now : R) (tr : list (Z * TrackedDetection))
    (m : PyDict.t MapEntry) (i : Z) (det : TrackedDetection) :
  NoDup (map fst tr) -> In (i, det) tr ->
  PyDict.get i (upsert_all tr now m) = Some (entry_of det now).
Proof.
  intros Hnd Hin.
  destruct (upsert_all_get now i tr m) as (_ & H).
  destruct H as (det' & Hin' & Hg).
  { change i with (fst (i, det)). now apply in_map. }
  rewrite Hg. f_equal. f_equal.
  clear Hg. induction tr as [|[k d] r IH]; [destruct Hin|].
  simpl in Hnd. inversion Hnd as [|? ? Hni Hnd']; subst.
  destruct Hin as [E | Hin]; destruct Hin' as [E' | Hin'].
  - congruence.
  - injection E as -> ->. exfalso. apply Hni.
    change i with (fst (i, det')). now apply in_map.
  - injection E' as -> ->. exfalso. apply Hni.
    change i with (fst (i, det)). now apply in_map.
  - now apply IH.
Qed.

(** X8.  Feeding the pairs a call of [assign_ids] returns to [update], on a
    map with a non-negative retention window, leaves every returned id in
    the map with the class, position and velocity of its detection, stamped
    with the clock reading of the update. *)
Theorem track_then_update (self : SimpleTracker) (dets : list Detection)
    (f : Z) (mm : MentalMap3D) (now : R) :
  tracker_ok self -> 0 <= iou_threshold self ->
  NoDup (PyDict.keys (mm_map mm)) -> 0 <= keep_seconds mm ->
  forall id td, In (id, td) (snd (assign_ids self dets f)) ->
    PyDict.get id (mm_map (update mm (snd (assign_ids self dets f)) now))
    = Some (mkEntry (d_class (t_det td)) (d_position (t_det td))
                    (t_velocity td) now).
Proof.
  intros Hok Hthr Hnd Hkeep id td Hin.
  pose proof (loop_state_inv f Hok Hthr dets) as Hinv.
  pose proof (loop_state_more f Hok Hthr dets) as Hmore. cbv zeta in Hmore.
  assert (Hids : NoDup (map fst (snd (assign_ids self dets f)))).
  { rewrite assign_ids_out.
    destruct (loop_state f self dets) as [[s1 used] assigned].
    unfold loop_inv in Hinv. cbn [fst snd] in *.
    destruct Hinv as (_ & Hused & _). destruct Hmore as (Hndu & _).
    rewrite <- (rev_involutive (map fst assigned)), <- Hused.
    now apply NoDup_rev. }
  rewrite update_get by exact Hnd.
  rewrite (@upsert_all_each now _ (mm_map mm) id td Hids Hin).
  assert (Hfresh : Rleb (now - e_last_seen (entry_of td now)) (keep_seconds mm)
                   = true).
  { apply Rleb_true. simpl. lra. }
  now rewrite Hfresh.
Qed.

Lemma track_then_update_witness :
  PyDict.get 1%Z
    (mm_map (update default_mental_map
               (snd (assign_ids purged_tracker [sample_detection] 5)) 100))
  = Some (mkEntry "person" (mkVec3 0 0 2) vzero 100).
Proof.
  assert (Hthr : 0 <= iou_threshold purged_tracker) by (simpl; lra).
  assert (Hnd : NoDup (PyDict.keys (mm_map default_mental_map)))
    by (simpl; constructor).
  assert (Hkeep : 0 <= keep_seconds default_mental_map) by (simpl; lra).
  apply (@track_then_update purged_tracker [sample_detection] 5
           default_mental_map 100 purged_tracker_ok Hthr Hnd Hkeep
           1%Z (mkTracked sample_detection vzero)).
  simpl. now left.
Defined.

(* ------------------------------------------------------------------ *)
(** ** The ranker, continued *)

Lemma insert_desc_length (x : Scored) (l : list Scored) :
  List.length (insert_desc x l) = S (List.length l).
Proof.
  induction l as [|y r IH]; simpl; [reflexivity|].
  destruct (Rltb (sc_key x) (sc_key y)); simpl; [now rewrite IH | reflexivity].
Qed.

Lemma sort_desc_length (l : list Scored) :
  List.length (sort_desc l) = List.length l.
Proof.
  induction l as [|x r IH]; simpl; [reflexivity|].
  now rewrite insert_desc_length, IH.
Qed.

(** The size of the slice the ranker returns. *)
Lemma prioritize_length_eq (mental_map : PyDict.t MapEntry) (top_n : Z) :
  Z.of_nat (List.length (prioritize_objects mental_map top_n))
  = if (top_n <? 0)%Z
    then Z.max 0 (Z.of_nat (List.length mental_map) + top_n)
    else Z.min top_n (Z.of_nat (List.length mental_map)).
Proof.
  unfold prioritize_objects, slice_to. cbv zeta.
  rewrite length_map.
  set (s := sort_desc _).
  assert (Hs : List.length s = List.length mental_map).
  { unfold s. now rewrite sort_desc_length, length_map. }
  destruct (top_n <? 0)%Z eqn:E.
  - apply Z.ltb_lt in E. rewrite length_firstn, Hs. lia.
  - apply Z.ltb_ge in E. rewrite length_firstn, Hs. lia.
Qed.

(** X9.  The number of entries [prioritize_objects] returns: with
    [top_n >= 0] it is the smaller of [top_n] and the size of the map, so
    nothing when [top_n = 0] and everything when [top_n] reaches the size;
    with [top_n < 0] the slice counts from the end and the [-top_n] lowest
    entries are left out. *)
Theorem prioritize_objects_length (mental_map : PyDict.t MapEntry) (top_n : Z) :
  Z.of_nat (List.length (prioritize_objects mental_map top_n))
  = if (top_n <? 0)%Z
    then Z.max 0 (Z.of_nat (List.length mental_map) + top_n)
    else Z.min top_n (Z.of_nat (List.length mental_map)).
Proof. apply prioritize_length_eq. Qed.

Lemma filter_insert_desc (p : Scored -> bool) (x : Scored) (l : list Scored) :
  (forall y, p x = true -> p y = true -> sc_key y = sc_key x) ->
  filter p (insert_desc x l) = filter p (x :: l).
Proof.
  intros Hp. induction l as [|y r IH]; [reflexivity|].
  cbn [insert_desc]. destruct (Rltb (sc_key x) (sc_key y)) eqn:E; [|reflexivity].
  apply Rltb_true in E. cbn [filter]. rewrite IH. cbn [filter].
  destruct (p x) eqn:Px; [|reflexivity].
  destruct (p y) eqn:Py; [|reflexivity].
  specialize (Hp y eq_refl Py). lra.
Qed.

Lemma filter_sort_desc (p : Scored -> bool) (l : list Scored) :
  (forall x y, p x = true -> p y = true -> sc_key y = sc_key x) ->
  filter p (sort_desc l) = filter p l.
Proof.
  intros Hp. induction l as [|x r IH]; [reflexivity|].
  cbn [sort_desc fold_right]. fold (sort_desc r).
  rewrite filter_insert_desc by (intros y; apply Hp).
  cbn [filter]. now rewrite IH.
Qed.

(** X10.  The sort is stable: for a non-negative [top_n], the returned
    entries of any one score come in the order the map holds them, ahead of
    the entries of that score that were cut off. *)
Theorem prioritize_objects_stable (mental_map : PyDict.t MapEntry) (top_n : Z)
    (k : R) :
  (0 <= top_n)%Z ->
  exists cut,
    with_score k mental_map
    = with_score k (prioritize_objects mental_map top_n) ++ cut.
Proof.
  intros Hn. unfold prioritize_objects. cbv zeta.
  rewrite slice_to_nonneg by exact Hn.
  set (scored := map (fun kv => (score (snd kv), fst kv, snd kv)) mental_map).
  set (proj := fun x : Scored => (snd (fst x), snd x)).
  set (n := Z.to_nat top_n).
  set (p := fun x : Scored => if Req_dec_T (sc_key x) k then true else false).
  assert (Hkey : forall l : list Scored,
            (forall x, In x l -> sc_key x = score (snd x)) ->
            with_score k (map proj l) = map proj (filter p l)).
  { induction l as [|x r IH]; intros Hx; [reflexivity|].
    assert (E : score (snd (proj x)) = sc_key x).
    { unfold proj; simpl. symmetry. apply Hx. now left. }
    assert (IH' : with_score k (map proj r) = map proj (filter p r))
      by (apply IH; intros y Hy; apply Hx; now right).
    assert (Hpx : (if Req_dec_T (score (snd (proj x))) k then true else false)
                  = p x).
    { unfold p. destruct (Req_dec_T (score (snd (proj x))) k) as [A | A];
        destruct (Req_dec_T (sc_key x) k) as [B | B];
        try reflexivity; exfalso; congruence. }
    unfold with_score in *. cbn [map filter]. rewrite IH', Hpx.
    destruct (p x); reflexivity. }
  assert (Hsc : forall x, In x scored -> sc_key x = score (snd x)).
  { intros x Hx. unfold scored in Hx. apply in_map_iff in Hx.
    destruct Hx as (kv & <- & _). reflexivity. }
  assert (Hso : forall x, In x (sort_desc scored) -> sc_key x = score (snd x)).
  { intros x Hx. apply Hsc.
    apply (Permutation_in _ (Permutation_sym (sort_desc_perm scored))), Hx. }
  assert (Hproj : map proj scored = mental_map).
  { unfold scored, proj. rewrite map_map. simpl.
    rewrite <- (map_id mental_map) at 2. apply map_ext. now intros [i v]. }
  exists (map proj (filter p (skipn n (sort_desc scored)))).
  rewrite <- Hproj at 1. rewrite (Hkey scored Hsc).
  rewrite Hkey.
  2:{ intros x Hx. apply Hso. rewrite <- (firstn_skipn n (sort_desc scored)).
      apply in_or_app. now left. }
  rewrite <- map_app, <- filter_app, firstn_skipn.
  f_equal. symmetry. apply filter_sort_desc.
  intros x y Px Py. unfold p in Px, Py.
  destruct (Req_dec_T (sc_key x) k); [|discriminate].
  destruct (Req_dec_T (sc_key y) k); [congruence | discriminate].
Qed.

Lemma prioritize_objects_stable_witness :
  exists cut,
    with_score (score (mkEntry "bench" (mkVec3 2 0 1) vzero 0)) tied_map
    = with_score (score (mkEntry "bench" (mkVec3 2 0 1) vzero 0))
                 (prioritize_objects tied_map 5) ++ cut.
Proof.
  apply (@prioritize_objects_stable tied_map 5%Z). lia.
Defined.

(* ------------------------------------------------------------------ *)
(** ** The situation analyser and the narration, continued *)

Lemma direction_ahead_iff (x : R) :
  String.eqb (direction_of x) "ahead" = true <-> -0.5 <= x <= 0.5.
Proof.
  unfold direction_of.
  destruct (Rltb x (-0.5)) eqn:E1.
  - apply Rltb_true in E1. split; [discriminate | lra].
  - apply Rltb_false in E1. destruct (Rgtb x 0.5) eqn:E2.
    + apply Rgtb_true in E2. split; [discriminate | lra].
    + apply Rgtb_false in E2. split; [lra | reflexivity].
Qed.

Lemma placements_eq (info : MapEntry) :
  placements info
  = if (is_moving info && Rltb (norm (e_position info)) 4.0)
       || (negb (is_moving info)
           && String.eqb (direction_of (vx (e_position info))) "ahead"
           && Rltb (norm (e_position info)) 3.0)
    then 1%nat else 0%nat.
Proof.
  unfold placements, contribution, analyze_entry, is_approaching. cbv zeta.
  destruct (is_moving info) eqn:Hm; cbn [negb andb orb].
  - destruct (Rltb (vz (e_velocity info)) (-0.02)
              && Rltb (norm (e_position info)) 3.0) eqn:E.
    + apply andb_true_iff in E. destruct E as (_ & E).
      apply Rltb_true in E.
      assert (H4 : Rltb (norm (e_position info)) 4.0 = true)
        by (apply Rltb_true; lra).
      rewrite H4. reflexivity.
    + destruct (Rltb (norm (e_position info)) 4.0); reflexivity.
  - destruct (String.eqb (direction_of (vx (e_position info))) "ahead"
              && Rltb (norm (e_position info)) 3.0); reflexivity.
Qed.

(** X11.  Which entries the analyser reports at all: an entry lands in one
    of the three buckets exactly when it moves and is closer than 4.0, or
    stands still within 0.5 of the axis and closer than 3.0; any other entry
    is in no bucket. *)
Theorem entry_reported_iff (info : MapEntry) :
  let reported :=
    (norm (e_velocity info) > 0.05 /\ norm (e_position info) < 4.0)
    \/ (~ norm (e_velocity info) > 0.05
        /\ -0.5 <= vx (e_position info) <= 0.5
        /\ norm (e_position info) < 3.0) in
  (placements info = 1%nat <-> reported)
  /\ (placements info = 0%nat <-> ~ reported).
Proof.
  cbv zeta. rewrite placements_eq. unfold is_moving.
  destruct (Rgtb (norm (e_velocity info)) 0.05) eqn:Hm; cbn [negb andb orb].
  - apply Rgtb_true in Hm.
    destruct (Rltb (norm (e_position info)) 4.0) eqn:H4.
    + apply Rltb_true in H4. split; split; intros H; auto; try discriminate.
      exfalso. apply H. left. tauto.
    + apply Rltb_false in H4. split; split; intros H; auto; try discriminate.
      * destruct H as [(_ & H) | (H & _)]; tauto.
      * intros [(_ & H') | (H' & _)]; tauto.
  - apply Rgtb_false in Hm.
    destruct (String.eqb (direction_of (vx (e_position info))) "ahead") eqn:Hd;
      cbn [andb].
    + apply direction_ahead_iff in Hd.
      destruct (Rltb (norm (e_position info)) 3.0) eqn:H3.
      * apply Rltb_true in H3. split; split; intros H; auto; try discriminate.
        exfalso. apply H. right. tauto.
      * apply Rltb_false in H3. split; split; intros H; auto; try discriminate.
        -- destruct H as [(H & _) | (_ & _ & H)]; tauto.
        -- intros [(H' & _) | (_ & _ & H')]; tauto.
    + assert (Hn : ~ -0.5 <= vx (e_position info) <= 0.5).
      { intros H. apply direction_ahead_iff in H. congruence. }
      split; split; intros H; auto; try discriminate.
      * destruct H as [(H & _) | (_ & H & _)]; tauto.
      * intros [(H' & _) | (_ & H' & _)]; tauto.
Qed.

Lemma flat_map_nil (A B : Type) (g : A -> list B) (l : list A) :
  (forall x, In x l -> g x = []) -> flat_map g l = [].
Proof.
  induction l as [|x r IH]; intros H; simpl; [reflexivity|].
  rewrite (H x) by now left. apply IH. intros y Hy. apply H. now right.
Qed.

(** X12.  When no entry of the map is reported, the narration is the fixed
    phrase that the path is clear, whatever the path status: also when the
    corridor test finds the path blocked. *)
Theorem unreported_map_narrates_clear (mental_map : PyDict.t MapEntry) :
  (forall i info, In (i, info) mental_map -> placements info = 0%nat) ->
  generate_contextual_narration (analyze_situation mental_map)
  = "Path is clear, no immediate hazards".
Proof.
  intros Hnone.
  destruct (analyze_fold mental_map empty_situation) as (Hu & Hm & Ho).
  simpl in Hu, Hm, Ho.
  assert (Hz : forall kv, In kv mental_map ->
             urgent_alerts (contribution (snd kv)) = []
             /\ moving_objects (contribution (snd kv)) = []
             /\ obstacles (contribution (snd kv)) = []).
  { intros [i info] Hin. specialize (Hnone i info Hin).
    unfold placements in Hnone. simpl.
    destruct (urgent_alerts (contribution info));
      destruct (moving_objects (contribution info));
      destruct (obstacles (contribution info)); simpl in Hnone;
      try discriminate; auto. }
  rewrite flat_map_nil in Hu by (intros kv Hkv; apply (Hz kv Hkv)).
  rewrite flat_map_nil in Hm by (intros kv Hkv; apply (Hz kv Hkv)).
  rewrite flat_map_nil in Ho by (intros kv Hkv; apply (Hz kv Hkv)).
  unfold generate_contextual_narration, hazard_parts, analyze_situation.
  cbn [urgent_alerts moving_objects obstacles].
  rewrite Hu, Hm, Ho. reflexivity.
Qed.

Lemma offcentre_unreported : placements offcentre_entry = 0%nat.
Proof.
  rewrite placements_eq. unfold is_moving.
  assert (Hm : Rgtb (norm (e_velocity offcentre_entry)) 0.05 = false).
  { apply Rgtb_false. intros H. apply norm_gt_iff in H; simpl in *; lra. }
  assert (Hd : String.eqb (direction_of (vx (e_position offcentre_entry))) "ahead"
               = false).
  { destruct (String.eqb _ _) eqn:E; [|reflexivity].
    apply direction_ahead_iff in E. simpl in E. lra. }
  now rewrite Hm, Hd.
Qed.

Lemma unreported_map_narrates_clear_witness :
  path_status (analyze_situation [(1%Z, offcentre_entry)]) = "blocked"
  /\ generate_contextual_narration (analyze_situation [(1%Z, offcentre_entry)])
     = "Path is clear, no immediate hazards".
Proof.
  split.
  - unfold analyze_situation. cbn [path_status ahead_clear snd].
    assert (Hc : in_corridor offcentre_entry = true).
    { apply in_corridor_iff. unfold blocks_path; simpl.
      rewrite Rabs_right by lra. repeat split; try lra.
      apply norm_lt_iff; simpl; lra. }
    now rewrite Hc.
  - apply (@unreported_map_narrates_clear [(1%Z, offcentre_entry)]).
    intros i info [E | []]. injection E as <- <-. apply offcentre_unreported.
Defined.

Lemma append_nonempty_r (a b : string) : b <> "" -> (a ++ b)%string <> "".
Proof.
  intros Hb. destruct a as [|c a]; simpl; [exact Hb | discriminate].
Qed.

Lemma generate_nonempty (s : Situation) : generate_contextual_narration s <> "".
Proof.
  unfold generate_contextual_narration. cbv zeta.
  destruct (hazard_parts s ++ [path_part s]) as [|c1 [|c2 r]];
    cbn; try discriminate.
  apply append_nonempty_r. discriminate.
Qed.

(** X13.  A narration is never the empty string, so [speak] never discards
    it for emptiness: unless the debounce test holds, the narration becomes
    the last accepted text and the newest item of the queue. *)
Theorem narration_reaches_queue (self : IntelligentTTSEngine) (s : Situation)
    (force : bool) (t_check t_accept : R) :
  engine_ok self ->
  ~ debounced self (generate_contextual_narration s) force t_check ->
  let self' := speak self (generate_contextual_narration s) force
                     t_check t_accept in
  generate_contextual_narration s <> ""
  /\ last_narration self' = generate_contextual_narration s
  /\ exists front,
       q_items (phrase_q self') = front ++ [generate_contextual_narration s].
Proof.
  intros Hok Hnd self'. subst self'.
  split; [apply generate_nonempty|].
  rewrite speak_accepted; [|exact Hok | apply generate_nonempty | exact Hnd].
  simpl. split; [reflexivity|]. eexists. reflexivity.
Qed.

Lemma narration_reaches_queue_witness :
  let text := generate_contextual_narration (mkSituation [] "clear" [] []) in
  text <> ""
  /\ last_narration (speak full_engine text false 10 10) = text
  /\ exists front,
       q_items (phrase_q (speak full_engine text false 10 10)) = front ++ [text].
Proof.
  assert (Hok : engine_ok full_engine)
    by (unfold engine_ok; simpl; split; [reflexivity | lia]).
  apply (@narration_reaches_queue full_engine (mkSituation [] "clear" [] [])
           false 10 10 Hok).
  unfold debounced. intros (_ & H & _). discriminate.
Defined.

(* ------------------------------------------------------------------ *)
(** ** The speech engine, continued *)

Lemma speak_last_narration (self : IntelligentTTSEngine) (text : string)
    (force : bool) (t_check t_accept : R) :
  engine_ok self -> text <> "" ->
  last_narration (speak self text force t_check t_accept) = text.
Proof.
  intros Hok Hne.
  destruct (negb force && String.eqb text (last_narration self)
            && Rltb (t_check - last_narration_time self) 3.0) eqn:D.
  - unfold speak. destruct (String.eqb text "") eqn:E;
      [apply String.eqb_eq in E; congruence|].
    rewrite D. apply debounced_iff in D. destruct D as (_ & D & _). now symmetry.
  - rewrite speak_accepted; [reflexivity | exact Hok | exact Hne |].
    intros Hd. apply debounced_iff in Hd. congruence.
Qed.

(** X14.  The debounce looks at the last accepted text only: a call whose
    non-empty text differs from the non-empty text of the call before it is
    always accepted, however short the time between them and whether or not
    the earlier call was itself accepted. *)
Theorem speak_after_other_text (self : IntelligentTTSEngine)
    (other text : string) (f1 f2 : bool) (t1 a1 t2 a2 : R) :
  engine_ok self -> other <> "" -> text <> "" -> text <> other ->
  let self' := speak (speak self other f1 t1 a1) text f2 t2 a2 in
  last_narration self' = text
  /\ last_narration_time self' = a2
  /\ exists front, q_items (phrase_q self') = front ++ [text].
Proof.
  intros Hok Ho Ht Hne self'. subst self'.
  assert (Hok1 : engine_ok (speak self other f1 t1 a1)) by now apply speak_ok.
  assert (Hl : last_narration (speak self other f1 t1 a1) = other)
    by now apply speak_last_narration.
  rewrite speak_accepted; [|exact Hok1 | exact Ht |].
  - simpl. repeat split. eexists. reflexivity.
  - unfold debounced. rewrite Hl. tauto.
Qed.

Lemma speak_after_other_text_witness :
  let e := speak (speak new_engine "car ahead" false 10 10)
                 "dog ahead" false 10 10 in
  last_narration e = "dog ahead"
  /\ last_narration_time e = 10
  /\ exists front, q_items (phrase_q e) = front ++ ["dog ahead"].
Proof.
  apply (@speak_after_other_text new_engine "car ahead" "dog ahead"
           false false 10 10 10 10 new_engine_ok); discriminate.
Defined.

Lemma last_n_short (A : Type) (n : nat) (l : list A) :
  (List.length l <= n)%nat -> last_n n l = l.
Proof.
  intros H. unfold last_n. replace (List.length l - n)%nat with 0%nat by lia.
  reflexivity.
Qed.

Lemma last_n_app_long (A : Type) (n : nat) (p s : list A) :
  (n <= List.length s)%nat -> last_n n (p ++ s) = last_n n s.
Proof.
  intros H. unfold last_n. rewrite length_app, skipn_app.
  rewrite skipn_all2 by lia. simpl. f_equal. lia.
Qed.

Lemma last_n_length (A : Type) (n : nat) (l : list A) :
  List.length (last_n n l) = Nat.min n (List.length l).
Proof. unfold last_n. rewrite length_skipn. lia. Qed.

Lemma last_n_absorb (A : Type) (n : nat) (l1 l2 : list A) :
  last_n n (last_n n l1 ++ l2) = last_n n (l1 ++ l2).
Proof.
  destruct (Nat.le_gt_cases (List.length l1) n) as [Hle | Hgt].
  - now rewrite (@last_n_short _ n l1 Hle).
  - rewrite <- (firstn_skipn (List.length l1 - n) l1) at 2.
    fold (last_n n l1). rewrite <- app_assoc.
    symmetry. apply last_n_app_long.
    rewrite length_app, last_n_length. lia.
Qed.

Lemma push_is_window (items : list string) (text : string) :
  (List.length items <= 5)%nat ->
  (if (List.length items =? 5)%nat then tl items else items) ++ [text]
  = last_n 5 (items ++ [text]).
Proof.
  intros H. destruct (Nat.eqb_spec (List.length items) 5) as [E | E].
  - unfold last_n. rewrite length_app, E. simpl.
    destruct items; [discriminate | reflexivity].
  - apply eq_sym, last_n_short. rewrite length_app. simpl. lia.
Qed.

(** The queue against the log of accepted texts. *)
Lemma speak_all_window (calls : list (string * bool * R * R)) :
  forall self, engine_ok self ->
  q_items (phrase_q (speak_all self calls))
  = last_n 5 (q_items (phrase_q self)
              ++ accepted_log (last_narration self)
                              (last_narration_time self) calls).
Proof.
  induction calls as [|[[[text force] t_check] t_accept] rest IH];
    intros self Hok.
  - simpl. rewrite app_nil_r. symmetry. apply last_n_short. apply Hok.
  - unfold speak_all in *. cbn [fold_left fst snd accepted_log].
    destruct (String.eqb text "") eqn:E.
    { apply String.eqb_eq in E. subst text.
      replace (speak self "" force t_check t_accept) with self
        by (unfold speak; reflexivity).
      now apply IH. }
    assert (Hne : text <> "") by (intros ->; discriminate).
    destruct (negb force && String.eqb text (last_narration self)
              && Rltb (t_check - last_narration_time self) 3.0) eqn:D.
    + replace (speak self text force t_check t_accept) with self
        by (unfold speak; now rewrite E, D).
      now apply IH.
    + assert (Hnd : ~ debounced self text force t_check).
      { intros Hd. apply debounced_iff in Hd. congruence. }
      rewrite IH by now apply speak_ok.
      rewrite (speak_accepted t_accept Hok Hne Hnd). cbn [phrase_q q_items
        last_narration last_narration_time].
      rewrite push_is_window by apply Hok.
      rewrite last_n_absorb, <- app_assoc. reflexivity.
Qed.

(** X15.  Backpressure by eviction: after any sequence of calls, the queue
    holds the last five of the texts it held followed by the texts accepted
    since, in order of acceptance (the consumer not taking any meanwhile). *)
Theorem queue_is_window (calls : list (string * bool * R * R))
    (self : IntelligentTTSEngine) :
  engine_ok self ->
  q_items (phrase_q (speak_all self calls))
  = last_n 5 (q_items (phrase_q self)
              ++ accepted_log (last_narration self)
                              (last_narration_time self) calls).
Proof. apply speak_all_window. Qed.

Lemma queue_is_window_witness :
  q_items (phrase_q (speak_all full_engine
                       [("f", false, 10, 10); ("f", false, 11, 11);
                        ("", true, 12, 12); ("g", false, 12, 12)]))
  = ["c"; "d"; "e"; "f"; "g"].
Proof.
  assert (Hok : engine_ok full_engine)
    by (unfold engine_ok; simpl; split; [reflexivity | lia]).
  rewrite (@queue_is_window
             [("f", false, 10, 10); ("f", false, 11, 11);
              ("", true, 12, 12); ("g", false, 12, 12)] full_engine Hok).
  cbn [accepted_log full_engine last_narration last_narration_time phrase_q
       q_items String.eqb Ascii.eqb Bool.eqb negb andb].
  assert (H1 : Rltb (11 - 10) 3.0 = true) by (apply Rltb_true; lra).
  rewrite H1. reflexivity.
Defined.

(* ------------------------------------------------------------------ *)
(** ** 3D position *)

Lemma np_index_inside (n : nat) (i : Z) :
  (0 <= i < Z.of_nat n)%Z -> np_index n i = Some i.
Proof.
  intros H. unfold np_index.
  assert (H1 : (0 <=? i)%Z = true) by (apply Z.leb_le; lia).
  assert (H2 : (i <? Z.of_nat n)%Z = true) by (apply Z.ltb_lt; lia).
  now rewrite H1, H2.
Qed.

Lemma np_clip_inside (a : Z) (n : nat) :
  (1 <= n)%nat -> (0 <= np_clip a 0 (Z.of_nat n - 1) < Z.of_nat n)%Z.
Proof. intros H. unfold np_clip. lia. Qed.

Lemma np_index_empty (i : Z) : np_index 0 i = None.
Proof.
  unfold np_index. simpl.
  destruct (0 <=? i)%Z eqn:E1, (i <? 0)%Z eqn:E2; simpl; try reflexivity.
  apply Z.leb_le in E1. apply Z.ltb_lt in E2. lia.
Qed.

Lemma float_max_ge : 1024 <= float_max.
Proof.
  unfold float_max.
  assert (H52 : 1 <= 2 ^ 52) by (apply pow_R1_Rle; lra).
  assert (Hinv : / 2 ^ 52 <= 1).
  { rewrite <- Rinv_1. apply Rinv_le_contravar; lra. }
  assert (H10 : 2 ^ 10 <= 2 ^ 1023) by (apply Rle_pow; [lra | lia]).
  assert (E10 : 2 ^ 10 = 1024) by (simpl; lra).
  rewrite E10 in H10.
  apply Rle_trans with (1 * 2 ^ 1023); [lra|].
  apply Rmult_le_compat_r; lra.
Qed.

Lemma float32_max_ge : 1024 <= float32_max.
Proof.
  unfold float32_max.
  assert (H23 : 1 <= 2 ^ 23) by (apply pow_R1_Rle; lra).
  assert (Hinv : / 2 ^ 23 <= 1).
  { rewrite <- Rinv_1. apply Rinv_le_contravar; lra. }
  assert (H10 : 2 ^ 10 <= 2 ^ 127) by (apply Rle_pow; [lra | lia]).
  assert (E10 : 2 ^ 10 = 1024) by (simpl; lra).
  rewrite E10 in H10.
  apply Rle_trans with (1 * 2 ^ 127); [lra|].
  apply Rmult_le_compat_r; lra.
Qed.

Lemma float_result_finite (fmax x : R) :
  Rabs x <= fmax -> float_result fmax x = Some x.
Proof. intros H. unfold float_result. destruct (Rle_dec _ _); [reflexivity | contradiction]. Qed.

Lemma float_result_infinite (fmax x : R) :
  fmax < Rabs x -> float_result fmax x = None.
Proof. intros H. unfold float_result. destruct (Rle_dec _ _); [lra | reflexivity]. Qed.

(** [int((a + b) / 2)] raises exactly when the sum is beyond the finite
    floats. *)
Lemma py_int_half_sum (fmax a b : R) :
  (fmax < Rabs (a + b) -> py_int (half_sum fmax a b) = None)
  /\ (Rabs (a + b) <= fmax ->
      py_int (half_sum fmax a b) = Some (truncate ((a + b) / 2))).
Proof.
  unfold py_int, half_sum. split; intros H.
  - now rewrite float_result_infinite.
  - now rewrite float_result_finite.
Qed.

Lemma truncate_integer (n : Z) (a : R) : a = IZR n -> truncate a = n.
Proof.
  intros ->. unfold truncate. destruct (Rle_dec 0 (IZR n)).
  - symmetry. apply Int_part_spec. lra.
  - rewrite <- opp_IZR.
    assert (E : Int_part (IZR (- n)) = (- n)%Z).
    { symmetry. apply Int_part_spec. lra. }
    rewrite E. lia.
Qed.

(** What the body of [compute_3d_position] returns, and when. *)
Lemma compute_3d_position_in_spec (fmax : R) (bbox : Box) (depth_map : Array2)
    (intrinsics : Intrinsics) :
  (compute_3d_position_in fmax bbox depth_map intrinsics = None
   <-> fmax < Rabs (bx1 bbox + bx2 bbox)
       \/ fmax < Rabs (by1 bbox + by2 bbox)
       \/ a_h depth_map = 0%nat \/ a_w depth_map = 0%nat)
  /\ (forall pos,
        compute_3d_position_in fmax bbox depth_map intrinsics = Some pos ->
        exists y x,
          in_shape depth_map y x
          /\ vz pos = a_at depth_map y x
          /\ vx pos = (IZR x - cx intrinsics) * vz pos / fx intrinsics
          /\ vy pos = (IZR y - cy intrinsics) * vz pos / fy intrinsics).
Proof.
  unfold compute_3d_position_in.
  destruct (py_int_half_sum fmax (bx1 bbox) (bx2 bbox)) as (Hxi & Hxf).
  destruct (py_int_half_sum fmax (by1 bbox) (by2 bbox)) as (Hyi & Hyf).
  destruct (Rle_dec (Rabs (bx1 bbox + bx2 bbox)) fmax) as [Fx | Fx].
  2:{ rewrite Hxi by lra. split; [split; [left; lra | reflexivity] | discriminate]. }
  rewrite (Hxf Fx).
  destruct (Rle_dec (Rabs (by1 bbox + by2 bbox)) fmax) as [Fy | Fy].
  2:{ rewrite Hyi by lra.
      split; [split; [right; left; lra | reflexivity] | discriminate]. }
  rewrite (Hyf Fy). cbv zeta.
  set (xc := np_clip (truncate ((bx1 bbox + bx2 bbox) / 2)) 0
                     (Z.of_nat (a_w depth_map) - 1)).
  set (yc := np_clip (truncate ((by1 bbox + by2 bbox) / 2)) 0
                     (Z.of_nat (a_h depth_map) - 1)).
  destruct (a_h depth_map) as [|h'] eqn:Eh.
  { unfold a_get. rewrite Eh, np_index_empty.
    split; [split; auto | discriminate]. }
  destruct (a_w depth_map) as [|w'] eqn:Ew.
  { unfold a_get. rewrite Eh, Ew, np_index_empty.
    destruct (np_index (S h') yc); split; try discriminate; split; auto. }
  assert (Hy : (0 <= yc < Z.of_nat (S h'))%Z) by (apply np_clip_inside; lia).
  assert (Hx : (0 <= xc < Z.of_nat (S w'))%Z) by (apply np_clip_inside; lia).
  unfold a_get. rewrite Eh, Ew, (np_index_inside _ Hy), (np_index_inside _ Hx).
  split.
  - split; [discriminate | intros [H | [H | [H | H]]]; try discriminate; lra].
  - intros pos [= <-]. exists yc, xc. simpl.
    unfold in_shape. rewrite Eh, Ew. auto.
Qed.

Lemma compute_3d_position_spec (bbox : Box) (depth_map : Array2)
    (intrinsics : Intrinsics) :
  (compute_3d_position bbox depth_map intrinsics = None
   <-> float_max < Rabs (bx1 bbox + bx2 bbox)
       \/ float_max < Rabs (by1 bbox + by2 bbox)
       \/ a_h depth_map = 0%nat \/ a_w depth_map = 0%nat)
  /\ (forall pos, compute_3d_position bbox depth_map intrinsics = Some pos ->
        exists y x,
          in_shape depth_map y x
          /\ vz pos = a_at depth_map y x
          /\ vx pos = (IZR x - cx intrinsics) * vz pos / fx intrinsics
          /\ vy pos = (IZR y - cy intrinsics) * vz pos / fy intrinsics).
Proof.
  exact (@compute_3d_position_in_spec float_max bbox depth_map intrinsics).
Qed.

Lemma float32_max_le : float32_max <= float_max.
Proof.
  unfold float32_max, float_max.
  assert (H23 : 0 < / 2 ^ 23) by (apply Rinv_0_lt_compat, pow_lt; lra).
  assert (H52 : 1 <= 2 ^ 52) by (apply pow_R1_Rle; lra).
  assert (Hinv : / 2 ^ 52 <= 1).
  { rewrite <- Rinv_1. apply Rinv_le_contravar; lra. }
  assert (Hp : 0 < 2 ^ 127) by (apply pow_lt; lra).
  assert (Hq : 0 < 2 ^ 1023) by (apply pow_lt; lra).
  assert (Hle : 2 ^ 128 <= 2 ^ 1023) by (apply Rle_pow; [lra | lia]).
  assert (E : 2 ^ 128 = 2 * 2 ^ 127) by reflexivity.
  apply Rle_trans with (2 * 2 ^ 127).
  - apply Rmult_le_compat_r; lra.
  - apply Rle_trans with (1 * 2 ^ 1023); [lra|].
    apply Rmult_le_compat_r; lra.
Qed.

(** A position computed on a box of a narrower float type is the one
    computed on the same numbers as Python floats. *)
Lemma compute_3d_position_in_mono (fmax fmax' : R) (bbox : Box)
    (depth_map : Array2) (intrinsics : Intrinsics) (pos : Vec3) :
  fmax <= fmax' ->
  compute_3d_position_in fmax bbox depth_map intrinsics = Some pos ->
  compute_3d_position_in fmax' bbox depth_map intrinsics = Some pos.
Proof.
  intros Hle. unfold compute_3d_position_in.
  destruct (py_int_half_sum fmax (bx1 bbox) (bx2 bbox)) as (Hxi & Hxf).
  destruct (py_int_half_sum fmax (by1 bbox) (by2 bbox)) as (Hyi & Hyf).
  destruct (py_int_half_sum fmax' (bx1 bbox) (bx2 bbox)) as (_ & Hxf').
  destruct (py_int_half_sum fmax' (by1 bbox) (by2 bbox)) as (_ & Hyf').
  destruct (Rle_dec (Rabs (bx1 bbox + bx2 bbox)) fmax) as [Fx | Fx].
  2:{ rewrite Hxi by lra. discriminate. }
  rewrite (Hxf Fx), Hxf' by lra.
  destruct (Rle_dec (Rabs (by1 bbox + by2 bbox)) fmax) as [Fy | Fy].
  2:{ rewrite Hyi by lra. discriminate. }
  rewrite (Hyf Fy), Hyf' by lra. auto.
Qed.

(** The centre of the sample detection is at row and column 30. *)
Lemma sample_centre :
  py_int (half_sum float_max (bx1 (d_bbox sample_detection))
                   (bx2 (d_bbox sample_detection)))
  = Some 30%Z
  /\ py_int (half_sum float_max (by1 (d_bbox sample_detection))
                      (by2 (d_bbox sample_detection)))
     = Some 30%Z.
Proof.
  pose proof float_max_ge as Hm.
  assert (H : py_int (half_sum float_max 10 50) = Some 30%Z).
  { destruct (py_int_half_sum float_max 10 50) as (_ & ->).
    - f_equal. apply truncate_integer. lra.
    - rewrite Rabs_right; lra. }
  simpl. split; exact H.
Qed.

(** X16.  [compute_3d_position] raises exactly when the sum of the box's
    two x coordinates or of its two y coordinates is beyond the finite
    floats ([int] then meets an infinity: [OverflowError]), or the depth map
    has no rows or no columns ([IndexError]).  Otherwise, wherever the box
    lies, the depth is read at a row and column inside the map (no index
    error, no wrap-around from a negative index) and is the third
    coordinate of the position; with focal lengths other than zero, the
    first two coordinates are that pixel's offset from the principal point
    scaled by depth over focal length. *)
Theorem compute_3d_position_sampled (bbox : Box) (depth_map : Array2)
    (intrinsics : Intrinsics) :
  (compute_3d_position bbox depth_map intrinsics = None
   <-> float_max < Rabs (bx1 bbox + bx2 bbox)
       \/ float_max < Rabs (by1 bbox + by2 bbox)
       \/ a_h depth_map = 0%nat \/ a_w depth_map = 0%nat)
  /\ (forall pos, compute_3d_position bbox depth_map intrinsics = Some pos ->
        centre_finite float_max bbox
        /\ exists y x,
          in_shape depth_map y x
          /\ vz pos = a_at depth_map y x
          /\ (fx intrinsics <> 0 ->
              vx pos = (IZR x - cx intrinsics) * vz pos / fx intrinsics)
          /\ (fy intrinsics <> 0 ->
              vy pos = (IZR y - cy intrinsics) * vz pos / fy intrinsics)).
Proof.
  destruct (compute_3d_position_spec bbox depth_map intrinsics) as (Hn & Hs).
  split; [exact Hn|].
  intros pos Hpos. split.
  - unfold centre_finite.
    destruct (Rle_dec (Rabs (bx1 bbox + bx2 bbox)) float_max) as [Fx | Fx].
    + destruct (Rle_dec (Rabs (by1 bbox + by2 bbox)) float_max) as [Fy | Fy].
      * split; assumption.
      * assert (E : compute_3d_position bbox depth_map intrinsics = None)
          by (apply Hn; right; left; lra).
        congruence.
    + assert (E : compute_3d_position bbox depth_map intrinsics = None)
        by (apply Hn; left; lra).
      congruence.
  - destruct (Hs pos Hpos) as (y & x & A & B & C & D).
    exists y, x. auto.
Qed.

Lemma compute_3d_position_sampled_witness :
  compute_3d_position (mkBox float_max 0 float_max 1) flat_depth
    camera_intrinsics = None
  /\ exists y x,
    in_shape flat_depth y x
    /\ vz (mkVec3 (-82 * 2 / 224) (-82 * 2 / 224) 2) = a_at flat_depth y x.
Proof.
  split.
  { destruct (compute_3d_position_sampled (mkBox float_max 0 float_max 1)
                flat_depth camera_intrinsics) as (Hn & _).
    apply Hn. left. cbn [bx1 bx2]. pose proof float_max_ge as Hm.
    rewrite Rabs_right; lra. }
  destruct (compute_3d_position_sampled (d_bbox sample_detection) flat_depth
              camera_intrinsics) as (_ & H).
  destruct (H (mkVec3 (-82 * 2 / 224) (-82 * 2 / 224) 2))
    as (_ & y & x & A & B & _).
  - unfold compute_3d_position, compute_3d_position_in.
    destruct sample_centre as (-> & ->).
    unfold a_get, flat_depth, camera_intrinsics. cbn.
    f_equal. f_equal; lra.
  - exists y, x. split; assumption.
Defined.

Lemma score_factor (info : MapEntry) :
  score info
  = unweighted_score info
    * (if Rltb (arctan2 (Rabs (vx (e_position info)))
                        (Rmax (vz (e_position info)) 0.1)) (PI / 4)
       then 1.0 else 0.5).
Proof. reflexivity. Qed.

(** X17.  When the focal length exceeds the distance of every pixel column
    from the principal point, as with the intrinsics of the main program on
    its 224 pixel wide frames, a position computed from a depth map of
    positive depths lies strictly inside the 45 degree cone: [|X| < Z].  The
    ranker then never halves the score of an entry at such a position. *)
Theorem computed_positions_in_fov (bbox : Box) (depth_map : Array2)
    (intrinsics : Intrinsics) (pos : Vec3) :
  0 < fx intrinsics ->
  (forall x, (0 <= x < Z.of_nat (a_w depth_map))%Z ->
             Rabs (IZR x - cx intrinsics) < fx intrinsics) ->
  (forall y x, in_shape depth_map y x -> 0 < a_at depth_map y x) ->
  compute_3d_position bbox depth_map intrinsics = Some pos ->
  Rabs (vx pos) < vz pos
  /\ arctan2 (Rabs (vx pos)) (Rmax (vz pos) 0.1) < PI / 4
  /\ forall info, e_position info = pos -> score info = unweighted_score info.
Proof.
  intros Hfx Hcol Hdepth Hpos.
  destruct (compute_3d_position_spec bbox depth_map intrinsics) as (_ & H).
  destruct (H pos Hpos) as (y & x & Hin & Hz & Hx & _).
  assert (Hd : 0 < vz pos) by (rewrite Hz; now apply Hdepth).
  assert (Hc : Rabs (IZR x - cx intrinsics) < fx intrinsics)
    by (apply Hcol; apply Hin).
  assert (Habs : Rabs (vx pos) < vz pos).
  { rewrite Hx. unfold Rdiv.
    rewrite !Rabs_mult, (Rabs_right (vz pos)) by lra.
    rewrite Rabs_inv, (Rabs_right (fx intrinsics)) by lra.
    apply (Rmult_lt_reg_r (fx intrinsics)); [exact Hfx|].
    rewrite Rmult_assoc, Rinv_l by lra.
    rewrite Rmult_1_r. rewrite (Rmult_comm (vz pos)).
    apply Rmult_lt_compat_r; assumption. }
  assert (Hfov : arctan2 (Rabs (vx pos)) (Rmax (vz pos) 0.1) < PI / 4).
  { apply fov_test. apply Rlt_le_trans with (vz pos); [exact Habs | apply Rmax_l]. }
  split; [exact Habs|]. split; [exact Hfov|].
  intros info E. rewrite score_factor, E.
  assert (Hb : Rltb (arctan2 (Rabs (vx pos)) (Rmax (vz pos) 0.1)) (PI / 4) = true)
    by now apply Rltb_true.
  rewrite Hb. lra.
Qed.

Lemma camera_columns (x : Z) :
  (0 <= x < 224)%Z -> Rabs (IZR x - cx camera_intrinsics) < fx camera_intrinsics.
Proof.
  intros (H0 & H1). apply IZR_le in H0. apply IZR_lt in H1. simpl.
  unfold Rabs. destruct (Rcase_abs _); lra.
Qed.

Lemma computed_positions_in_fov_witness :
  let pos := mkVec3 (-82 * 2 / 224) (-82 * 2 / 224) 2 in
  Rabs (vx pos) < vz pos
  /\ arctan2 (Rabs (vx pos)) (Rmax (vz pos) 0.1) < PI / 4
  /\ forall info, e_position info = pos -> score info = unweighted_score info.
Proof.
  apply (@computed_positions_in_fov (d_bbox sample_detection) flat_depth
           camera_intrinsics).
  - simpl. lra.
  - intros x Hx. apply camera_columns. simpl in Hx. lia.
  - intros y x _. simpl. lra.
  - unfold compute_3d_position, compute_3d_position_in.
    destruct sample_centre as (-> & ->).
    unfold a_get, flat_depth, camera_intrinsics. cbn.
    f_equal. f_equal; lra.
Defined.

(* ------------------------------------------------------------------ *)
(** ** Depth scaling *)

Lemma fold_Rmin_spec (l : list R) : forall x,
  let m := fold_left Rmin l x in
  (m = x \/ In m l) /\ m <= x /\ forall v, In v l -> m <= v.
Proof.
  induction l as [|y r IH]; intros x; simpl.
  - split; [now left|]. split; [lra | tauto].
  - destruct (IH (Rmin x y)) as (Hin & Hle & Hall). cbv zeta in *.
    set (m := fold_left Rmin r (Rmin x y)) in *.
    pose proof (Rmin_l x y). pose proof (Rmin_r x y).
    split; [|split].
    + destruct Hin as [E | Hin]; [|now right; right].
      rewrite E. unfold Rmin. destruct (Rle_dec x y); [now left | right; now left].
    + lra.
    + intros v [<- | Hv]; [lra | auto].
Qed.

Lemma fold_Rmax_spec (l : list R) : forall x,
  let m := fold_left Rmax l x in
  x <= m /\ forall v, In v l -> v <= m.
Proof.
  induction l as [|y r IH]; intros x; simpl.
  - split; [lra | tauto].
  - destruct (IH (Rmax x y)) as (Hle & Hall). cbv zeta in *.
    pose proof (Rmax_l x y). pose proof (Rmax_r x y).
    split; [lra|]. intros v [<- | Hv]; [lra | auto].
Qed.

Lemma in_a_values (a : Array2) (v : R) :
  In v (a_values a) <-> exists y x, in_shape a y x /\ v = a_at a y x.
Proof.
  unfold a_values, in_shape. rewrite in_flat_map. split.
  - intros (y & Hy & Hv). apply in_map_iff in Hv. destruct Hv as (x & <- & Hx).
    apply in_seq in Hy, Hx. exists (Z.of_nat y), (Z.of_nat x).
    split; [lia | reflexivity].
  - intros (y & x & (Hy & Hx) & ->). exists (Z.to_nat y). split.
    + apply in_seq. lia.
    + apply in_map_iff. exists (Z.to_nat x). split.
      * now rewrite !Z2Nat.id by lia.
      * apply in_seq. lia.
Qed.

(** What [scale_depth] returns, and when. *)
Lemma scale_depth_spec (prediction : Array2) :
  (scale_depth prediction = None
   <-> a_h prediction = 0%nat \/ a_w prediction = 0%nat)
  /\ (forall depth, scale_depth prediction = Some depth ->
        a_h depth = a_h prediction /\ a_w depth = a_w prediction
        /\ (forall y x, in_shape prediction y x ->
              0.5 <= a_at depth y x <= 10.0)
        /\ (forall y x y' x',
              a_at prediction y x <= a_at prediction y' x' ->
              a_at depth y x <= a_at depth y' x')
        /\ (exists y x, in_shape prediction y x /\ a_at depth y x = 0.5)).
Proof.
  unfold scale_depth.
  destruct (a_values prediction) as [|v0 vs] eqn:Ev.
  - simpl. split; [|discriminate]. split; [intros _ | reflexivity].
    destruct (a_h prediction) as [|h'] eqn:Eh; [now left|].
    destruct (a_w prediction) as [|w'] eqn:Ew; [now right|].
    exfalso. assert (Hin : In (a_at prediction 0 0) (a_values prediction)).
    { apply in_a_values. exists 0%Z, 0%Z. unfold in_shape.
      rewrite Eh, Ew. split; [lia | reflexivity]. }
    rewrite Ev in Hin. destruct Hin.
  - cbn [list_min list_max].
    destruct (fold_Rmin_spec vs v0) as (Hmin_in & Hmin_le & Hmin_all).
    destruct (fold_Rmax_spec vs v0) as (Hmax_le & Hmax_all).
    cbv zeta in *.
    set (mn := fold_left Rmin vs v0) in *. set (mx := fold_left Rmax vs v0) in *.
    assert (Hbounds : forall v, In v (a_values prediction) -> mn <= v <= mx).
    { intros v Hv. rewrite Ev in Hv. destruct Hv as [<- | Hv]; [lra|].
      split; auto. }
    assert (Hmn : In mn (a_values prediction)).
    { rewrite Ev. destruct Hmin_in as [-> | H]; [now left | now right]. }
    assert (Hspan : 0 < mx - mn + 1e-6).
    { destruct (Hbounds mn Hmn). lra. }
    split.
    + split; [discriminate|]. intros Hz. exfalso.
      apply in_a_values in Hmn. destruct Hmn as (y & x & (Hy & Hx) & _).
      destruct Hz as [Hz | Hz]; rewrite Hz in *; simpl in *; lia.
    + intros depth [= <-]. cbn [a_h a_w a_at].
      split; [reflexivity|]. split; [reflexivity|]. split; [|split].
      * intros y x Hin.
        assert (Hv : mn <= a_at prediction y x <= mx).
        { apply Hbounds, in_a_values. now exists y, x. }
        set (v := a_at prediction y x) in *.
        assert (Hq : 0 <= (v - mn) / (mx - mn + 1e-6) <= 1).
        { split.
          - apply Rmult_le_pos; [lra | apply Rlt_le, Rinv_0_lt_compat; lra].
          - apply (Rmult_le_reg_r (mx - mn + 1e-6)); [exact Hspan|].
            unfold Rdiv. rewrite Rmult_assoc, Rinv_l by lra. lra. }
        lra.
      * intros y x y' x' Hle.
        assert (Hq : (a_at prediction y x - mn) / (mx - mn + 1e-6)
                     <= (a_at prediction y' x' - mn) / (mx - mn + 1e-6)).
        { apply Rmult_le_compat_r; [apply Rlt_le, Rinv_0_lt_compat; lra | lra]. }
        lra.
      * apply in_a_values in Hmn. destruct Hmn as (y & x & Hin & E).
        exists y, x. split; [exact Hin|]. rewrite <- E.
        unfold Rdiv. replace (mn - mn) with 0 by lra. lra.
Qed.

(** X18.  The scaling at the end of [estimate_depth] fails exactly on a
    prediction without elements.  Otherwise it keeps the shape, puts every
    depth between 0.5 and 10.0, keeps the order of depths, and gives 0.5 to
    some pixel (one where the prediction is least). *)
Theorem scale_depth_range (prediction : Array2) :
  (scale_depth prediction = None
   <-> a_h prediction = 0%nat \/ a_w prediction = 0%nat)
  /\ (forall depth, scale_depth prediction = Some depth ->
        a_h depth = a_h prediction /\ a_w depth = a_w prediction
        /\ (forall y x, in_shape prediction y x ->
              0.5 <= a_at depth y x <= 10.0)
        /\ (forall y x y' x',
              a_at prediction y x <= a_at prediction y' x' ->
              a_at depth y x <= a_at depth y' x')
        /\ (exists y x, in_shape prediction y x /\ a_at depth y x = 0.5)).
Proof. exact (@scale_depth_spec prediction). Qed.

Lemma scale_depth_range_witness :
  exists depth,
    scale_depth two_pixel_prediction = Some depth
    /\ 0.5 <= a_at depth 0 1 <= 10.0
    /\ a_at depth 0 0 <= a_at depth 0 1.
Proof.
  destruct (scale_depth_range two_pixel_prediction) as (Hnone & Hsome).
  destruct (scale_depth two_pixel_prediction) as [depth|] eqn:E.
  - exists depth. split; [reflexivity|].
    destruct (Hsome depth eq_refl) as (_ & _ & Hr & Hmono & _). split.
    + apply Hr. unfold in_shape; simpl. lia.
    + apply Hmono. simpl. lra.
  - exfalso. destruct Hnone as (Hn & _).
    destruct (Hn eq_refl) as [H | H]; discriminate.
Defined.

Lemma norm_ge_z (v : Vec3) : 0 <= vz v -> vz v <= norm v.
Proof.
  intros Hz. unfold norm. rewrite <- (sqrt_square (vz v)) at 1 by exact Hz.
  apply sqrt_le_1.
  - nra.
  - nra.
  - nra.
Qed.

(** X19.  A position computed from a scaled depth map has its third
    coordinate between 0.5 and 10.0, and is at a distance of at least 0.5
    from the camera. *)
Theorem scaled_position_range (prediction depth : Array2) (bbox : Box)
    (intrinsics : Intrinsics) (pos : Vec3) :
  scale_depth prediction = Some depth ->
  compute_3d_position bbox depth intrinsics = Some pos ->
  0.5 <= vz pos <= 10.0 /\ 0.5 <= norm pos.
Proof.
  intros Hs Hp.
  destruct (scale_depth_spec prediction) as (_ & H).
  destruct (H depth Hs) as (Eh & Ew & Hr & _).
  destruct (compute_3d_position_spec bbox depth intrinsics) as (_ & H').
  destruct (H' pos Hp) as (y & x & Hin & Hz & _).
  assert (Hrange : 0.5 <= vz pos <= 10.0).
  { rewrite Hz. apply Hr. unfold in_shape in *. now rewrite <- Eh, <- Ew. }
  split; [exact Hrange|].
  apply Rle_trans with (vz pos); [lra | apply norm_ge_z; lra].
Qed.

Lemma scaled_position_range_witness :
  exists depth pos,
    scale_depth two_pixel_prediction = Some depth
    /\ compute_3d_position (d_bbox sample_detection) depth camera_intrinsics
       = Some pos
    /\ 0.5 <= vz pos <= 10.0 /\ 0.5 <= norm pos.
Proof.
  destruct (scale_depth_spec two_pixel_prediction) as (Hnone & Hsome).
  destruct (scale_depth two_pixel_prediction) as [depth|] eqn:E.
  2:{ exfalso. destruct Hnone as (Hn & _).
      destruct (Hn eq_refl) as [H | H]; discriminate. }
  destruct (Hsome depth eq_refl) as (Eh & Ew & _).
  destruct (compute_3d_position_spec (d_bbox sample_detection) depth
              camera_intrinsics) as (Hn & _).
  destruct (compute_3d_position (d_bbox sample_detection) depth
              camera_intrinsics) as [pos|] eqn:Ep.
  2:{ exfalso. destruct Hn as (Hn & _). pose proof float_max_ge as Hm.
      destruct (Hn eq_refl) as [H | [H | [H | H]]];
        rewrite ?Eh, ?Ew in H; try discriminate;
        simpl in H; rewrite Rabs_right in H; lra. }
  exists depth, pos. split; [reflexivity|]. split; [exact Ep|].
  apply (@scaled_position_range two_pixel_prediction depth
           (d_bbox sample_detection) camera_intrinsics pos E Ep).
Defined.

(* ------------------------------------------------------------------ *)
(** ** The speech engine, consumer side *)

Section Worker.
Variable md5 : string -> string.
Variables synth_ok play_ok : string -> bool.

Lemma worker_step_running (s : EngineRun) :
  r_running s = true ->
  let r := worker_step md5 synth_ok play_ok s in
  r_running (fst r) = true
  /\ last_narration (r_engine (fst r)) = last_narration (r_engine s)
  /\ last_narration_time (r_engine (fst r)) = last_narration_time (r_engine s)
  /\ q_maxsize (phrase_q (r_engine (fst r))) = q_maxsize (phrase_q (r_engine s))
  /\ match q_items (phrase_q (r_engine s)) with
     | [] => r = (s, None)
     | x :: rest =>
         q_items (phrase_q (r_engine (fst r))) = rest
         /\ exists ev, snd r = Some ev /\ ev_text ev = x
            /\ r_phrases_spoken (fst r)
               = (r_phrases_spoken s + (if ev_played ev then 1 else 0))%Z
            /\ (if ev_synthesized ev
                then ~ In (cache_path md5 x) (r_cache s)
                     /\ r_cache (fst r) = cache_path md5 x :: r_cache s
                else r_cache (fst r) = r_cache s)
     end.
Proof.
  intros Hrun. unfold worker_step. rewrite Hrun. cbn [negb].
  unfold q_get_nowait.
  destruct (q_items (phrase_q (r_engine s))) as [|x rest] eqn:Eq.
  - cbn. auto.
  - unfold ensure_audio. cbv zeta.
    destruct (existsb (String.eqb (cache_path md5 x)) (r_cache s)) eqn:Ec.
    + destruct (play_ok (cache_path md5 x)); cbn;
        repeat split; auto; eexists; repeat split; cbn; auto; lia.
    + assert (Hni : ~ In (cache_path md5 x) (r_cache s)).
      { intros Hin. assert (existsb (String.eqb (cache_path md5 x)) (r_cache s) = true).
        { apply existsb_exists. exists (cache_path md5 x).
          split; [exact Hin | apply String.eqb_refl]. }
        congruence. }
      destruct (synth_ok x).
      * destruct (play_ok (cache_path md5 x)); cbn;
          repeat split; auto; eexists; repeat split; cbn; auto; lia.
      * cbn. repeat split; auto. eexists. repeat split; cbn; auto. lia.
Qed.

Lemma worker_run_spec (n : nat) : forall s,
  r_running s = true ->
  let r := worker_run md5 synth_ok play_ok n s in
  let items := q_items (phrase_q (r_engine s)) in
  map ev_text (snd r) = firstn n items
  /\ q_items (phrase_q (r_engine (fst r))) = skipn n items
  /\ r_phrases_spoken (fst r) = (r_phrases_spoken s + played_count (snd r))%Z
  /\ last_narration (r_engine (fst r)) = last_narration (r_engine s)
  /\ last_narration_time (r_engine (fst r)) = last_narration_time (r_engine s)
  /\ NoDup (synthesized_files md5 (snd r))
  /\ (forall f, In f (synthesized_files md5 (snd r)) -> ~ In f (r_cache s))
  /\ (forall f, In f (r_cache (fst r))
                <-> In f (synthesized_files md5 (snd r)) \/ In f (r_cache s)).
Proof.
  induction n as [|k IH]; intros s Hrun.
  - cbn. unfold played_count, synthesized_files. cbn.
    repeat split; auto; try lia; try constructor; try tauto.
  - cbn [worker_run].
    pose proof (worker_step_running s Hrun) as Hstep. cbv zeta in Hstep.
    destruct (worker_step md5 synth_ok play_ok s) as [s1 ev].
    cbn [fst snd] in Hstep.
    destruct Hstep as (Hrun1 & Hl1 & Ht1 & _ & Hq).
    specialize (IH s1 Hrun1). cbv zeta in IH.
    destruct (worker_run md5 synth_ok play_ok k s1) as [s2 evs].
    cbn [fst snd] in *.
    destruct IH as (I1 & I2 & I3 & I4 & I5 & I6 & I7 & I8).
    destruct (q_items (phrase_q (r_engine s))) as [|x rest] eqn:Eq.
    + injection Hq as -> ->. rewrite Eq in *.
      rewrite firstn_nil in *. rewrite skipn_nil in *.
      repeat split; auto; apply I8.
    + destruct Hq as (Hrest & e & -> & Hx & Hcount & Hcache).
      rewrite Hrest in *. cbn [map firstn skipn]. rewrite Hx, I1.
      split; [reflexivity|]. split; [exact I2|].
      split.
      { rewrite I3, Hcount. unfold played_count. cbn [filter].
        destruct (ev_played e); cbn [List.length]; lia. }
      split; [congruence|]. split; [congruence|].
      unfold synthesized_files in *. cbn [filter].
      destruct (ev_synthesized e); cbn [map].
      * destruct Hcache as (Hni & Hc). rewrite Hx.
        split; [|split].
        -- constructor; [|exact I6]. intros Hin. apply (I7 _ Hin).
           rewrite Hc. now left.
        -- intros f [<- | Hf]; [exact Hni|].
           intros Hin. apply (I7 f Hf). rewrite Hc. now right.
        -- intros f. rewrite I8, Hc. simpl. tauto.
      * rewrite Hcache in *. split; [exact I6|]. split; [exact I7 | exact I8].
Qed.

(** What is played has a file that plays, and was not synthesized in vain
    in the same pass. *)
Lemma worker_step_played (s s' : EngineRun) (ev : WorkerEvent) :
  worker_step md5 synth_ok play_ok s = (s', Some ev) ->
  ev_played ev = true ->
  play_ok (cache_path md5 (ev_text ev)) = true
  /\ (ev_synthesized ev = true -> synth_ok (ev_text ev) = true).
Proof.
  unfold worker_step, q_get_nowait, ensure_audio.
  destruct (r_running s); cbn [negb]; [|discriminate].
  destruct (q_items (phrase_q (r_engine s))) as [|x rest]; [discriminate|].
  cbv zeta.
  destruct (existsb (String.eqb (cache_path md5 x)) (r_cache s));
    [|destruct (synth_ok x) eqn:Es];
    try destruct (play_ok (cache_path md5 x)) eqn:Ep;
    intros [= <- <-]; cbn; intros H; try discriminate;
    (split; [assumption | first [discriminate | auto]]).
Qed.

Lemma worker_run_played (n : nat) : forall s e,
  In e (snd (worker_run md5 synth_ok play_ok n s)) ->
  ev_played e = true ->
  play_ok (cache_path md5 (ev_text e)) = true
  /\ (ev_synthesized e = true -> synth_ok (ev_text e) = true).
Proof.
  induction n as [|k IH]; intros s e; cbn [worker_run].
  - intros [].
  - destruct (worker_step md5 synth_ok play_ok s) as [s1 ev] eqn:Hstep.
    specialize (IH s1 e).
    destruct (worker_run md5 synth_ok play_ok k s1) as [s2 evs].
    cbn [snd] in *. destruct ev as [ev|]; [|exact IH].
    intros [<- | Hin]; [|now apply IH].
    now apply (worker_step_played _ Hstep).
Qed.

End Worker.

(** X20.  The worker takes the queued texts oldest first, whether or not
    their synthesis and playback succeed; [n] passes of its loop on a
    running engine take the first [n] texts and leave the rest, count one
    phrase for each playback that succeeded, and leave the debounce state
    alone. *)
Theorem worker_takes_in_order (md5 : string -> string)
    (synth_ok play_ok : string -> bool) (n : nat) (s : EngineRun) :
  r_running s = true ->
  let r := worker_run md5 synth_ok play_ok n s in
  let items := q_items (phrase_q (r_engine s)) in
  map ev_text (snd r) = firstn n items
  /\ q_items (phrase_q (r_engine (fst r))) = skipn n items
  /\ r_phrases_spoken (fst r) = (r_phrases_spoken s + played_count (snd r))%Z
  /\ (played_count (snd r) <= Z.of_nat (List.length (snd r)))%Z
  /\ last_narration (r_engine (fst r)) = last_narration (r_engine s)
  /\ last_narration_time (r_engine (fst r)) = last_narration_time (r_engine s).
Proof.
  intros Hrun r items. subst r items.
  destruct (worker_run_spec md5 synth_ok play_ok n s Hrun)
    as (A & B & C & D & E & _).
  repeat split; auto.
  unfold played_count. pose proof (filter_length_le ev_played
    (snd (worker_run md5 synth_ok play_ok n s))). lia.
Qed.

Lemma worker_takes_in_order_witness :
  let r := worker_run id_digest (fun _ => true) (fun _ => true) 2 busy_run in
  map ev_text (snd r) = ["car ahead"; "dog ahead"]
  /\ q_items (phrase_q (r_engine (fst r))) = ["car ahead"]
  /\ r_phrases_spoken (fst r) = (0 + played_count (snd r))%Z
  /\ (played_count (snd r) <= Z.of_nat (List.length (snd r)))%Z
  /\ last_narration (r_engine (fst r)) = "car ahead"
  /\ last_narration_time (r_engine (fst r)) = 0.
Proof.
  apply (@worker_takes_in_order id_digest (fun _ => true) (fun _ => true) 2
           busy_run).
  reflexivity.
Defined.

(** X21.  The audio cache: over any run of the worker [gTTS(...).save] is
    called at most once for a file, and never for a file already in the
    cache, whether the call succeeds or fails: the file that a failed call
    opened stays, so a later pass for the same text finds the path and goes
    on to play what is there.  The cache ends up holding what it held plus
    the files [save] was called for.  A text counts as played only when
    playing its file succeeded and, if [save] was called in that pass, the
    call succeeded. *)
Theorem worker_synthesizes_once (md5 : string -> string)
    (synth_ok play_ok : string -> bool) (n : nat) (s : EngineRun) :
  r_running s = true ->
  let r := worker_run md5 synth_ok play_ok n s in
  NoDup (synthesized_files md5 (snd r))
  /\ (forall f, In f (synthesized_files md5 (snd r)) -> ~ In f (r_cache s))
  /\ (forall f, In f (r_cache (fst r))
                <-> In f (synthesized_files md5 (snd r)) \/ In f (r_cache s))
  /\ (forall e, In e (snd r) -> ev_played e = true ->
        play_ok (cache_path md5 (ev_text e)) = true
        /\ (ev_synthesized e = true -> synth_ok (ev_text e) = true)).
Proof.
  intros Hrun r. subst r.
  destruct (worker_run_spec md5 synth_ok play_ok n s Hrun)
    as (_ & _ & _ & _ & _ & A & B & C).
  split; [exact A|]. split; [exact B|]. split; [exact C|].
  intros e. apply worker_run_played.
Qed.

Lemma worker_synthesizes_once_witness :
  let r := worker_run id_digest (fun _ => false) (fun _ => true) 3 busy_run in
  snd r = [mkEvent "car ahead" true false; mkEvent "dog ahead" true false;
           mkEvent "car ahead" false true]
  /\ NoDup (synthesized_files id_digest (snd r))
  /\ (forall f, In f (synthesized_files id_digest (snd r)) ->
                ~ In f (r_cache busy_run))
  /\ (forall f, In f (r_cache (fst r))
                <-> In f (synthesized_files id_digest (snd r))
                    \/ In f (r_cache busy_run))
  /\ (forall e, In e (snd r) -> ev_played e = true ->
        (fun _ : string => true) (cache_path id_digest (ev_text e)) = true
        /\ (ev_synthesized e = true ->
            (fun _ : string => false) (ev_text e) = true)).
Proof.
  split; [reflexivity|].
  apply (@worker_synthesizes_once id_digest (fun _ => false) (fun _ => true) 3
           busy_run).
  reflexivity.
Defined.

Lemma drain_empties (fuel : nat) : forall q,
  (List.length (q_items q) <= fuel)%nat -> q_items (drain fuel q) = [].
Proof.
  induction fuel as [|k IH]; intros q Hlen; cbn [drain].
  - destruct (q_items q); [reflexivity | simpl in Hlen; lia].
  - unfold q_get_nowait. destruct (q_items q) as [|x r] eqn:Eq; [exact Eq|].
    apply IH. simpl in *. lia.
Qed.

Lemma worker_run_stopped (md5 : string -> string)
    (synth_ok play_ok : string -> bool) (n : nat) (s : EngineRun) :
  r_running s = false -> worker_run md5 synth_ok play_ok n s = (s, []).
Proof.
  intros Hstop. induction n as [|k IH]; [reflexivity|].
  cbn [worker_run]. unfold worker_step. rewrite Hstop. cbn [negb].
  now rewrite IH.
Qed.

(** X22.  [stop] leaves the queue empty and keeps the counter; after it no
    pass of the worker takes or plays anything, also when [speak] is called
    again and queues new texts. *)
Theorem nothing_played_after_stop (md5 : string -> string)
    (synth_ok play_ok remove_ok : string -> bool) (s : EngineRun)
    (calls : list (string * bool * R * R)) (n : nat) :
  q_items (phrase_q (r_engine (stop remove_ok s))) = []
  /\ r_phrases_spoken (stop remove_ok s) = r_phrases_spoken s
  /\ worker_run md5 synth_ok play_ok n (run_speak (stop remove_ok s) calls)
     = (run_speak (stop remove_ok s) calls, []).
Proof.
  split; [|split].
  - unfold stop. cbn [r_engine phrase_q]. apply drain_empties. lia.
  - reflexivity.
  - apply worker_run_stopped. reflexivity.
Qed.

(** X23.  A text evicted from the full queue is never played: when the
    worker runs after a sequence of calls of [speak] during which it took
    nothing, the texts it takes are the first of the last five of what was
    queued followed by what was accepted. *)
Theorem evicted_never_played (md5 : string -> string)
    (synth_ok play_ok : string -> bool) (s : EngineRun)
    (calls : list (string * bool * R * R)) (n : nat) :
  engine_ok (r_engine s) -> r_running s = true ->
  map ev_text (snd (worker_run md5 synth_ok play_ok n (run_speak s calls)))
  = firstn n (last_n 5 (q_items (phrase_q (r_engine s))
                        ++ accepted_log (last_narration (r_engine s))
                             (last_narration_time (r_engine s)) calls)).
Proof.
  intros Hok Hrun.
  assert (Hrun' : r_running (run_speak s calls) = true) by exact Hrun.
  destruct (worker_run_spec md5 synth_ok play_ok n (run_speak s calls) Hrun')
    as (A & _).
  rewrite A. unfold run_speak. cbn [r_engine].
  now rewrite speak_all_window.
Qed.

Lemma evicted_never_played_witness :
  map ev_text
    (snd (worker_run id_digest (fun _ => true) (fun _ => true) 5
            (run_speak (mkRun full_engine true 0 [])
               [("f", false, 10, 10); ("g", false, 11, 11)])))
  = ["c"; "d"; "e"; "f"; "g"].
Proof.
  assert (Hok : engine_ok full_engine)
    by (unfold engine_ok; simpl; split; [reflexivity | lia]).
  rewrite (@evicted_never_played id_digest (fun _ => true) (fun _ => true)
             (mkRun full_engine true 0 [])
             [("f", false, 10, 10); ("g", false, 11, 11)] 5 Hok eq_refl).
  reflexivity.
Defined.

(* ------------------------------------------------------------------ *)
(** ** The main loop *)

(** A turn that does not raise, read backwards. *)
Lemma frame_step_inv (p p' : Pipeline) (inp : FrameInput)
    (out : option FrameOutput) :
  frame_step p inp = Some (p', out) ->
  let c := (p_frame_count p + 1)%Z in
  p_frame_count p' = c
  /\ p_depth_map p'
     = (if (c mod 3 =? 0)%Z then scale_depth (in_prediction inp)
        else p_depth_map p)
  /\ match p_depth_map p' with
     | None =>
         out = None /\ p_tracker p' = p_tracker p
         /\ p_mental_map p' = p_mental_map p /\ p_tts p' = p_tts p
         /\ p_last_narration_frame p' = p_last_narration_frame p
     | Some d =>
         exists dets o,
           detections_3d (in_boxes inp) d = Some dets
           /\ p_tracker p' = fst (assign_ids (p_tracker p) dets c)
           /\ p_mental_map p'
              = update (p_mental_map p) (snd (assign_ids (p_tracker p) dets c))
                       (in_time_update inp)
           /\ out = Some o
           /\ out_prioritized o
              = prioritize_objects (mm_map (p_mental_map p')) 5
           /\ if (narration_interval <=? c - p_last_narration_frame p)%Z
              then p_last_narration_frame p' = c
                   /\ out_narration o
                      = Some (generate_contextual_narration
                                (analyze_situation (mm_map (p_mental_map p'))))
                   /\ p_tts p'
                      = speak (p_tts p)
                          (generate_contextual_narration
                             (analyze_situation (mm_map (p_mental_map p'))))
                          false (in_time_check inp) (in_time_accept inp)
              else p_last_narration_frame p' = p_last_narration_frame p
                   /\ out_narration o = None
                   /\ p_tts p' = p_tts p
     end.
Proof.
  unfold frame_step. cbv zeta.
  set (c := (p_frame_count p + 1)%Z).
  assert (Hbody : forall dm : option Array2,
    match dm with
    | None =>
        Some (mkPipeline (p_tracker p) (p_mental_map p) (p_tts p) c None
                (p_last_narration_frame p), @None FrameOutput)
    | Some depth_map =>
        match detections_3d (in_boxes inp) depth_map with
        | None => None
        | Some dets =>
            let '(tracker, tracked_objects) := assign_ids (p_tracker p) dets c in
            if (narration_interval <=? c - p_last_narration_frame p)%Z
            then
              Some (mkPipeline tracker
                      (update (p_mental_map p) tracked_objects (in_time_update inp))
                      (speak (p_tts p)
                         (generate_contextual_narration
                            (analyze_situation
                               (mm_map (update (p_mental_map p) tracked_objects
                                          (in_time_update inp)))))
                         false (in_time_check inp) (in_time_accept inp))
                      c (Some depth_map) c,
                    Some (mkFrameOutput
                            (prioritize_objects
                               (mm_map (update (p_mental_map p) tracked_objects
                                          (in_time_update inp))) 5)
                            (Some (generate_contextual_narration
                                     (analyze_situation
                                        (mm_map (update (p_mental_map p)
                                                   tracked_objects
                                                   (in_time_update inp))))))))
            else
              Some (mkPipeline tracker
                      (update (p_mental_map p) tracked_objects (in_time_update inp))
                      (p_tts p) c (Some depth_map) (p_last_narration_frame p),
                    Some (mkFrameOutput
                            (prioritize_objects
                               (mm_map (update (p_mental_map p) tracked_objects
                                          (in_time_update inp))) 5)
                            None))
        end
    end = Some (p', out) ->
    p_frame_count p' = c /\ p_depth_map p' = dm
    /\ match p_depth_map p' with
       | None =>
           out = None /\ p_tracker p' = p_tracker p
           /\ p_mental_map p' = p_mental_map p /\ p_tts p' = p_tts p
           /\ p_last_narration_frame p' = p_last_narration_frame p
       | Some d =>
           exists dets o,
             detections_3d (in_boxes inp) d = Some dets
             /\ p_tracker p' = fst (assign_ids (p_tracker p) dets c)
             /\ p_mental_map p'
                = update (p_mental_map p) (snd (assign_ids (p_tracker p) dets c))
                         (in_time_update inp)
             /\ out = Some o
             /\ out_prioritized o
                = prioritize_objects (mm_map (p_mental_map p')) 5
             /\ if (narration_interval <=? c - p_last_narration_frame p)%Z
                then p_last_narration_frame p' = c
                     /\ out_narration o
                        = Some (generate_contextual_narration
                                  (analyze_situation (mm_map (p_mental_map p'))))
                     /\ p_tts p'
                        = speak (p_tts p)
                            (generate_contextual_narration
                               (analyze_situation (mm_map (p_mental_map p'))))
                            false (in_time_check inp) (in_time_accept inp)
                else p_last_narration_frame p' = p_last_narration_frame p
                     /\ out_narration o = None
                     /\ p_tts p' = p_tts p
       end).
  { intros [d|].
    - destruct (detections_3d (in_boxes inp) d) as [dets|] eqn:Ed; [|discriminate].
      destruct (assign_ids (p_tracker p) dets c) as [tracker tracked] eqn:Ea.
      destruct (narration_interval <=? c - p_last_narration_frame p)%Z eqn:En;
        intros [= <- <-]; cbn [p_frame_count p_depth_map p_tracker p_mental_map
                                p_tts p_last_narration_frame];
        (split; [reflexivity|]); (split; [reflexivity|]);
        eexists dets, _; rewrite Ed, Ea;
        repeat split; try reflexivity.
    - intros [= <- <-]. cbn. repeat split; reflexivity. }
  destruct (c mod 3 =? 0)%Z.
  - destruct (scale_depth (in_prediction inp)) as [d|]; [|discriminate].
    apply (Hbody (Some d)).
  - apply (Hbody (p_depth_map p)).
Qed.

Lemma frame_step_refresh (p p' : Pipeline) (inp : FrameInput)
    (out : option FrameOutput) :
  frame_step p inp = Some (p', out) ->
  ((p_frame_count p + 1) mod 3 = 0)%Z ->
  exists d, scale_depth (in_prediction inp) = Some d /\ p_depth_map p' = Some d.
Proof.
  intros Hstep Hmod.
  destruct (frame_step_inv _ _ Hstep) as (_ & Hd & _). cbv zeta in Hd.
  unfold frame_step in Hstep. cbv zeta in Hstep.
  assert (E : ((p_frame_count p + 1) mod 3 =? 0)%Z = true) by now apply Z.eqb_eq.
  rewrite E in Hstep, Hd.
  destruct (scale_depth (in_prediction inp)) as [d|]; [|discriminate].
  now exists d.
Qed.

(** The counters and the depth map between turns, [c] turns in. *)
Lemma run_pipeline_counters (inputs : list FrameInput) :
  forall p p' outs,
  run_pipeline p inputs = Some (p', outs) ->
  let c := p_frame_count p in
  (0 <= c)%Z ->
  p_last_narration_frame p = (45 * (c / 45))%Z ->
  (p_depth_map p = None <-> (c < 3)%Z) ->
  let n := (c + Z.of_nat (List.length inputs))%Z in
  p_frame_count p' = n
  /\ List.length outs = List.length inputs
  /\ p_last_narration_frame p' = (45 * (n / 45))%Z
  /\ (forall k, In k (narrated_frames (c + 1) outs)
                <-> (c < k <= n)%Z /\ (k mod 45 = 0)%Z)
  /\ (p_depth_map p' = None <-> (n < 3)%Z)
  /\ ((n < 3)%Z ->
      p_tracker p' = p_tracker p /\ p_mental_map p' = p_mental_map p
      /\ p_tts p' = p_tts p /\ forall o, In o outs -> o = None).
Proof.
  induction inputs as [|inp rest IH]; intros p p' outs Hrun c Hc Hlast Hdepth n.
  - cbn in Hrun. injection Hrun as <- <-. subst n c. cbn [List.length].
    rewrite Z.add_0_r. repeat split; auto; cbn; try tauto; try lia.
  - cbn [run_pipeline] in Hrun.
    destruct (frame_step p inp) as [[p1 out]|] eqn:Hstep; [|discriminate].
    destruct (run_pipeline p1 rest) as [[p2 outs']|] eqn:Hrest; [|discriminate].
    injection Hrun as <- <-.
    destruct (frame_step_inv _ _ Hstep) as (Hc1 & Hd1 & Hcase).
    cbv zeta in Hc1, Hd1, Hcase. fold c in Hc1, Hd1, Hcase.
    assert (Hdepth1 : p_depth_map p1 = None <-> (c + 1 < 3)%Z).
    { destruct ((c + 1) mod 3 =? 0)%Z eqn:Em.
      - apply Z.eqb_eq in Em.
        destruct (frame_step_refresh _ _ Hstep Em) as (d & _ & Hd).
        rewrite Hd. split; [discriminate|].
        intros H. exfalso. revert Em H. clear -Hc.
        intros Em H. assert (c + 1 = 1 \/ c + 1 = 2)%Z as [E | E] by lia;
          rewrite E in Em; discriminate.
      - apply Z.eqb_neq in Em. rewrite Hd1, Hdepth.
        split; intros H; [|lia].
        assert (c + 1 <> 3)%Z by (intros E; rewrite E in Em; now apply Em).
        lia. }
    assert (Hnarr : match out with
                    | Some (mkFrameOutput _ (Some _)) => ((c + 1) mod 45 = 0)%Z
                    | _ => ((c + 1) mod 45 <> 0)%Z
                    end
                    /\ p_last_narration_frame p1 = (45 * ((c + 1) / 45))%Z).
    { destruct (p_depth_map p1) as [d|] eqn:Ed.
      - destruct Hcase as (dets & o & _ & _ & _ & -> & _ & Hn).
        unfold narration_interval in Hn. rewrite Hlast in Hn.
        destruct (45 <=? c + 1 - 45 * (c / 45))%Z eqn:En.
        + apply Z.leb_le in En. destruct Hn as (Hl & Ho & _).
          destruct o as [pr na]. cbn in Ho. subst na. rewrite Hl.
          split; Z.div_mod_to_equations; lia.
        + apply Z.leb_gt in En. destruct Hn as (Hl & Ho & _).
          destruct o as [pr na]. cbn in Ho. subst na. rewrite Hl.
          split; Z.div_mod_to_equations; lia.
      - destruct Hcase as (-> & _ & _ & _ & Hl).
        assert (c + 1 < 3)%Z by now apply Hdepth1.
        rewrite Hl, Hlast. split; Z.div_mod_to_equations; lia. }
    destruct Hnarr as (Hnarr & Hlast1).
    assert (Hc1' : (0 <= p_frame_count p1)%Z) by lia.
    rewrite <- Hc1 in Hlast1, Hdepth1.
    destruct (IH p1 p2 outs' Hrest Hc1' Hlast1 Hdepth1)
      as (I1 & I2 & I3 & I4 & I5 & I6).
    rewrite Hc1 in I1, I3, I4, I5, I6.
    assert (En : (c + 1 + Z.of_nat (List.length rest))%Z = n).
    { subst n. cbn [List.length]. lia. }
    rewrite En in *.
    split; [exact I1|]. split; [cbn [List.length]; now rewrite I2|].
    split; [exact I3|]. split; [|split; [exact I5|]].
    + intros k. cbn [narrated_frames].
      assert (Hk : In k (narrated_frames (c + 1 + 1) outs')
                   <-> (c + 1 < k <= n)%Z /\ (k mod 45 = 0)%Z) by apply I4.
      destruct out as [[pr [na|]]|]; cbn [In]; rewrite Hk; split.
      * intros [<- | H]; [split; [lia | exact Hnarr] | split; [lia | tauto]].
      * intros (H1 & H2). destruct (Z.eq_dec k (c + 1)); [now left | right].
        split; [lia | exact H2].
      * intros H; split; [lia | tauto].
      * intros (H1 & H2). split; [|exact H2].
        destruct (Z.eq_dec k (c + 1)) as [-> | Hne]; [contradiction | lia].
      * intros H; split; [lia | tauto].
      * intros (H1 & H2). split; [|exact H2].
        destruct (Z.eq_dec k (c + 1)) as [-> | Hne]; [contradiction | lia].
    + intros Hn3.
      assert (Hn1 : p_depth_map p1 = None) by (apply Hdepth1; lia).
      rewrite Hn1 in Hcase.
      destruct Hcase as (-> & T1 & T2 & T3 & _).
      destruct (I6 Hn3) as (J1 & J2 & J3 & J4).
      repeat split; try congruence.
      intros o [<- | Ho]; [reflexivity | now apply J4].
Qed.

Lemma detections_3d_total (boxes : list (Box * string)) (depth_map : Array2) :
  (1 <= a_h depth_map)%nat -> (1 <= a_w depth_map)%nat ->
  (forall b, In b boxes -> centre_finite float32_max (fst b)) ->
  exists dets, detections_3d boxes depth_map = Some dets.
Proof.
  intros Hh Hw Hfin.
  induction boxes as [|[bbox cls] rest IH]; cbn [detections_3d].
  - now exists [].
  - destruct (compute_3d_position_in_spec float32_max bbox depth_map
                camera_intrinsics) as (Hn & _).
    destruct (compute_3d_position_in float32_max bbox depth_map
                camera_intrinsics) as [pos|].
    + destruct IH as (dets & ->); [|eexists; reflexivity].
      intros b Hb. apply Hfin. now right.
    + exfalso. destruct Hn as (Hn & _).
      destruct (Hfin (bbox, cls) (or_introl eq_refl)) as (Fx & Fy).
      cbn [fst] in Fx, Fy.
      destruct (Hn eq_refl) as [H | [H | [H | H]]]; try lia; lra.
Qed.

Lemma run_pipeline_total (inputs : list FrameInput) :
  forall p,
  (forall d, p_depth_map p = Some d -> (1 <= a_h d)%nat /\ (1 <= a_w d)%nat) ->
  (forall inp, In inp inputs ->
     (1 <= a_h (in_prediction inp))%nat /\ (1 <= a_w (in_prediction inp))%nat) ->
  (forall inp b, In inp inputs -> In b (in_boxes inp) ->
     centre_finite float32_max (fst b)) ->
  exists p' outs, run_pipeline p inputs = Some (p', outs).
Proof.
  induction inputs as [|inp rest IH]; intros p Hd Hin Hfin.
  - eexists _, _. reflexivity.
  - cbn [run_pipeline].
    assert (Hstep : exists p1 out,
              frame_step p inp = Some (p1, out)
              /\ forall d, p_depth_map p1 = Some d ->
                           (1 <= a_h d)%nat /\ (1 <= a_w d)%nat).
    { assert (Hbody : forall dm : option Array2,
        (forall d, dm = Some d -> (1 <= a_h d)%nat /\ (1 <= a_w d)%nat) ->
        (if ((p_frame_count p + 1) mod 3 =? 0)%Z
         then match scale_depth (in_prediction inp) with
              | Some d => Some (Some d)
              | None => None
              end
         else Some (p_depth_map p)) = Some dm ->
        exists p1 out,
          frame_step p inp = Some (p1, out)
          /\ forall d, p_depth_map p1 = Some d ->
                       (1 <= a_h d)%nat /\ (1 <= a_w d)%nat).
      { intros dm Hdm E. unfold frame_step. cbv zeta. rewrite E.
        destruct dm as [d|].
        - destruct (Hdm d eq_refl) as (Hh & Hw).
          destruct (@detections_3d_total (in_boxes inp) d Hh Hw) as (dets & ->).
          { intros b Hb. apply (Hfin inp b); [now left | exact Hb]. }
          destruct (assign_ids (p_tracker p) dets (p_frame_count p + 1))
            as [tracker tracked].
          destruct (narration_interval <=?
                    p_frame_count p + 1 - p_last_narration_frame p)%Z;
            eexists _, _; (split; [reflexivity|]);
            cbn [p_depth_map]; intros d' [= <-]; auto.
        - eexists _, _. split; [reflexivity|]. cbn. discriminate. }
      destruct ((p_frame_count p + 1) mod 3 =? 0)%Z eqn:Em.
      - destruct (scale_depth_spec (in_prediction inp)) as (Hnone & Hsome).
        destruct (scale_depth (in_prediction inp)) as [d|] eqn:Es.
        + apply (Hbody (Some d)); [|reflexivity].
          intros d' [= <-]. destruct (Hsome d eq_refl) as (Eh & Ew & _).
          rewrite Eh, Ew. apply Hin. now left.
        + exfalso. destruct Hnone as (Hn & _).
          destruct (Hin inp (or_introl eq_refl)) as (Hh & Hw).
          destruct (Hn eq_refl); lia.
      - apply (Hbody (p_depth_map p)); [exact Hd | reflexivity]. }
    destruct Hstep as (p1 & out & -> & Hd1).
    destruct (IH p1 Hd1) as (p2 & outs & ->).
    + intros i Hi. apply Hin. now right.
    + intros i b Hi Hb. apply (Hfin i b); [now right | exact Hb].
    + eexists _, _. reflexivity.
Qed.

(** X24.  The narration cadence.  After [n] turns from the start the frame
    counter is [n]; a narration is made on exactly the turns whose number is
    a multiple of 45, and [last_narration_frame] is the last such number;
    the depth map is missing only before the third turn, and until then the
    turns leave the tracker, the mental map and the speech engine as they
    were and show nothing. *)
Theorem narration_cadence (inputs : list FrameInput) (p : Pipeline)
    (outs : list (option FrameOutput)) :
  run_pipeline initial_pipeline inputs = Some (p, outs) ->
  let n := Z.of_nat (List.length inputs) in
  p_frame_count p = n
  /\ List.length outs = List.length inputs
  /\ p_last_narration_frame p = (45 * (n / 45))%Z
  /\ (forall k, In k (narrated_frames 1 outs)
                <-> (1 <= k <= n)%Z /\ (k mod 45 = 0)%Z)
  /\ (p_depth_map p = None <-> (n < 3)%Z)
  /\ ((n < 3)%Z ->
      p_tracker p = default_tracker /\ p_mental_map p = default_mental_map
      /\ p_tts p = new_engine /\ forall o, In o outs -> o = None).
Proof.
  intros Hrun n.
  destruct (@run_pipeline_counters inputs initial_pipeline p outs Hrun)
    as (A & B & C & D & E & F); cbn [initial_pipeline p_frame_count
      p_last_narration_frame p_depth_map]; try lia.
  - reflexivity.
  - split; [lia | reflexivity].
  - cbn [initial_pipeline p_frame_count p_tracker p_mental_map p_tts] in *.
    rewrite Z.add_0_l in *. fold n in A, C, D, E, F.
    split; [exact A|]. split; [exact B|]. split; [exact C|].
    split; [|split; [exact E | exact F]].
    intros k. rewrite (D k). lia.
Qed.

Lemma narration_cadence_witness :
  exists p outs,
    run_pipeline initial_pipeline [quiet_input; quiet_input; quiet_input]
    = Some (p, outs)
    /\ p_frame_count p = 3%Z
    /\ p_last_narration_frame p = 0%Z
    /\ p_depth_map p <> None.
Proof.
  destruct (@run_pipeline_total [quiet_input; quiet_input; quiet_input]
              initial_pipeline) as (p & outs & E).
  - cbn. discriminate.
  - intros inp [<- | [<- | [<- | []]]]; cbn; lia.
  - intros inp b [<- | [<- | [<- | []]]] [].
  - exists p, outs. split; [exact E|].
    destruct (@narration_cadence [quiet_input; quiet_input; quiet_input]
                p outs E) as (A & _ & C & _ & D & _).
    split; [exact A|]. split; [exact C|].
    intros H. apply D in H. cbn in H. lia.
Defined.

(** X25.  The loop does not raise from this core as long as every predicted
    depth array has at least one row and one column and, for every box of
    the detector, the sum of its two x coordinates and the sum of its two y
    coordinates are within the finite [float32] values: each turn then goes
    through, wherever the boxes lie with respect to the frame. *)
Theorem main_loop_never_raises (inputs : list FrameInput) :
  (forall inp, In inp inputs ->
     (1 <= a_h (in_prediction inp))%nat /\ (1 <= a_w (in_prediction inp))%nat) ->
  (forall inp b, In inp inputs -> In b (in_boxes inp) ->
     centre_finite float32_max (fst b)) ->
  exists p outs, run_pipeline initial_pipeline inputs = Some (p, outs).
Proof.
  intros Hin Hfin. apply run_pipeline_total; [|exact Hin|exact Hfin].
  cbn. discriminate.
Qed.

Lemma main_loop_never_raises_witness :
  exists p outs,
    run_pipeline initial_pipeline [quiet_input; car_input 1; car_input 2]
    = Some (p, outs).
Proof.
  pose proof float32_max_ge as Hm.
  apply main_loop_never_raises.
  - intros inp [<- | [<- | [<- | []]]]; cbn; lia.
  - intros inp b [<- | [<- | [<- | []]]] Hb; cbn in Hb;
      try contradiction; destruct Hb as [<- | []];
      unfold centre_finite; cbn [fst bx1 bx2 by1 by2];
      rewrite Rabs_right by lra; lra.
Defined.

Lemma update_NoDup (mm : MentalMap3D) (tr : list (Z * TrackedDetection))
    (now : R) :
  NoDup (PyDict.keys (mm_map mm)) ->
  NoDup (PyDict.keys (mm_map (update mm tr now))).
Proof.
  intros Hnd. unfold update. cbn [mm_map].
  pose proof (upsert_all_NoDup now tr _ Hnd) as Hnd'.
  rewrite PyDictFacts.of_items_NoDup by (now apply NoDup_keys_filter).
  now apply NoDup_keys_filter.
Qed.

Lemma update_keys (mm : MentalMap3D) (tr : list (Z * TrackedDetection))
    (now : R) (i : Z) :
  NoDup (PyDict.keys (mm_map mm)) ->
  In i (PyDict.keys (mm_map (update mm tr now))) ->
  In i (PyDict.keys (mm_map mm)) \/ In i (map fst tr).
Proof.
  intros Hnd Hin.
  destruct (in_dec Z.eq_dec i (map fst tr)) as [Hr | Hr]; [now right | left].
  apply PyDictFacts.contains_true_iff in Hin. unfold PyDict.contains in Hin.
  rewrite update_get in Hin by exact Hnd.
  destruct (upsert_all_get now i tr (mm_map mm)) as (Hout & _).
  rewrite (Hout Hr) in Hin.
  apply PyDictFacts.contains_true_iff. unfold PyDict.contains.
  destruct (PyDict.get i (mm_map mm)); [reflexivity | discriminate].
Qed.

Lemma in_firstn (A : Type) (n : nat) (l : list A) (x : A) :
  In x (firstn n l) -> In x l.
Proof.
  intros H. rewrite <- (firstn_skipn n l). apply in_or_app. now left.
Qed.

Lemma prioritize_in_map (mental_map : PyDict.t MapEntry) (top_n : Z)
    (e : Z * MapEntry) :
  In e (prioritize_objects mental_map top_n) -> In e mental_map.
Proof.
  unfold prioritize_objects, slice_to. cbv zeta. intros Hin.
  apply in_map_iff in Hin. destruct Hin as (x & <- & Hx).
  assert (Hs : In x (sort_desc
                       (map (fun kv => (score (snd kv), fst kv, snd kv))
                            mental_map))).
  { destruct (top_n <? 0)%Z; eapply in_firstn; exact Hx. }
  apply (Permutation_in _ (Permutation_sym (sort_desc_perm _))) in Hs.
  apply in_map_iff in Hs. destruct Hs as ([k v] & <- & Hkv). exact Hkv.
Qed.

Lemma initial_pipeline_ok : pipeline_ok initial_pipeline.
Proof.
  unfold pipeline_ok, initial_pipeline. cbn.
  split; [apply new_tracker_ok|]. split; [lra|]. split; [constructor|].
  split; [lra|]. split; [apply new_engine_ok | tauto].
Qed.

(** What a turn keeps and what it shows. *)
Lemma frame_step_ok (p p' : Pipeline) (inp : FrameInput)
    (out : option FrameOutput) :
  pipeline_ok p -> ages_in_range (p_tracker p) ->
  frame_step p inp = Some (p', out) ->
  pipeline_ok p' /\ ages_in_range (p_tracker p')
  /\ forall o, out = Some o ->
       (List.length (out_prioritized o) <= 5)%nat
       /\ (forall e, In e (out_prioritized o) ->
                     In e (mm_map (p_mental_map p')))
       /\ forall t, out_narration o = Some t ->
                    t <> "" /\ last_narration (p_tts p') = t.
Proof.
  intros (Hto & Hthr & Hnd & Hkeep & Heng & Hbelow) Hages Hstep.
  destruct (frame_step_inv _ _ Hstep) as (_ & _ & Hcase). cbv zeta in Hcase.
  destruct (p_depth_map p') as [d|].
  2:{ destruct Hcase as (-> & E1 & E2 & E3 & _).
      unfold pipeline_ok. rewrite E1, E2, E3.
      split; [auto 10|]. split; [exact Hages | discriminate]. }
  destruct Hcase as (dets & o & _ & Ht & Hm & -> & Hpr & Hn).
  set (c := (p_frame_count p + 1)%Z) in *.
  destruct (assign_ids_effect dets c Hto Hthr)
    as (Hto' & _ & Hthr' & Hnext & _). cbv zeta in *.
  assert (Hout : forall i, In i (map fst (snd (assign_ids (p_tracker p) dets c))) ->
                           (i < next_id (fst (assign_ids (p_tracker p) dets c)))%Z).
  { intros i Hi. rewrite assign_ids_out in Hi. rewrite assign_ids_next_id.
    pose proof (loop_state_inv c Hto Hthr dets) as Hinv.
    destruct (loop_state c (p_tracker p) dets) as [[s1 used] assigned].
    unfold loop_inv in Hinv. cbn [fst snd] in *.
    destruct Hinv as (Hok1 & Hused & _ & _ & _ & Hkeys & _).
    apply (ok_below Hok1), Hkeys. right. rewrite Hused. now apply -> in_rev. }
  assert (Heng' : engine_ok (p_tts p')).
  { destruct (narration_interval <=? c - p_last_narration_frame p)%Z.
    - destruct Hn as (_ & _ & ->). now apply speak_ok.
    - destruct Hn as (_ & _ & ->). exact Heng. }
  split; [|split].
  - unfold pipeline_ok. rewrite Ht, Hm.
    split; [exact Hto'|]. split; [rewrite Hthr'; exact Hthr|].
    split; [now apply update_NoDup|]. split; [exact Hkeep|].
    split; [exact Heng'|].
    intros i Hi. apply update_keys in Hi; [|exact Hnd].
    destruct Hi as [Hi | Hi]; [apply Hbelow in Hi; lia | now apply Hout].
  - rewrite Ht. apply assign_ids_keeps_range; auto.
    intros i a Hg. now apply (Hages i a).
  - intros o' [= <-]. rewrite Hpr. split; [|split].
    + pose proof (prioritize_length_eq (mm_map (p_mental_map p')) 5) as Hl.
      change (5 <? 0)%Z with false in Hl. cbv iota in Hl. lia.
    + intros e. apply prioritize_in_map.
    + intros t Ho.
      destruct (narration_interval <=? c - p_last_narration_frame p)%Z.
      * destruct Hn as (_ & Hna & Hs). rewrite Ho in Hna. injection Hna as ->.
        split; [apply generate_nonempty|].
        rewrite Hs. apply speak_last_narration; [exact Heng|].
        apply generate_nonempty.
      * destruct Hn as (_ & Hna & _). congruence.
Qed.

(** X26.  Whatever the turns so far: the tracker is consistent with ages
    within [0, max_age]; the mental map holds each id once and only ids the
    tracker has issued; the speech queue holds at most five texts.  A turn
    shows at most five prioritized entries, all of them entries of the
    mental map; a narration it makes is not empty and is the engine's last
    accepted text afterwards. *)
Theorem pipeline_invariants (inputs : list FrameInput) (p : Pipeline)
    (outs : list (option FrameOutput)) :
  run_pipeline initial_pipeline inputs = Some (p, outs) ->
  pipeline_ok p /\ ages_in_range (p_tracker p)
  /\ forall o, In (Some o) outs ->
       (List.length (out_prioritized o) <= 5)%nat
       /\ forall t, out_narration o = Some t -> t <> "".
Proof.
  assert (Hgen : forall inputs p0 p outs,
            pipeline_ok p0 -> ages_in_range (p_tracker p0) ->
            run_pipeline p0 inputs = Some (p, outs) ->
            pipeline_ok p /\ ages_in_range (p_tracker p)
            /\ forall o, In (Some o) outs ->
                 (List.length (out_prioritized o) <= 5)%nat
                 /\ forall t, out_narration o = Some t -> t <> "").
  { clear. induction inputs as [|inp rest IH]; intros p0 p outs Hok Hr Hrun.
    - cbn in Hrun. injection Hrun as <- <-. split; [exact Hok|].
      split; [exact Hr | intros o []].
    - cbn [run_pipeline] in Hrun.
      destruct (frame_step p0 inp) as [[p1 out]|] eqn:Hstep; [|discriminate].
      destruct (run_pipeline p1 rest) as [[p2 outs']|] eqn:Hrest; [|discriminate].
      injection Hrun as <- <-.
      destruct (frame_step_ok _ Hok Hr Hstep) as (Hok1 & Hr1 & Hout).
      destruct (IH p1 p2 outs' Hok1 Hr1 Hrest) as (A & B & C).
      split; [exact A|]. split; [exact B|].
      intros o [-> | Ho]; [|now apply C].
      destruct (Hout o eq_refl) as (H5 & _ & Hn).
      split; [exact H5|]. intros t Ht. now apply (Hn t). }
  intros Hrun. apply (Hgen inputs initial_pipeline p outs); auto.
  - apply initial_pipeline_ok.
  - intros i a H. discriminate.
Qed.

Lemma pipeline_invariants_witness :
  exists p outs,
    run_pipeline initial_pipeline [quiet_input; quiet_input; quiet_input]
    = Some (p, outs)
    /\ pipeline_ok p /\ ages_in_range (p_tracker p).
Proof.
  destruct (@run_pipeline_total [quiet_input; quiet_input; quiet_input]
              initial_pipeline) as (p & outs & E).
  - cbn. discriminate.
  - intros inp [<- | [<- | [<- | []]]]; cbn; lia.
  - intros inp b [<- | [<- | [<- | []]]] [].
  - exists p, outs. split; [exact E|].
    destruct (@pipeline_invariants [quiet_input; quiet_input; quiet_input]
                p outs E) as (A & B & _).
    split; assumption.
Defined.
